(** * SimpleMemJs: hybrid index, retrieval controller and answer synthesizer

    A shallow embedding of [src/utils/similarity.ts], [src/stages/indexing.ts]
    and [src/stages/retrieval.ts] (with [isWithinRange] of
    [src/utils/temporal.ts]), and the properties of the design document that
    are settled on it; then [src/storage/memory.ts], the methods of the
    [SimpleMem] orchestrator that work on the storage and the index, and the
    dialogue buffer of [MemoryBuilder] ([src/stages/compression.ts]), with
    properties read off the code.

    Conventions of the embedding.
    - JavaScript numbers that carry scores, weights and vector components are
      exact rationals ([Q]); rounding of IEEE doubles is not modelled there.
      The scoring and ranking of [hybridSearch] is embedded a second time on
      binary64 numbers (module [Binary64]), where rounding decides the order.
      [Math.log], [Math.sqrt], [dayjs] and [JSON.parse] are parameters
      (record [Runtime]).  Numbers that count things ([topK], [baseK],
      [maxReflectionRounds], lengths, indices) are naturals; the window and
      overlap sizes of the dialogue buffer, which are subtracted and passed
      to [slice], are integers ([Z]).
    - Strings are [string]; [toLowerCase] and the regular expressions act on the
      ASCII range.
    - Memory units are JavaScript objects: they live in a store ([heap]) and
      the index, the search results and the retrieval context hold references
      to them.
    - A [Map] is an association list in insertion order.
    - Asynchronous methods run in a state-and-exception monad [M]; every call
      to a collaborator (embedding provider, LLM) is appended to the
      [history] of the state, and a collaborator's reply may depend on it. *)

From Stdlib Require Import List String Ascii Bool Arith ZArith QArith Qround Lia Lqa.
From Stdlib Require Import Sorted Permutation DecimalString.
From Stdlib Require Import PrimFloat.
Import ListNotations.

Set Implicit Arguments.
Close Scope Q_scope.
Local Open Scope nat_scope.
Local Open Scope string_scope.
Local Open Scope list_scope.

(* ========================================================================= *)
(** * JavaScript runtime: strings, arrays, Map, Set, sort *)
(* ========================================================================= *)

Module JS.

(** ** Characters and strings *)

Definition is_upper (c : ascii) : bool :=
  let n := nat_of_ascii c in (65 <=? n)%nat && (n <=? 90)%nat.

Definition lower_char (c : ascii) : ascii :=
  if is_upper c then ascii_of_nat (nat_of_ascii c + 32) else c.

(** [s.toLowerCase()] *)
Fixpoint toLowerCase (s : string) : string :=
  match s with
  | EmptyString => EmptyString
  | String c s' => String (lower_char c) (toLowerCase s')
  end.

(** The class [\s] (ASCII part): tab, line feed, vertical tab, form feed,
    carriage return, space. *)
Definition is_space (c : ascii) : bool :=
  let n := nat_of_ascii c in
  ((9 <=? n)%nat && (n <=? 13)%nat) || (n =? 32)%nat.

(** The class [\w]: letters, digits, underscore. *)
Definition is_word (c : ascii) : bool :=
  let n := nat_of_ascii c in
  ((48 <=? n)%nat && (n <=? 57)%nat)
  || ((65 <=? n)%nat && (n <=? 90)%nat)
  || ((97 <=? n)%nat && (n <=? 122)%nat)
  || (n =? 95)%nat.

Fixpoint map_chars (f : ascii -> ascii) (s : string) : string :=
  match s with
  | EmptyString => EmptyString
  | String c s' => String (f c) (map_chars f s')
  end.

Fixpoint starts_with (p s : string) : bool :=
  match p, s with
  | EmptyString, _ => true
  | String a p', String b s' => Ascii.eqb a b && starts_with p' s'
  | String _ _, EmptyString => false
  end.

(** [s.includes(sub)] *)
Fixpoint includes (s sub : string) : bool :=
  starts_with sub s ||
  match s with
  | EmptyString => false
  | String _ s' => includes s' sub
  end.

(** [s.split(/\s+/)]: the pieces between maximal runs of white space; a run
    at either end leaves an empty piece there.  [cur] is the piece being read,
    [in_run] tells whether the previous character was white. *)
Fixpoint split_ws_aux (s : string) (cur : string) (in_run : bool) : list string :=
  match s with
  | EmptyString => [cur]
  | String c s' =>
      if is_space c
      then if in_run then split_ws_aux s' cur true
           else cur :: split_ws_aux s' EmptyString true
      else split_ws_aux s' (cur ++ String c EmptyString) false
  end.

Definition split_ws (s : string) : list string := split_ws_aux s EmptyString false.

Fixpoint drop_space (s : string) : string :=
  match s with
  | String c s' => if is_space c then drop_space s' else s
  | EmptyString => EmptyString
  end.

Fixpoint rev_string (s : string) : string :=
  match s with
  | EmptyString => EmptyString
  | String c s' => rev_string s' ++ String c EmptyString
  end.

(** [s.trim()] *)
Definition trim (s : string) : string :=
  rev_string (drop_space (rev_string (drop_space s))).

(** [l.join(sep)] *)
Fixpoint join (sep : string) (l : list string) : string :=
  match l with
  | [] => EmptyString
  | [x] => x
  | x :: rest => x ++ sep ++ join sep rest
  end.

(** Truthiness of an optional string: [undefined], [null] and the empty string
    are falsy. *)
Definition truthy (o : option string) : bool :=
  match o with
  | Some s => negb (String.eqb s EmptyString)
  | None => false
  end.

(** The double quote, for the prompt templates. *)
Definition dq : string := String (ascii_of_nat 34) EmptyString.
Definition quoted (s : string) : string := dq ++ s ++ dq.

(** ** Map<string, V> in insertion order *)

Definition Map (V : Type) := list (string * V).

Fixpoint map_get {V} (m : Map V) (k : string) : option V :=
  match m with
  | [] => None
  | (k', v) :: m' => if String.eqb k' k then Some v else map_get m' k
  end.

(** [m.set(k, v)]: an existing key keeps its place, a new key goes last. *)
Fixpoint map_set {V} (m : Map V) (k : string) (v : V) : Map V :=
  match m with
  | [] => [(k, v)]
  | (k', v') :: m' =>
      if String.eqb k' k then (k', v) :: m' else (k', v') :: map_set m' k v
  end.

Fixpoint map_delete {V} (m : Map V) (k : string) : Map V :=
  match m with
  | [] => []
  | (k', v') :: m' =>
      if String.eqb k' k then m' else (k', v') :: map_delete m' k
  end.

Definition map_keys {V} (m : Map V) : list string := List.map fst m.
Definition map_values {V} (m : Map V) : list V := List.map snd m.

(** ** Set<string> in insertion order *)

Definition mem (k : string) (s : list string) : bool :=
  existsb (String.eqb k) s.

Definition set_add (s : list string) (k : string) : list string :=
  if mem k s then s else s ++ [k].

(** [new Set(l)] *)
Definition set_of_list (l : list string) : list string :=
  fold_left set_add l [].

(** ** Arrays *)

(** [l.slice(0, k)] for a count [k]. *)
Definition slice0 {A} (k : nat) (l : list A) : list A := firstn k l.

(** [l.map((x, i) => f(x, i))] *)
Fixpoint mapi_from {A B} (i : nat) (f : A -> nat -> B) (l : list A) : list B :=
  match l with
  | [] => []
  | x :: l' => f x i :: mapi_from (S i) f l'
  end.

Definition mapi {A B} (f : A -> nat -> B) (l : list A) : list B := mapi_from 0 f l.

(** [l.sort(cmp)]: for a consistent comparator the result is the stable sort;
    [cmp a b > 0] puts [b] before [a].  Insertion from the right keeps equal
    elements in their original order. *)
Fixpoint sort_insert {A} (cmp : A -> A -> Q) (x : A) (l : list A) : list A :=
  match l with
  | [] => [x]
  | y :: l' =>
      match (cmp x y ?= 0)%Q with
      | Gt => y :: sort_insert cmp x l'
      | _ => x :: l
      end
  end.

Definition sort {A} (cmp : A -> A -> Q) (l : list A) : list A :=
  fold_right (sort_insert cmp) [] l.

(** [Math.max(...l, d)] *)
Definition max_with (l : list Q) (d : Q) : Q :=
  fold_left (fun m x => if Qle_bool m x then x else m) l d.

(** [x || d] on numbers: zero is falsy. *)
Definition or_else (x d : Q) : Q := if Qeq_bool x 0 then d else x.

Definition of_nat (n : nat) : Q := inject_Z (Z.of_nat n).

(** A parsed JSON value. *)
#[local] Unset Elimination Schemes.
Inductive json : Type :=
| JNull
| JBool (b : bool)
| JNumber (q : Q)
| JString (s : string)
| JArray (l : list json)
| JObject (l : list (string * json)).
#[local] Set Elimination Schemes.

(** An integer argument of [slice] as a position in an array of [len]
    elements: a negative one counts from the end, and both ends clamp. *)
Definition clamp_index (len : nat) (i : Z) : nat :=
  if (i <? 0)%Z then Z.to_nat (Z.max (Z.of_nat len + i) 0)
  else Nat.min (Z.to_nat i) len.

(** [l.slice(start, end)] *)
Definition slice {A} (start end_ : Z) (l : list A) : list A :=
  let k := clamp_index (List.length l) start in
  let final := clamp_index (List.length l) end_ in
  firstn (final - k) (skipn k l).

(** [l.slice(start)] *)
Definition slice_from {A} (start : Z) (l : list A) : list A :=
  skipn (clamp_index (List.length l) start) l.

End JS.

(** The parts of the runtime that are taken as given. *)
Record Runtime : Type := {
  Math_log : Q -> Q;
  Math_sqrt : Q -> Q;
  (** [dayjs(s)]: the instant in milliseconds, [None] when [isValid()] is false. *)
  dayjs : string -> option Z;
  (** [JSON.parse(s)]: [None] when it throws a SyntaxError. *)
  JSON_parse : string -> option JS.json
}.

(* ========================================================================= *)
(** * Errors *)
(* ========================================================================= *)

Inductive error : Type :=
| EmbeddingError (msg : string)       (* the embedding provider rejected *)
| OracleError (msg : string)          (* the LLM provider rejected *)
| DimensionMismatch (la lb : nat)     (* cosineSimilarity, lengths differ *)
| TypeError                           (* property read on undefined *)
| SyntaxError.                        (* JSON.parse *)

Inductive result (A : Type) : Type :=
| Ok (a : A)
| Throw (e : error).

Arguments Ok {A} a.
Arguments Throw {A} e.

(* ========================================================================= *)
(** * utils/similarity.ts *)
(* ========================================================================= *)

Definition vec := list Q.

Module Similarity.
Section Similarity.

Variable rt : Runtime.

(** The loop of [cosineSimilarity] over equal-length vectors: dot product and
    the two squared norms. *)
Fixpoint cosine_sums (a b : vec) (acc : Q * Q * Q) : Q * Q * Q :=
  match a, b with
  | x :: a', y :: b' =>
      let '(dotProduct, normA, normB) := acc in
      cosine_sums a' b' (dotProduct + x * y, normA + x * x, normB + y * y)%Q
  | _, _ => acc
  end.

Definition cosineSimilarity (a b : vec) : result Q :=
  if negb (List.length a =? List.length b)%nat then Throw (DimensionMismatch (List.length a) (List.length b))
  else
    let '(dotProduct, normA, normB) := cosine_sums a b (0, 0, 0)%Q in
    let normA := Math_sqrt rt normA in
    let normB := Math_sqrt rt normB in
    if Qeq_bool normA 0 || Qeq_bool normB 0 then Ok 0%Q
    else Ok (dotProduct / (normA * normB))%Q.

(** The loop of [euclideanDistance]: the sum of the squared differences. *)
Fixpoint euclid_sum (a b : vec) (sum : Q) : Q :=
  match a, b with
  | x :: a', y :: b' =>
      let diff := (x - y)%Q in
      euclid_sum a' b' (sum + diff * diff)%Q
  | _, _ => sum
  end.

Definition euclideanDistance (a b : vec) : result Q :=
  if negb (List.length a =? List.length b)%nat then Throw (DimensionMismatch (List.length a) (List.length b))
  else Ok (Math_sqrt rt (euclid_sum a b 0%Q)).

(** ** BM25Scorer *)

Record BM25Params : Type := { param_k1 : option Q; param_b : option Q }.

Record BM25Scorer : Type := {
  k1 : Q;
  b : Q;
  documents : list (list string);
  avgDocLength : Q;
  idf : JS.Map Q
}.

(** [new BM25Scorer(params)] *)
Definition new_BM25Scorer (params : BM25Params) : BM25Scorer :=
  {| k1 := match param_k1 params with Some x => x | None => 12 # 10 end;
     b := match param_b params with Some x => x | None => 75 # 100 end;
     documents := [];
     avgDocLength := 0;
     idf := [] |}.

Definition default_params : BM25Params := {| param_k1 := None; param_b := None |}.

(** [tokenize]: lower case, every character outside [\w\s] becomes a space,
    split on white space, drop the empty pieces. *)
Definition tokenize (text : string) : list string :=
  filter (fun t => (0 <? String.length t)%nat)
    (JS.split_ws
       (JS.map_chars (fun c => if JS.is_word c || JS.is_space c then c else " "%char)
          (JS.toLowerCase text))).

(** Counting map: [m.set(t, (m.get(t) ?? 0) + 1)] for each [t]. *)
Definition count_into (m : JS.Map nat) (t : string) : JS.Map nat :=
  JS.map_set m t (match JS.map_get m t with Some n => n | None => 0 end + 1)%nat.

Definition addDocuments (bm : BM25Scorer) (docs : list string) : BM25Scorer :=
  let documents := List.map tokenize docs in
  let totalLength := fold_left (fun sum doc => (sum + List.length doc)%nat) documents 0%nat in
  let avgDocLength :=
    JS.or_else (JS.of_nat totalLength / JS.of_nat (List.length documents))%Q 1%Q in
  let docFreq :=
    fold_left (fun df doc => fold_left count_into (JS.set_of_list doc) df)
      documents ([] : JS.Map nat) in
  let N := List.length documents in
  let idf' :=
    fold_left
      (fun m (e : string * nat) =>
         let '(term, df) := e in
         JS.map_set m term
           (Math_log rt ((JS.of_nat N - JS.of_nat df + (1 # 2)) / (JS.of_nat df + (1 # 2)) + 1))%Q)
      docFreq (idf bm) in
  {| k1 := k1 bm; b := b bm; documents := documents;
     avgDocLength := avgDocLength; idf := idf' |}.

(** [termFreq] of a document. *)
Definition termFreq (doc : list string) : JS.Map nat :=
  fold_left count_into doc [].

(** What one query term adds to the score of one document (the body of the
    inner loop of [score]). *)
Definition termScore (bm : BM25Scorer) (doc : list string) (term : string) : Q :=
  let docLength := JS.of_nat (List.length doc) in
  let tf := match JS.map_get (termFreq doc) term with Some n => n | None => 0%nat end in
  let idf_t := match JS.map_get (idf bm) term with Some x => x | None => 0%Q end in
  if (0 <? tf)%nat && negb (Qle_bool idf_t 0) then
    let numerator := (JS.of_nat tf * (k1 bm + 1))%Q in
    let denominator :=
      (JS.of_nat tf + k1 bm * (1 - b bm + b bm * (docLength / avgDocLength bm)))%Q in
    (idf_t * (numerator / denominator))%Q
  else 0%Q.

Definition score (bm : BM25Scorer) (query : string) : list Q :=
  let queryTerms := tokenize query in
  List.map
    (fun doc => fold_left (fun score term => (score + termScore bm doc term)%Q) queryTerms 0%Q)
    (documents bm).

(** [topK]: pairs [(index, score)] with a positive score, best first. *)
Definition topK (bm : BM25Scorer) (query : string) (k : nat) : list (nat * Q) :=
  JS.slice0 k
    (JS.sort (fun a b0 : nat * Q => (snd b0 - snd a)%Q)
       (filter (fun p : nat * Q => negb (Qle_bool (snd p) 0))
          (JS.mapi (fun score index => (index, score)) (score bm query)))).

(** [computeDynamicK]: a depth, that is a count; a negative product (only with
    a negative [delta]) counts as zero.  The code passes a negative product on
    to [slice] as it is; the searches below take counts, so what is proved
    about a depth is stated where the product is not negative. *)
Definition computeDynamicK (baseK : nat) (complexity delta : Q) : nat :=
  Z.to_nat (Qfloor (JS.of_nat baseK * (1 + delta * complexity))%Q).

Definition computeHybridScore
    (semanticScore lexicalScore : Q) (matchesConstraints : bool)
    (alpha beta gamma : Q) : Q :=
  let symbolicBonus := if matchesConstraints then gamma else 0%Q in
  (alpha * semanticScore + beta * lexicalScore + symbolicBonus)%Q.

End Similarity.
End Similarity.

(* ========================================================================= *)
(** * Data model *)
(* ========================================================================= *)

Inductive Salience : Type := high | medium | low.

(** Modelled from the spec: the declaration of [MemoryUnit] ([types/index.ts])
    is not among the sources; the fields are those of section 3 of the design
    document, optional fields as [option]. *)
Record MemoryUnit : Type := {
  id : string;
  content : string;
  keywords : list string;
  persons : list string;
  entities : list string;
  timestamp : option string;
  location : option string;
  topic : option string;
  salience : Salience;
  embedding : option vec
}.

(** Modelled from the spec: the declaration of [QueryFilter] is not among the
    sources.  The bounds of [timestampRange] are optional, as the temporal
    constraints of a query analysis that [retrieve] stores there. *)
Record TimestampRange : Type := {
  range_start : option string;
  range_end : option string
}.

Record QueryFilter : Type := {
  filter_persons : option (list string);
  filter_entities : option (list string);
  timestampRange : option TimestampRange;
  filter_location : option string;
  filter_topic : option string
}.

Inductive MatchType : Type := semantic | lexical | symbolic | hybrid.

(** A search result.  [U] is the type of its [unit]: a reference to a memory
    unit, or, for [keywordSearch], what [unitsArray[index]] gives, which is
    [undefined] beyond the end of the array. *)
Record SearchResult (U : Type) : Type := {
  unit : U;
  score : Q;
  matchType : MatchType
}.

(** References to memory-unit objects, and the store they live in. *)
Definition ref := nat.
Definition Heap := ref -> MemoryUnit.

Definition set_embedding (h : Heap) (r : ref) (e : option vec) : Heap :=
  fun r' =>
    if (r' =? r)%nat then
      let u := h r in
      {| id := id u; content := content u; keywords := keywords u;
         persons := persons u; entities := entities u; timestamp := timestamp u;
         location := location u; topic := topic u; salience := salience u;
         embedding := e |}
    else h r'.

(* ========================================================================= *)
(** * Collaborators and the monad of asynchronous methods *)
(* ========================================================================= *)

(** What the LLM is asked to return for a query analysis
    ([QueryAnalysisResponseSchema]) and for an answer ([AnswerSchema]). *)
Inductive Complexity : Type := LOW | HIGH.

Record QueryAnalysisResponse : Type := {
  resp_complexity : Complexity;
  retrieval_rationale : string;
  lexical_keywords : list string;
  temporal_constraints : option TimestampRange;
  semantic_query : string
}.

Record AnswerResponse : Type := {
  reasoning : string;
  answer : string
}.

(** One call to a collaborator. *)
Inductive event : Type :=
| EmbedCall (texts : list string)
| CompleteCall (prompt : string) (temperature : Q)
| CompleteJSONCall (prompt : string).

(** The promise a collaborator returns settles one way or the other. *)
Inductive reply (A : Type) : Type :=
| Resolves (a : A)
| Rejects (msg : string).

Arguments Resolves {A} a.
Arguments Rejects {A} msg.

(** Modelled from the spec: the interfaces [EmbeddingProvider] and
    [LLMProvider] ([types/index.ts]) are not among the sources; section 6 of
    the design document gives their contracts.  A reply is a function of the
    calls made so far and of the arguments; [completeJSON] is given once per
    schema it is called with and rejects when the output does not conform. *)
Record Collaborators : Type := {
  embed_reply : list event -> list string -> reply (list vec);
  complete_reply : list event -> string -> Q -> reply string;
  completeJSON_analysis : list event -> string -> reply QueryAnalysisResponse;
  completeJSON_answer : list event -> string -> reply AnswerResponse
}.

Record IndexingConfig : Type := {
  semanticTopK : nat;
  keywordTopK : nat;
  structuredTopK : nat;
  semanticWeight : Q;
  lexicalWeight : Q;
  symbolicWeight : Q
}.

Definition DEFAULT_INDEXING_CONFIG : IndexingConfig :=
  {| semanticTopK := 25; keywordTopK := 5; structuredTopK := 5;
     semanticWeight := 6 # 10; lexicalWeight := 3 # 10; symbolicWeight := 1 # 10 |}.

(** The fields of a [HybridIndex] instance (the embedding provider is a
    collaborator). *)
Record HybridIndex : Type := {
  units : JS.Map ref;
  bm25 : Similarity.BM25Scorer;
  config : IndexingConfig;
  needsRebuild : bool
}.

(** [new HybridIndex(embeddings, config)] *)
Definition new_HybridIndex (cfg : IndexingConfig) : HybridIndex :=
  {| units := []; bm25 := Similarity.new_BM25Scorer Similarity.default_params;
     config := cfg; needsRebuild := false |}.

(** The state a method runs in: the object store, the index and the calls
    made to the collaborators. *)
Record World : Type := {
  heap : Heap;
  index : HybridIndex;
  history : list event
}.

Definition M (A : Type) : Type := World -> result A * World.

Definition ret {A} (a : A) : M A := fun w => (Ok a, w).

Definition bind {A B} (c : M A) (f : A -> M B) : M B :=
  fun w =>
    match c w with
    | (Ok a, w') => f a w'
    | (Throw e, w') => (Throw e, w')
    end.

Definition throw {A} (e : error) : M A := fun w => (Throw e, w).

(** [try { c } catch { handler }] *)
Definition try_catch {A} (c : M A) (handler : error -> M A) : M A :=
  fun w =>
    match c w with
    | (Ok a, w') => (Ok a, w')
    | (Throw e, w') => handler e w'
    end.

Definition lift {A} (r : result A) : M A := fun w => (r, w).

Definition get_heap : M Heap := fun w => (Ok (heap w), w).
Definition get_index : M HybridIndex := fun w => (Ok (index w), w).

Definition put_heap (h : Heap) : M Datatypes.unit :=
  fun w => (Ok tt, {| heap := h; index := index w; history := history w |}).
Definition put_index (i : HybridIndex) : M Datatypes.unit :=
  fun w => (Ok tt, {| heap := heap w; index := i; history := history w |}).

Declare Scope js_scope.
Delimit Scope js_scope with js.
Notation "x <- c ;; k" := (bind c (fun x => k))
  (at level 100, c at next level, right associativity) : js_scope.
Notation "c ;;; k" := (bind c (fun _ => k))
  (at level 100, right associativity) : js_scope.

(** [for (const x of l) body(x)] *)
Fixpoint for_of {A} (l : list A) (body : A -> M Datatypes.unit) : M Datatypes.unit :=
  match l with
  | [] => ret tt
  | x :: l' => bind (body x) (fun _ => for_of l' body)
  end.

Definition log_call (e : event) (w : World) : World :=
  {| heap := heap w; index := index w; history := history w ++ [e] |}.

Section Calls.

Variable co : Collaborators.

(** [await this.embeddings.embed(texts)] *)
Definition embed (texts : list string) : M (list vec) :=
  fun w =>
    match embed_reply co (history w) texts with
    | Resolves v => (Ok v, log_call (EmbedCall texts) w)
    | Rejects msg => (Throw (EmbeddingError msg), log_call (EmbedCall texts) w)
    end.

(** [await this.llm.complete(prompt, { temperature })] *)
Definition llm_complete (prompt : string) (temperature : Q) : M string :=
  fun w =>
    match complete_reply co (history w) prompt temperature with
    | Resolves v => (Ok v, log_call (CompleteCall prompt temperature) w)
    | Rejects msg => (Throw (OracleError msg), log_call (CompleteCall prompt temperature) w)
    end.

(** [await this.llm.completeJSON(prompt, schema)], at a schema whose replies
    are given by [rep]. *)
Definition llm_completeJSON {T}
    (rep : list event -> string -> reply T) (prompt : string) : M T :=
  fun w =>
    match rep (history w) prompt with
    | Resolves v => (Ok v, log_call (CompleteJSONCall prompt) w)
    | Rejects msg => (Throw (OracleError msg), log_call (CompleteJSONCall prompt) w)
    end.

End Calls.

(** How many of the calls made so far went to the LLM. *)
Definition is_oracle_call (e : event) : bool :=
  match e with
  | EmbedCall _ => false
  | CompleteCall _ _ => true
  | CompleteJSONCall _ => true
  end.

Definition oracle_calls (h : list event) : nat :=
  List.length (filter is_oracle_call h).

(* ========================================================================= *)
(** * utils/temporal.ts *)
(* ========================================================================= *)

Module Temporal.
Section Temporal.

Variable rt : Runtime.

(** [x.isAfter(y)], [x.isSame(y)], [x.isBefore(y)]: comparisons of the two
    instants; with an invalid date on either side all three are false. *)
Definition isAfter (x y : option Z) : bool :=
  match x, y with Some a, Some b => (b <? a)%Z | _, _ => false end.
Definition isSame (x y : option Z) : bool :=
  match x, y with Some a, Some b => (a =? b)%Z | _, _ => false end.
Definition isBefore (x y : option Z) : bool :=
  match x, y with Some a, Some b => (a <? b)%Z | _, _ => false end.

Definition isWithinRange (timestamp start end_ : string) : bool :=
  let time := dayjs rt timestamp in
  let startTime := dayjs rt start in
  let endTime := dayjs rt end_ in
  match time with
  | None => false
  | Some _ =>
      (isAfter time startTime || isSame time startTime)
      && (isBefore time endTime || isSame time endTime)
  end.

End Temporal.
End Temporal.

(* ========================================================================= *)
(** * stages/indexing.ts *)
(* ========================================================================= *)

Module Indexing.
Section Indexing.

Variable rt : Runtime.
Variable co : Collaborators.

Local Open Scope js_scope.

Definition mk_result {U} (u : U) (s : Q) (m : MatchType) : SearchResult U :=
  {| unit := u; score := s; matchType := m |}.

Definition with_units (i : HybridIndex) (us : JS.Map ref) (dirty : bool) : HybridIndex :=
  {| units := us; bm25 := bm25 i; config := config i; needsRebuild := dirty |}.

(** The loop [unitsNeedingEmbeddings[i].embedding = embeddings[i]], from
    position [i] on; beyond the end of [embeddings] the value is [undefined]. *)
Fixpoint attach_embeddings (h : Heap) (rs : list ref) (embeddings : list vec) (i : nat) : Heap :=
  match rs with
  | [] => h
  | r :: rs' =>
      attach_embeddings (set_embedding h r (nth_error embeddings i)) rs' embeddings (S i)
  end.

(** The loop [this.units.set(unit.id, unit)]. *)
Definition upsert_all (h : Heap) (us : JS.Map ref) (batch : list ref) : JS.Map ref :=
  fold_left (fun m r => JS.map_set m (id (h r)) r) batch us.

Definition has_embedding (u : MemoryUnit) : bool :=
  match embedding u with Some _ => true | None => false end.

Definition addUnits (batch : list ref) : M Datatypes.unit :=
  h <- get_heap ;;
  let unitsNeedingEmbeddings := filter (fun r => negb (has_embedding (h r))) batch in
  (if (0 <? List.length unitsNeedingEmbeddings)%nat then
     let texts := List.map (fun r => content (h r)) unitsNeedingEmbeddings in
     embeddings <- embed co texts ;;
     put_heap (attach_embeddings h unitsNeedingEmbeddings embeddings 0)
   else ret tt) ;;;
  h' <- get_heap ;;
  i <- get_index ;;
  put_index (with_units i (upsert_all h' (units i) batch) true).

Definition removeUnit (unit_id : string) : M Datatypes.unit :=
  i <- get_index ;;
  put_index (with_units i (JS.map_delete (units i) unit_id) true).

Definition rebuildLexicalIndex : M Datatypes.unit :=
  h <- get_heap ;;
  i <- get_index ;;
  let documents := List.map (fun r => content (h r)) (JS.map_values (units i)) in
  put_index {| units := units i;
               bm25 := Similarity.addDocuments rt (bm25 i) documents;
               config := config i;
               needsRebuild := false |}.

(** [cosineSimilarity(queryEmbedding, e)] where [queryEmbedding] is the first
    element of what the provider returned, [undefined] if there is none. *)
Definition cosine_with (queryEmbedding : option vec) (e : vec) : result Q :=
  match queryEmbedding with
  | Some q => Similarity.cosineSimilarity rt q e
  | None => Throw TypeError
  end.

(** The scoring loop of [semanticSearch]. *)
Fixpoint semantic_scores (h : Heap) (queryEmbedding : option vec) (rs : list ref)
    (results : list (SearchResult ref)) : result (list (SearchResult ref)) :=
  match rs with
  | [] => Ok results
  | r :: rs' =>
      match embedding (h r) with
      | None => semantic_scores h queryEmbedding rs' results
      | Some e =>
          match cosine_with queryEmbedding e with
          | Ok s => semantic_scores h queryEmbedding rs' (results ++ [mk_result r s semantic])
          | Throw err => Throw err
          end
      end
  end.

Definition by_score_desc {U} (a b0 : SearchResult U) : Q := (score b0 - score a)%Q.

Definition semanticSearch (query : string) (topK : option nat) : M (list (SearchResult ref)) :=
  i <- get_index ;;
  let k := match topK with Some k => k | None => semanticTopK (config i) end in
  embedded <- embed co [query] ;;
  let queryEmbedding := hd_error embedded in
  h <- get_heap ;;
  results <- lift (semantic_scores h queryEmbedding (JS.map_values (units i)) []) ;;
  ret (JS.slice0 k (JS.sort by_score_desc results)).

Definition keywordSearch (query : string) (topK : option nat)
    : M (list (SearchResult (option ref))) :=
  i0 <- get_index ;;
  let k := match topK with Some k => k | None => keywordTopK (config i0) end in
  (if needsRebuild i0 then rebuildLexicalIndex else ret tt) ;;;
  i <- get_index ;;
  let unitsArray := JS.map_values (units i) in
  let topResults := Similarity.topK (bm25 i) query k in
  ret (List.map
         (fun p : nat * Q => mk_result (nth_error unitsArray (fst p)) (snd p) lexical)
         topResults).

Definition lower_includes (s sub : string) : bool :=
  JS.includes (JS.toLowerCase s) (JS.toLowerCase sub).

(** The five checks of [matchesFilter]; each tells whether its [return false]
    is reached. *)
Definition fails_persons (u : MemoryUnit) (filter : QueryFilter) : bool :=
  match filter_persons filter with
  | Some ps =>
      (0 <? List.length ps)%nat
      && negb (existsb (fun p => existsb (fun up => lower_includes up p) (persons u)) ps)
  | None => false
  end.

Definition fails_entities (u : MemoryUnit) (filter : QueryFilter) : bool :=
  match filter_entities filter with
  | Some es =>
      (0 <? List.length es)%nat
      && negb (existsb (fun e => existsb (fun ue => lower_includes ue e) (entities u)) es)
  | None => false
  end.

Definition fails_range (u : MemoryUnit) (filter : QueryFilter) : bool :=
  match timestampRange filter, timestamp u with
  | Some range, Some ts =>
      JS.truthy (Some ts)
      && match range_start range, range_end range with
         | Some start, Some end_ =>
             JS.truthy (Some start) && JS.truthy (Some end_)
             && negb (Temporal.isWithinRange rt ts start end_)
         | _, _ => false
         end
  | _, _ => false
  end.

Definition fails_location (u : MemoryUnit) (filter : QueryFilter) : bool :=
  match filter_location filter, location u with
  | Some fl, Some ul =>
      JS.truthy (Some fl) && JS.truthy (Some ul) && negb (lower_includes ul fl)
  | _, _ => false
  end.

Definition fails_topic (u : MemoryUnit) (filter : QueryFilter) : bool :=
  match filter_topic filter, topic u with
  | Some ft, Some ut =>
      JS.truthy (Some ft) && JS.truthy (Some ut) && negb (lower_includes ut ft)
  | _, _ => false
  end.

Definition matchesFilter (u : MemoryUnit) (filter : QueryFilter) : bool :=
  if fails_persons u filter then false
  else if fails_entities u filter then false
  else if fails_range u filter then false
  else if fails_location u filter then false
  else if fails_topic u filter then false
  else true.

Definition structuredSearch (filter0 : QueryFilter) (topK : option nat)
    : M (list (SearchResult ref)) :=
  i <- get_index ;;
  h <- get_heap ;;
  let k := match topK with Some k => k | None => structuredTopK (config i) end in
  let results :=
    List.map (fun r => mk_result r 1%Q symbolic)
      (filter (fun r => matchesFilter (h r) filter0) (JS.map_values (units i))) in
  ret (JS.slice0 k results).

(** [Promise.all([p, Promise.resolve(c)])] as [hybridSearch] uses it: the
    asynchronous method [p] makes its call to the collaborator, the synchronous
    [c] runs whether or not that call succeeds, and the whole rejects when [p]
    does.  Here [p] does not read what [c] writes. *)
Definition promise_all2 {A B} (p : M A) (c : M B) : M (A * B) :=
  fun w =>
    let '(ra, w1) := p w in
    let '(rb, w2) := c w1 in
    match ra, rb with
    | Ok a, Ok b0 => (Ok (a, b0), w2)
    | Throw e, _ => (Throw e, w2)
    | Ok _, Throw e => (Throw e, w2)
    end.

(** The loop [lexicalScores.set(r.unit.id, r.score / maxBM25)]; reading [id] of
    an undefined unit throws. *)
Fixpoint lexical_scores (h : Heap) (maxBM25 : Q)
    (rs : list (SearchResult (option ref))) (m : JS.Map Q) : result (JS.Map Q) :=
  match rs with
  | [] => Ok m
  | r :: rs' =>
      match unit r with
      | Some u => lexical_scores h maxBM25 rs' (JS.map_set m (id (h u)) (score r / maxBM25)%Q)
      | None => Throw TypeError
      end
  end.

(** The body of the loop over [allUnitIds]. *)
Definition hybrid_entry (h : Heap) (i : HybridIndex) (filter : option QueryFilter)
    (semanticScores lexicalScores : JS.Map Q) (unitId : string)
    : list (SearchResult ref) :=
  match JS.map_get (units i) unitId with
  | None => []
  | Some u =>
      let semanticScore :=
        match JS.map_get semanticScores unitId with Some x => x | None => 0%Q end in
      let lexicalScore :=
        match JS.map_get lexicalScores unitId with Some x => x | None => 0%Q end in
      let matchesConstraints :=
        match filter with
        | Some f => matchesFilter (h u) f
        | None => true
        end in
      let hybridScore :=
        Similarity.computeHybridScore semanticScore lexicalScore matchesConstraints
          (semanticWeight (config i)) (lexicalWeight (config i))
          (symbolicWeight (config i)) in
      [mk_result u hybridScore hybrid]
  end.

(** [hybridSearch] after the two layers have answered. *)
Definition hybrid_merge (h : Heap) (i : HybridIndex) (filter : option QueryFilter) (k : nat)
    (semanticResults : list (SearchResult ref))
    (keywordResults : list (SearchResult (option ref)))
    : result (list (SearchResult ref)) :=
  let maxBM25 := JS.max_with (List.map (@score _) keywordResults) 1%Q in
  let semanticScores :=
    fold_left (fun m r => JS.map_set m (id (h (unit r))) (score r))
      semanticResults ([] : JS.Map Q) in
  match lexical_scores h maxBM25 keywordResults [] with
  | Throw e => Throw e
  | Ok lexicalScores =>
      let allUnitIds :=
        JS.set_of_list (JS.map_keys semanticScores ++ JS.map_keys lexicalScores) in
      let hybridResults :=
        flat_map (hybrid_entry h i filter semanticScores lexicalScores) allUnitIds in
      Ok (JS.slice0 k (JS.sort by_score_desc hybridResults))
  end.

Definition hybridSearch (query : string) (filter : option QueryFilter) (topK : option nat)
    : M (list (SearchResult ref)) :=
  i0 <- get_index ;;
  let k := match topK with Some k => k | None => semanticTopK (config i0) end in
  layers <- promise_all2 (semanticSearch query (Some (k * 2)%nat))
                         (keywordSearch query (Some (k * 2)%nat)) ;;
  let '(semanticResults, keywordResults) := layers in
  h <- get_heap ;;
  i <- get_index ;;
  lift (hybrid_merge h i filter k semanticResults keywordResults).

Definition getAllUnits : M (list ref) :=
  i <- get_index ;;
  ret (JS.map_values (units i)).

Definition size : M nat :=
  i <- get_index ;;
  ret (List.length (units i)).

Definition clear : M Datatypes.unit :=
  i <- get_index ;;
  put_index {| units := [];
               bm25 := Similarity.new_BM25Scorer Similarity.default_params;
               config := config i;
               needsRebuild := false |}.

End Indexing.
End Indexing.

(* ========================================================================= *)
(** * stages/retrieval.ts *)
(* ========================================================================= *)

Record RetrievalConfig : Type := {
  baseK : nat;
  complexityDelta : Q;
  enablePlanning : bool;
  enableReflection : bool;
  maxReflectionRounds : nat
}.

Definition DEFAULT_RETRIEVAL_CONFIG : RetrievalConfig :=
  {| baseK := 3; complexityDelta := 2; enablePlanning := true;
     enableReflection := true; maxReflectionRounds := 2 |}.

Record QueryAnalysis : Type := {
  complexity : Complexity;
  rationale : string;
  lexicalKeywords : list string;
  temporalConstraints : option TimestampRange;
  semanticQuery : string
}.

(** Modelled from the spec: the declaration of [AbstractMemory] is not among
    the sources; [retrieve] only ever returns an empty list of them. *)
Record AbstractMemory : Type := {
  pattern : string;
  sourceUnits : list string
}.

Record RetrievalContext : Type := {
  abstracts : list AbstractMemory;
  ctx_units : list ref;
  totalTokens : nat;
  retrievalRationale : option string
}.

Module Retrieval.
Section Retrieval.

Variable rt : Runtime.
Variable co : Collaborators.
Variable rconfig : RetrievalConfig.

Local Open Scope js_scope.

Definition nl : string := String (ascii_of_nat 10) EmptyString.

Definition analyzeQuery_prompt (query : string) : string :=
  "Analyze the following user query and generate a retrieval plan. Your objective is to retrieve sufficient information while minimizing unnecessary context usage."
  ++ nl ++ nl ++ "USER QUERY:" ++ nl ++ query ++ nl ++ nl
  ++ "INSTRUCTIONS:" ++ nl
  ++ "1. Query Complexity Estimation:" ++ nl
  ++ "   - Assign " ++ JS.quoted "LOW"
  ++ " if the query can be answered via direct fact lookup or a single memory unit." ++ nl
  ++ "   - Assign " ++ JS.quoted "HIGH"
  ++ " if the query requires aggregation across multiple events, temporal comparison, or synthesis of patterns."
  ++ nl ++ nl
  ++ "2. Retrieval Signals:" ++ nl
  ++ "   - Lexical layer: extract exact keywords or entity names." ++ nl
  ++ "   - Temporal layer: infer absolute time ranges if relevant (use ISO 8601 format)." ++ nl
  ++ "   - Semantic layer: rewrite the query into a declarative form suitable for semantic matching."
  ++ nl ++ nl
  ++ "OUTPUT FORMAT (JSON):" ++ nl
  ++ "{" ++ nl
  ++ "  " ++ JS.quoted "complexity" ++ ": " ++ JS.quoted "HIGH" ++ "," ++ nl
  ++ "  " ++ JS.quoted "retrieval_rationale" ++ ": "
  ++ JS.quoted "The query requires reasoning over multiple temporally separated events."
  ++ "," ++ nl
  ++ "  " ++ JS.quoted "lexical_keywords" ++ ": [" ++ JS.quoted "Starbucks" ++ ", "
  ++ JS.quoted "Bob" ++ "]," ++ nl
  ++ "  " ++ JS.quoted "temporal_constraints" ++ ": {" ++ nl
  ++ "    " ++ JS.quoted "start" ++ ": " ++ JS.quoted "2025-11-01T00:00:00" ++ "," ++ nl
  ++ "    " ++ JS.quoted "end" ++ ": " ++ JS.quoted "2025-11-30T23:59:59" ++ nl
  ++ "  }," ++ nl
  ++ "  " ++ JS.quoted "semantic_query" ++ ": "
  ++ JS.quoted "The user is asking about the scheduled meeting with Bob, including location and time."
  ++ nl ++ "}" ++ nl ++ nl
  ++ "Return ONLY the JSON object.".

Definition analyzeQuery (query : string) : M QueryAnalysis :=
  let prompt := analyzeQuery_prompt query in
  try_catch
    (response <- llm_completeJSON (completeJSON_analysis co) prompt ;;
     ret {| complexity := resp_complexity response;
            rationale := retrieval_rationale response;
            lexicalKeywords := lexical_keywords response;
            temporalConstraints := temporal_constraints response;
            semanticQuery := semantic_query response |})
    (fun _ =>
       ret {| complexity := LOW;
              rationale := "Default analysis";
              lexicalKeywords :=
                filter (fun w => (3 <? String.length w)%nat) (JS.split_ws query);
              temporalConstraints := None;
              semanticQuery := query |}).

Definition checkAdequacy_prompt (query contextStr : string) : string :=
  "Given this query and the available context, determine if there is sufficient information to answer."
  ++ nl ++ nl ++ "Query: " ++ query ++ nl ++ nl
  ++ "Available Context:" ++ nl ++ contextStr ++ nl ++ nl
  ++ "Is this context sufficient? Reply with ONLY " ++ JS.quoted "yes" ++ " or "
  ++ JS.quoted "no" ++ ".".

Definition checkAdequacy (query : string) (contexts : list ref) : M bool :=
  if (List.length contexts =? 0)%nat then ret false
  else if (10 <=? List.length contexts)%nat then ret true
  else
    h <- get_heap ;;
    let contextStr :=
      JS.join nl (List.map (fun c => content (h c)) (JS.slice0 5 contexts)) in
    let prompt := checkAdequacy_prompt query contextStr in
    try_catch
      (response <- llm_complete co prompt (1 # 10) ;;
       ret (JS.includes (JS.toLowerCase response) "yes"))
      (fun _ => ret true).

Definition additionalQueries_prompt (originalQuery contextSummary : string) : string :=
  "Original query: " ++ originalQuery ++ nl ++ nl
  ++ "Current context available:" ++ nl ++ contextSummary ++ nl ++ nl
  ++ "What additional information might be needed? Generate 1-2 follow-up search queries that could help answer the original query. Return as JSON array of strings."
  ++ nl ++ nl
  ++ "Example: [" ++ JS.quoted "meeting time with Alice" ++ ", "
  ++ JS.quoted "location of the discussion" ++ "]".

(** [parsed.filter((q) => typeof q === "string")] *)
Fixpoint only_strings (l : list JS.json) : list string :=
  match l with
  | [] => []
  | JS.JString s :: l' => s :: only_strings l'
  | _ :: l' => only_strings l'
  end.

Definition JSON_parse_or_throw (s : string) : M JS.json :=
  match JSON_parse rt s with
  | Some v => ret v
  | None => throw SyntaxError
  end.

Definition generateAdditionalQueries (originalQuery : string) (currentContexts : list ref)
    : M (list string) :=
  h <- get_heap ;;
  let contextSummary :=
    JS.join nl (List.map (fun c => content (h c)) (JS.slice0 3 currentContexts)) in
  let prompt := additionalQueries_prompt originalQuery contextSummary in
  try_catch
    (response <- llm_complete co prompt (3 # 10) ;;
     let cleaned := JS.trim response in
     parsed <- JSON_parse_or_throw cleaned ;;
     match parsed with
     | JS.JArray l => ret (JS.slice0 2 (only_strings l))
     | _ => ret []
     end)
    (fun _ => ret []).

(** The loop over the results of one additional search. *)
Definition merge_unseen (h : Heap) (results : list (SearchResult ref))
    (acc : list ref * list string) : list ref * list string :=
  fold_left
    (fun (a : list ref * list string) r =>
       let '(allUnits, seenIds) := a in
       if negb (JS.mem (id (h (unit r))) seenIds)
       then (allUnits ++ [unit r], JS.set_add seenIds (id (h (unit r))))
       else (allUnits, seenIds))
    results acc.

(** The loop over [additionalQueries]. *)
Fixpoint additional_searches (queries : list string) (acc : list ref * list string)
    : M (list ref * list string) :=
  match queries with
  | [] => ret acc
  | q :: queries' =>
      results <- Indexing.hybridSearch rt co q None (Some 3%nat) ;;
      h <- get_heap ;;
      additional_searches queries' (merge_unseen h results acc)
  end.

(** The [for] loop of [reflectionSearch] with [rounds] iterations left.  Next
    to [allUnits] it returns how many iterations were entered. *)
Fixpoint reflection_loop (rounds : nat) (originalQuery : string)
    (allUnits : list ref) (seenIds : list string) (entered : nat) : M (list ref * nat) :=
  match rounds with
  | O => ret (allUnits, entered)
  | S rounds' =>
      isAdequate <- checkAdequacy originalQuery allUnits ;;
      if isAdequate : bool then ret (allUnits, S entered)
      else
        additionalQueries <- generateAdditionalQueries originalQuery allUnits ;;
        if (List.length additionalQueries =? 0)%nat then ret (allUnits, S entered)
        else
          acc <- additional_searches additionalQueries (allUnits, seenIds) ;;
          reflection_loop rounds' originalQuery (fst acc) (snd acc) (S entered)
  end.

Definition reflectionSearch (originalQuery : string) (initialResults : list ref)
    : M (list ref) :=
  h <- get_heap ;;
  let allUnits := initialResults in
  let seenIds := JS.set_of_list (List.map (fun u => id (h u)) initialResults) in
  out <- reflection_loop (maxReflectionRounds rconfig) originalQuery allUnits seenIds 0 ;;
  ret (fst out).

Definition estimateTokens (h : Heap) (us : list ref) : nat :=
  let totalChars :=
    fold_left
      (fun sum u =>
         (sum + String.length (content (h u))
          + match location (h u) with Some l => String.length l | None => 0 end
          + String.length (JS.join " " (persons (h u))))%nat)
      us 0%nat in
  ((totalChars + 3) / 4)%nat.

Definition retrieve (query : string) : M RetrievalContext :=
  planned <-
    (if enablePlanning rconfig then
       analysis <- analyzeQuery query ;;
       let has_bound :=
         match temporalConstraints analysis with
         | Some range => JS.truthy (range_start range) || JS.truthy (range_end range)
         | None => false
         end in
       let filter :=
         if has_bound then
           Some {| filter_persons := None; filter_entities := None;
                   timestampRange := temporalConstraints analysis;
                   filter_location := None; filter_topic := None |}
         else None in
       ret (Some analysis, filter)
     else ret (None, None)) ;;
  let '(analysis, filter) := planned in
  let is_high :=
    match analysis with
    | Some a => match complexity a with HIGH => true | LOW => false end
    | None => false
    end in
  let complexityScore := if is_high then 1%Q else 0%Q in
  let dynamicK :=
    Similarity.computeDynamicK (baseK rconfig) complexityScore (complexityDelta rconfig) in
  let searchQuery :=
    match analysis with Some a => semanticQuery a | None => query end in
  results <- Indexing.hybridSearch rt co searchQuery filter (Some dynamicK) ;;
  let initial := List.map (@unit _) results in
  allUnits <-
    (if enableReflection rconfig && is_high
     then reflectionSearch query initial
     else ret initial) ;;
  h <- get_heap ;;
  let totalTokens := estimateTokens h allUnits in
  ret {| abstracts := [];
         ctx_units := allUnits;
         totalTokens := totalTokens;
         retrievalRationale :=
           match analysis with Some a => Some (rationale a) | None => None end |}.

End Retrieval.
End Retrieval.

(** ** AnswerGenerator *)

Module AnswerGenerator.
Section AnswerGenerator.

Variable co : Collaborators.

Local Open Scope js_scope.

Definition nl : string := Retrieval.nl.

Definition INSUFFICIENT : string :=
  "I do not have enough information in my memory to answer this question.".

Definition show_nat (n : nat) : string :=
  DecimalString.NilEmpty.string_of_uint (Nat.to_uint n).

(** The block of one unit: the lines that are pushed, in order. *)
Definition format_unit (i : nat) (u : MemoryUnit) : string :=
  let lines :=
    [("[Context " ++ show_nat (i + 1) ++ "]")%string; ("Content: " ++ content u)%string]
    ++ (if JS.truthy (timestamp u)
        then [("Time: " ++ match timestamp u with Some t => t | None => "" end)%string]
        else [])
    ++ (if JS.truthy (location u)
        then [("Location: " ++ match location u with Some l => l | None => "" end)%string]
        else [])
    ++ (if (0 <? List.length (persons u))%nat
        then [("Persons: " ++ JS.join ", " (persons u))%string] else [])
    ++ (if (0 <? List.length (entities u))%nat
        then [("Entities: " ++ JS.join ", " (entities u))%string] else [])
    ++ (if JS.truthy (topic u)
        then [("Topic: " ++ match topic u with Some t => t | None => "" end)%string]
        else []) in
  JS.join nl lines.

Definition formatContext (h : Heap) (context : RetrievalContext) : string :=
  let parts := JS.mapi (fun u i => format_unit i (h u)) (ctx_units context) in
  JS.join (nl ++ nl) parts.

Definition buildPrompt (query contextStr : string) : string :=
  "Answer the user's question based on the provided context." ++ nl ++ nl
  ++ "User Question: " ++ query ++ nl ++ nl
  ++ "Relevant Context:" ++ nl ++ contextStr ++ nl ++ nl
  ++ "Requirements:" ++ nl
  ++ "1. First, think through the reasoning process" ++ nl
  ++ "2. Then provide a very CONCISE answer (short phrase about core information)" ++ nl
  ++ "3. Answer must be based ONLY on the provided context" ++ nl
  ++ "4. All dates in the response must be formatted as 'DD Month YYYY' when appropriate" ++ nl
  ++ "5. Return your response in JSON format" ++ nl ++ nl
  ++ "Output Format:" ++ nl
  ++ "{" ++ nl
  ++ "  " ++ JS.quoted "reasoning" ++ ": "
  ++ JS.quoted "Brief explanation of your thought process" ++ "," ++ nl
  ++ "  " ++ JS.quoted "answer" ++ ": " ++ JS.quoted "Concise answer in a short phrase" ++ nl
  ++ "}" ++ nl ++ nl
  ++ "Example:" ++ nl
  ++ "Question: " ++ JS.quoted "When will they meet?" ++ nl
  ++ "Context: " ++ JS.quoted "Alice suggested meeting Bob at 2025-11-16T14:00:00..." ++ nl ++ nl
  ++ "Output:" ++ nl
  ++ "{" ++ nl
  ++ "  " ++ JS.quoted "reasoning" ++ ": "
  ++ JS.quoted "The context explicitly states the meeting time as 2025-11-16T14:00:00"
  ++ "," ++ nl
  ++ "  " ++ JS.quoted "answer" ++ ": " ++ JS.quoted "16 November 2025 at 2:00 PM" ++ nl
  ++ "}" ++ nl ++ nl
  ++ "Return ONLY the JSON, no other text.".

Definition generate (query : string) (context : RetrievalContext) : M string :=
  if (List.length (ctx_units context) =? 0)%nat then ret INSUFFICIENT
  else
    h <- get_heap ;;
    let contextStr := formatContext h context in
    let prompt := buildPrompt query contextStr in
    try_catch
      (response <- llm_completeJSON (completeJSON_answer co) prompt ;;
       ret (answer response))
      (fun _ =>
         response <- llm_complete co prompt (1 # 10) ;;
         ret response).

End AnswerGenerator.
End AnswerGenerator.

(* ========================================================================= *)
(** * hybridSearch on binary64 numbers *)
(* ========================================================================= *)

(** [computeHybridScore] and the part of [hybridSearch] that follows the two
    layer searches, with scores and weights as IEEE 754 binary64 numbers, the
    numbers of JavaScript: every product, quotient, sum and difference is
    rounded to the nearest.  The results of the two layers are given. *)
Module Binary64.

Set Warnings "-inexact-float".

Record SearchResult (U : Type) : Type := {
  unit : U;
  score : float;
  matchType : MatchType
}.

(** The three weights that [hybridSearch] reads from the configuration. *)
Record Weights : Type := {
  semanticWeight : float;
  lexicalWeight : float;
  symbolicWeight : float
}.

(** The weights of [DEFAULT_INDEXING_CONFIG]: the binary64 numbers nearest to
    0.6, 0.3 and 0.1. *)
Definition DEFAULT_WEIGHTS : Weights :=
  {| semanticWeight := 0.6; lexicalWeight := 0.3; symbolicWeight := 0.1 |}.

Definition computeHybridScore
    (semanticScore lexicalScore : float) (matchesConstraints : bool)
    (alpha beta gamma : float) : float :=
  let symbolicBonus := if matchesConstraints then gamma else 0%float in
  (alpha * semanticScore + beta * lexicalScore + symbolicBonus)%float.

(** [Math.max(...l, d)]: NaN as soon as an argument is NaN.  The sign of a
    zero result is not modelled; with [d = 1], as [hybridSearch] calls it, the
    result is never zero. *)
Definition max_with (l : list float) (d : float) : float :=
  fold_left
    (fun m x => if is_nan m || is_nan x then nan else if (m <? x)%float then x else m)
    l d.

(** [l.sort(cmp)], as [JS.sort]: [cmp a b > 0] puts [b] before [a], and a
    consistent comparator gives the stable sort. *)
Fixpoint sort_insert {A} (cmp : A -> A -> float) (x : A) (l : list A) : list A :=
  match l with
  | [] => [x]
  | y :: l' => if (0 <? cmp x y)%float then y :: sort_insert cmp x l' else x :: l
  end.

Definition sort {A} (cmp : A -> A -> float) (l : list A) : list A :=
  fold_right (sort_insert cmp) [] l.

Definition by_score_desc {U} (a b0 : SearchResult U) : float := (score b0 - score a)%float.

Section Merge.

Variable rt : Runtime.
Variable h : Heap.

(** The unit map of the index and its weights. *)
Variable us : JS.Map ref.
Variable weights : Weights.

(** The loop [lexicalScores.set(r.unit.id, r.score / maxBM25)]; reading [id] of
    an undefined unit throws. *)
Fixpoint lexical_scores (maxBM25 : float)
    (rs : list (SearchResult (option ref))) (m : JS.Map float) : result (JS.Map float) :=
  match rs with
  | [] => Ok m
  | r :: rs' =>
      match unit r with
      | Some u => lexical_scores maxBM25 rs' (JS.map_set m (id (h u)) (score r / maxBM25)%float)
      | None => Throw TypeError
      end
  end.

(** The body of the loop over [allUnitIds]. *)
Definition hybrid_entry (filter : option QueryFilter)
    (semanticScores lexicalScores : JS.Map float) (unitId : string)
    : list (SearchResult ref) :=
  match JS.map_get us unitId with
  | None => []
  | Some u =>
      let semanticScore :=
        match JS.map_get semanticScores unitId with Some x => x | None => 0%float end in
      let lexicalScore :=
        match JS.map_get lexicalScores unitId with Some x => x | None => 0%float end in
      let matchesConstraints :=
        match filter with
        | Some f => Indexing.matchesFilter rt (h u) f
        | None => true
        end in
      let hybridScore :=
        computeHybridScore semanticScore lexicalScore matchesConstraints
          (semanticWeight weights) (lexicalWeight weights) (symbolicWeight weights) in
      [{| unit := u; score := hybridScore; matchType := hybrid |}]
  end.

(** [hybridSearch] after the two layers have answered. *)
Definition hybrid_merge (filter : option QueryFilter) (k : nat)
    (semanticResults : list (SearchResult ref))
    (keywordResults : list (SearchResult (option ref)))
    : result (list (SearchResult ref)) :=
  let maxBM25 := max_with (List.map (@score _) keywordResults) 1%float in
  let semanticScores :=
    fold_left (fun m r => JS.map_set m (id (h (unit r))) (score r))
      semanticResults ([] : JS.Map float) in
  match lexical_scores maxBM25 keywordResults [] with
  | Throw e => Throw e
  | Ok lexicalScores =>
      let allUnitIds :=
        JS.set_of_list (JS.map_keys semanticScores ++ JS.map_keys lexicalScores) in
      let hybridResults :=
        flat_map (hybrid_entry filter semanticScores lexicalScores) allUnitIds in
      Ok (JS.slice0 k (sort by_score_desc hybridResults))
  end.

End Merge.
End Binary64.

(* ========================================================================= *)
(** * storage/memory.ts *)
(* ========================================================================= *)

Module Storage.

(** Modelled from the spec: an [AbstractMemory] with the [id] it is filed
    under. *)
Record Abstract : Type := {
  abstract_id : string;
  abstract_body : AbstractMemory
}.

Record ExportData : Type := {
  data_units : list ref;
  data_abstracts : list Abstract;
  version : string;
  exportedAt : string
}.

(** The fields of a [MemoryStorage] instance. *)
Record MemoryStorage : Type := {
  units : JS.Map ref;
  abstracts : JS.Map Abstract
}.

Definition new_MemoryStorage : MemoryStorage := {| units := []; abstracts := [] |}.

Section Storage.

Variable rt : Runtime.

(** The objects; the storage reads their [id], and their fields in
    [matchesFilter]. *)
Variable h : Heap.

Definition saveUnit (u : ref) (st : MemoryStorage) : MemoryStorage :=
  {| units := JS.map_set (units st) (id (h u)) u; abstracts := abstracts st |}.

Definition saveUnits (us : list ref) (st : MemoryStorage) : MemoryStorage :=
  fold_left (fun st' u => saveUnit u st') us st.

(** [this.units.get(id) ?? null] *)
Definition getUnit (unit_id : string) (st : MemoryStorage) : option ref :=
  JS.map_get (units st) unit_id.

Definition getAllUnits (st : MemoryStorage) : list ref := JS.map_values (units st).

Definition matchesFilter (u : MemoryUnit) (filter : QueryFilter) : bool :=
  if match filter_persons filter with
     | Some ps =>
         (0 <? List.length ps)%nat
         && negb (existsb
                    (fun person =>
                       existsb
                         (fun p => JS.includes (JS.toLowerCase p) (JS.toLowerCase person))
                         (persons u))
                    ps)
     | None => false
     end
  then false
  else if match filter_entities filter with
          | Some es =>
              (0 <? List.length es)%nat
              && negb (existsb
                         (fun entity =>
                            existsb
                              (fun e => JS.includes (JS.toLowerCase e) (JS.toLowerCase entity))
                              (entities u))
                         es)
          | None => false
          end
  then false
  else if match timestampRange filter, timestamp u with
          | Some range, Some ts =>
              JS.truthy (Some ts)
              && match range_start range, range_end range with
                 | Some start, Some end_ =>
                     JS.truthy (Some start) && JS.truthy (Some end_)
                     && negb (Temporal.isWithinRange rt ts start end_)
                 | _, _ => false
                 end
          | _, _ => false
          end
  then false
  else if match filter_location filter, location u with
          | Some fl, Some ul =>
              JS.truthy (Some fl) && JS.truthy (Some ul)
              && negb (JS.includes (JS.toLowerCase ul) (JS.toLowerCase fl))
          | _, _ => false
          end
  then false
  else if match filter_topic filter, topic u with
          | Some ft, Some ut =>
              JS.truthy (Some ft) && JS.truthy (Some ut)
              && negb (JS.includes (JS.toLowerCase ut) (JS.toLowerCase ft))
          | _, _ => false
          end
  then false
  else true.

Definition queryUnits (filter0 : QueryFilter) (st : MemoryStorage) : list ref :=
  filter (fun u => matchesFilter (h u) filter0) (JS.map_values (units st)).

Definition deleteUnit (unit_id : string) (st : MemoryStorage) : MemoryStorage :=
  {| units := JS.map_delete (units st) unit_id; abstracts := abstracts st |}.

Definition saveAbstract (a : Abstract) (st : MemoryStorage) : MemoryStorage :=
  {| units := units st; abstracts := JS.map_set (abstracts st) (abstract_id a) a |}.

Definition getAllAbstracts (st : MemoryStorage) : list Abstract :=
  JS.map_values (abstracts st).

Definition clear (st : MemoryStorage) : MemoryStorage := {| units := []; abstracts := [] |}.

(** [export()]; [now] is what [new Date().toISOString()] gives. *)
Definition export (now : string) (st : MemoryStorage) : ExportData :=
  {| data_units := JS.map_values (units st);
     data_abstracts := JS.map_values (abstracts st);
     version := "1.0.0";
     exportedAt := now |}.

Definition import (data : ExportData) (st : MemoryStorage) : MemoryStorage :=
  let st1 := fold_left (fun st' u => saveUnit u st') (data_units data) st in
  fold_left (fun st' a => saveAbstract a st') (data_abstracts data) st1.

End Storage.
End Storage.

(* ========================================================================= *)
(** * SimpleMem: the orchestrator of the three stages *)
(* ========================================================================= *)

Module SimpleMem.

(** Modelled from the spec: the declaration of [SearchOptions] is not among
    the sources; [search] reads these three optional fields. *)
Record SearchOptions : Type := {
  options_filter : option QueryFilter;
  limit : option nat;
  includeEmbeddings : option bool
}.

(** The fields of a [SimpleMem] instance that the methods below read or write:
    the storage adapter, the flag, and the index with the objects and the log
    of the calls to the collaborators. *)
Record SimpleMem : Type := {
  storage : Storage.MemoryStorage;
  initialized : bool;
  world : World
}.

(** An asynchronous method of the orchestrator. *)
Definition S (A : Type) : Type := SimpleMem -> result A * SimpleMem.

Definition retS {A} (a : A) : S A := fun m => (Ok a, m).

Definition bindS {A B} (c : S A) (f : A -> S B) : S B :=
  fun m =>
    match c m with
    | (Ok a, m') => f a m'
    | (Throw e, m') => (Throw e, m')
    end.

(** A method of the index, the retriever or the generator, run on the state
    they share. *)
Definition on_index {A} (c : M A) : S A :=
  fun m =>
    let '(r, w') := c (world m) in
    (r, {| storage := storage m; initialized := initialized m; world := w' |}).

Definition get_storage : S Storage.MemoryStorage := fun m => (Ok (storage m), m).

Definition put_storage (st : Storage.MemoryStorage) : S Datatypes.unit :=
  fun m => (Ok tt, {| storage := st; initialized := initialized m; world := world m |}).

Definition get_initialized : S bool := fun m => (Ok (initialized m), m).

Definition set_initialized (b : bool) : S Datatypes.unit :=
  fun m => (Ok tt, {| storage := storage m; initialized := b; world := world m |}).

Declare Scope mem_scope.
Delimit Scope mem_scope with mem.
Notation "x <- c ;; k" := (bindS c (fun x => k))
  (at level 100, c at next level, right associativity) : mem_scope.
Notation "c ;;; k" := (bindS c (fun _ => k))
  (at level 100, right associativity) : mem_scope.

(** [new SimpleMem(options)] with the objects [h]: [st] is [options.storage],
    [cfg] the indexing configuration. *)
Definition new_SimpleMem (h : Heap) (st : option Storage.MemoryStorage) (cfg : IndexingConfig)
    : SimpleMem :=
  {| storage := match st with Some st' => st' | None => Storage.new_MemoryStorage end;
     initialized := false;
     world := {| heap := h; index := new_HybridIndex cfg; history := [] |} |}.

Section SimpleMem.

Variable rt : Runtime.
Variable co : Collaborators.
Variable rconfig : RetrievalConfig.

Local Open Scope mem_scope.

Definition initialize : S Datatypes.unit :=
  init <- get_initialized ;;
  if init : bool then retS tt
  else
    st <- get_storage ;;
    let units := Storage.getAllUnits st in
    (if (0 <? List.length units)%nat then
       on_index (Indexing.addUnits co units) ;;;
       on_index (Indexing.rebuildLexicalIndex rt)
     else retS tt) ;;;
    set_initialized true.

Definition ask (question : string) : S string :=
  initialize ;;;
  context <- on_index (Retrieval.retrieve rt co rconfig question) ;;
  on_index (AnswerGenerator.generate co question context).

(** [{ ...r.unit }], without its [embedding] unless [includeEmbeddings]. *)
Definition copy_unit (options : option SearchOptions) (u : MemoryUnit) : MemoryUnit :=
  let include :=
    match options with
    | Some o => match includeEmbeddings o with Some b0 => b0 | None => false end
    | None => false
    end in
  if negb include then
    {| id := id u; content := content u; keywords := keywords u;
       persons := persons u; entities := entities u; timestamp := timestamp u;
       location := location u; topic := topic u; salience := salience u;
       embedding := None |}
  else u.

Definition search (query : string) (options : option SearchOptions) : S (list MemoryUnit) :=
  initialize ;;;
  results <- on_index
               (Indexing.hybridSearch rt co query
                  match options with Some o => options_filter o | None => None end
                  match options with Some o => limit o | None => None end) ;;
  h <- on_index get_heap ;;
  retS (List.map (fun r => copy_unit options (h (unit r))) results).

Definition getContext (query : string) : S RetrievalContext :=
  initialize ;;;
  on_index (Retrieval.retrieve rt co rconfig query).

Definition getAllMemories : S (list ref) :=
  st <- get_storage ;;
  retS (Storage.getAllUnits st).

Definition getMemoryCount : S nat :=
  st <- get_storage ;;
  let units := Storage.getAllUnits st in
  retS (List.length units).

Definition export (now : string) : S Storage.ExportData :=
  st <- get_storage ;;
  retS (Storage.export now st).

Definition import (data : Storage.ExportData) : S Datatypes.unit :=
  st <- get_storage ;;
  h <- on_index get_heap ;;
  put_storage (Storage.import h data st) ;;;
  on_index (Indexing.addUnits co (Storage.data_units data)) ;;;
  on_index (Indexing.rebuildLexicalIndex rt) ;;;
  set_initialized true.

Definition saveAndIndexUnits (units : list ref) : S Datatypes.unit :=
  if (List.length units =? 0)%nat then retS tt
  else
    st <- get_storage ;;
    h <- on_index get_heap ;;
    put_storage (Storage.saveUnits h units st) ;;;
    on_index (Indexing.addUnits co units).

End SimpleMem.
End SimpleMem.

(* ========================================================================= *)
(** * stages/compression.ts: the dialogue buffer of MemoryBuilder *)
(* ========================================================================= *)

Module Compression.

(** [windowSize] and [overlapSize] are integers. *)
Record CompressionConfig : Type := {
  windowSize : Z;
  overlapSize : Z;
  redundancyThreshold : Q;
  entityWeight : Q
}.

Definition DEFAULT_COMPRESSION_CONFIG : CompressionConfig :=
  {| windowSize := 40; overlapSize := 2; redundancyThreshold := 3 # 10;
     entityWeight := 1 # 2 |}.

(** A dialogue, with the fields [SimpleMem.addDialogue] sets; [MemoryBuilder]
    tests whether [timestamp] is there. *)
Record Dialogue : Type := {
  id : Z;
  speaker : string;
  content : string;
  timestamp : option string
}.

(** The fields of a [MemoryBuilder] instance (the LLM and the embedding
    provider are collaborators). *)
Record MemoryBuilder : Type := {
  config : CompressionConfig;
  dialogueBuffer : list Dialogue;
  processedDialogueIds : list Z;
  previousWindowEmbedding : option vec;
  previousEntities : list string;
  windowCounter : nat
}.

(** [new MemoryBuilder(llm, embeddings, config)] *)
Definition new_MemoryBuilder (cfg : CompressionConfig) : MemoryBuilder :=
  {| config := cfg; dialogueBuffer := []; processedDialogueIds := [];
     previousWindowEmbedding := None; previousEntities := []; windowCounter := 0 |}.

(** [Set<number>]: [has] and [add]. *)
Definition has (s : list Z) (x : Z) : bool := existsb (Z.eqb x) s.

Definition add (s : list Z) (x : Z) : list Z := if has s x then s else s ++ [x].

Definition with_buffer (b : MemoryBuilder) (buffer : list Dialogue) (processed : list Z)
    : MemoryBuilder :=
  {| config := config b; dialogueBuffer := buffer; processedDialogueIds := processed;
     previousWindowEmbedding := previousWindowEmbedding b;
     previousEntities := previousEntities b; windowCounter := windowCounter b |}.

Definition addDialogue (dialogue : Dialogue) (b : MemoryBuilder) : MemoryBuilder :=
  if negb (has (processedDialogueIds b) (id dialogue))
  then with_buffer b (dialogueBuffer b ++ [dialogue]) (processedDialogueIds b)
  else b.

Definition addDialogues (dialogues : list Dialogue) (b : MemoryBuilder) : MemoryBuilder :=
  fold_left (fun b' d => addDialogue d b') dialogues b.

Definition hasFullWindow (b : MemoryBuilder) : bool :=
  (windowSize (config b) <=? Z.of_nat (List.length (dialogueBuffer b)))%Z.

(** [extractWindow()]: the window, and the builder it leaves. *)
Definition extractWindow (b : MemoryBuilder) : list Dialogue * MemoryBuilder :=
  let window := JS.slice 0 (windowSize (config b)) (dialogueBuffer b) in
  let stride := (windowSize (config b) - overlapSize (config b))%Z in
  let consumed := JS.slice 0 stride (dialogueBuffer b) in
  (window,
   with_buffer b (JS.slice_from stride (dialogueBuffer b))
     (fold_left (fun s d => add s (id d)) consumed (processedDialogueIds b))).

(** [reset()] *)
Definition reset (b : MemoryBuilder) : MemoryBuilder :=
  {| config := config b; dialogueBuffer := []; processedDialogueIds := [];
     previousWindowEmbedding := None; previousEntities := []; windowCounter := 0 |}.

End Compression.

(* ========================================================================= *)
(** * Concrete collaborators and units for the examples *)
(* ========================================================================= *)

Module Fixtures.

(** A runtime for running examples: [Math.sqrt] is exact on 0 and 1 (the
    example vectors are unit vectors along an axis), [Math.log x] is replaced
    by [x - 1], which has the sign of the logarithm, no date is valid, and
    [JSON.parse] knows one array. *)
Definition one_query : string := "[" ++ JS.quoted "report" ++ "]".

Definition rt0 : Runtime :=
  {| Math_log := fun x => (x - 1)%Q;
     Math_sqrt := fun x => x;
     dayjs := fun _ => None;
     JSON_parse := fun s =>
       if String.eqb s one_query then Some (JS.JArray [JS.JString "report"]) else None |}.

Definition mk_unit (i c : string) (ts : option string) (e : option vec) : MemoryUnit :=
  {| id := i; content := c; keywords := []; persons := []; entities := [];
     timestamp := ts; location := None; topic := None; salience := medium;
     embedding := e |}.

(** Objects 0 and 1 carry an embedding, the others do not; objects 2 and 3
    share their id. *)
Definition e_x : vec := [1; 0]%Q.
Definition e_y : vec := [0; 1]%Q.

Definition heap0 : Heap :=
  fun r =>
    match r with
    | 0%nat =>
        mk_unit "u0" "Alice meets Bob at Starbucks" (Some "2025-11-16T14:00:00") (Some e_x)
    | 1%nat => mk_unit "u1" "Bob brings a report" None (Some e_y)
    | 2%nat => mk_unit "u2" "Sarah got promoted" None None
    | 3%nat => mk_unit "u2" "Sarah moved to Paris" None None
    | _ => mk_unit "u4" "Carol signed the lease" None None
    end.

Definition world0 : World :=
  {| heap := heap0; index := new_HybridIndex DEFAULT_INDEXING_CONFIG; history := [] |}.

Definition silent_llm : list event -> string -> Q -> reply string :=
  fun _ _ _ => Rejects "llm down".

(** An embedding provider that is down. *)
Definition co_down : Collaborators :=
  {| embed_reply := fun _ _ => Rejects "embeddings down";
     complete_reply := silent_llm;
     completeJSON_analysis := fun _ _ => Rejects "llm down";
     completeJSON_answer := fun _ _ => Rejects "llm down" |}.

(** An embedding provider that answers every text with the same unit vector,
    and an LLM that is down. *)
Definition co_embed : Collaborators :=
  {| embed_reply := fun _ texts => Resolves (List.map (fun _ => e_x) texts);
     complete_reply := silent_llm;
     completeJSON_analysis := fun _ _ => Rejects "llm down";
     completeJSON_answer := fun _ _ => Rejects "llm down" |}.

(** An embedding provider that returns a vector for the first text only. *)
Definition co_short : Collaborators :=
  {| embed_reply := fun _ texts => Resolves (firstn 1 (List.map (fun _ => e_x) texts));
     complete_reply := silent_llm;
     completeJSON_analysis := fun _ _ => Rejects "llm down";
     completeJSON_answer := fun _ _ => Rejects "llm down" |}.

(** An LLM that finds every context inadequate and always proposes the same
    follow-up query; it classifies every query as HIGH. *)
Definition co_inadequate : Collaborators :=
  {| embed_reply := fun _ texts => Resolves (List.map (fun _ => e_x) texts);
     complete_reply := fun _ _ t =>
       if Qeq_bool t (1 # 10) then Resolves "no" else Resolves one_query;
     completeJSON_analysis := fun _ q =>
       Resolves {| resp_complexity := HIGH; retrieval_rationale := "needs several events";
                   lexical_keywords := []; temporal_constraints := None;
                   semantic_query := "report" |};
     completeJSON_answer := fun _ _ => Rejects "llm down" |}.

(** An LLM that finds every context inadequate and then answers the request
    for follow-up queries with prose. *)
Definition co_prose : Collaborators :=
  {| embed_reply := fun _ texts => Resolves (List.map (fun _ => e_x) texts);
     complete_reply := fun _ _ t =>
       if Qeq_bool t (1 # 10) then Resolves "no" else Resolves "I am not sure.";
     completeJSON_analysis := fun _ _ => Rejects "llm down";
     completeJSON_answer := fun _ _ => Rejects "llm down" |}.

(** The index after [addUnits] of objects 0, 1, 2 and 4: with the provider
    [co_embed] every unit is embedded, with [co_short] object 4 is left without
    an embedding. *)
Definition world_embedded : World :=
  snd (Indexing.addUnits co_embed [0; 1; 2; 4] world0).

Definition world_short : World :=
  snd (Indexing.addUnits co_short [0; 1; 2; 4] world0).

Definition range_only : QueryFilter :=
  {| filter_persons := None; filter_entities := None;
     timestampRange := Some {| range_start := Some "2025-11-01T00:00:00";
                               range_end := Some "2025-11-30T23:59:59" |};
     filter_location := None; filter_topic := None |}.

(** Two candidates whose scores without the symbolic term differ in the last
    place: what the two layers return for the query "lease" with the embedding
    [1, 0, 0, 0] on an index of a unit "tea" with the embedding [4, 4, 4, 1]
    and a unit with five times "lease" and the embedding [1, 13, 5, 1].  The
    cosines are 4 / 7 and 1 / 14; the second unit alone has a BM25 score,
    above 1. *)
Definition close_units : JS.Map ref := [("u0", 0); ("u1", 1)].

Definition close_semantic : list (Binary64.SearchResult ref) :=
  [ {| Binary64.unit := 0; Binary64.score := (4 / 7)%float;
       Binary64.matchType := semantic |};
    {| Binary64.unit := 1; Binary64.score := (1 / 14)%float;
       Binary64.matchType := semantic |} ].

Definition close_keyword : list (Binary64.SearchResult (option ref)) :=
  [ {| Binary64.unit := Some 1; Binary64.score := 0x1.1f0b6301d3663p+0%float;
       Binary64.matchType := lexical |} ].

End Fixtures.

(* ========================================================================= *)
(** * Vocabulary of the properties *)
(* ========================================================================= *)

(** The units of a batch that get an embedding request, and the texts sent. *)
Definition needing (h : Heap) (batch : list ref) : list ref :=
  filter (fun r => negb (Indexing.has_embedding (h r))) batch.

(** The [content] of each unit of a list. *)
Definition texts_of (h : Heap) (rs : list ref) : list string :=
  List.map (fun r => content (h r)) rs.

(** The comparator [(a, b) => key(b) - key(a)]. *)
Definition desc_cmp {A} (key : A -> Q) (a b0 : A) : Q := (key b0 - key a)%Q.

(** [a] may stand before [b]. *)
Definition before {A} (key : A -> Q) (a b0 : A) : Prop := (key b0 <= key a)%Q.

(** The scores of a result list never increase from one place to the next or
    to any later one. *)
Definition non_increasing {U} (l : list (SearchResult U)) : Prop :=
  StronglySorted (fun a b0 => (score b0 <= score a)%Q) l.

(** The same index with the symbolic weight set to [g]. *)
Definition set_symbolicWeight (g : Q) (i : HybridIndex) : HybridIndex :=
  {| units := units i; bm25 := bm25 i;
     config := {| semanticTopK := semanticTopK (config i);
                  keywordTopK := keywordTopK (config i);
                  structuredTopK := structuredTopK (config i);
                  semanticWeight := semanticWeight (config i);
                  lexicalWeight := lexicalWeight (config i);
                  symbolicWeight := g |};
     needsRebuild := needsRebuild i |}.

(** The same state with the symbolic term taken out of the score. *)
Definition without_symbolic_term (w : World) : World :=
  {| heap := heap w; index := set_symbolicWeight 0 (index w); history := history w |}.

(** Two result lists name the same units in the same order, and each score of
    the first is the score of the second plus [g]. *)
Definition same_ranking_shifted (g : Q) (res res0 : list (SearchResult ref)) : Prop :=
  Forall2 (fun r r0 => unit r = unit r0 /\ (score r == score r0 + g)%Q) res res0.

(** [m.get(t) ?? 0] *)
Definition get_or_0 (m : JS.Map nat) (t : string) : nat :=
  match JS.map_get m t with Some n => n | None => 0 end.

(** A scorer made by [new BM25Scorer()] and then indexed any number of times. *)
Definition default_scorer (rt : Runtime) (corpora : list (list string))
    : Similarity.BM25Scorer :=
  fold_left (Similarity.addDocuments rt) corpora
    (Similarity.new_BM25Scorer Similarity.default_params).

(** Every entry of the map is filed under the id of its unit. *)
Definition keys_match (h : Heap) (m : JS.Map ref) : Prop :=
  Forall (fun e : string * ref => id (h (snd e)) = fst e) m.

(** The exposed surface of the index, and the state it leaves. *)
Inductive call : Type :=
| AddUnits (batch : list ref)
| RemoveUnit (unit_id : string)
| Clear
| RebuildLexicalIndex
| SemanticSearch (query : string) (topK : option nat)
| KeywordSearch (query : string) (topK : option nat)
| StructuredSearch (filter : QueryFilter) (topK : option nat)
| HybridSearch (query : string) (filter : option QueryFilter) (topK : option nat)
| GetAllUnits
| Size.

Definition after (rt : Runtime) (co : Collaborators) (c : call) (w : World) : World :=
  match c with
  | AddUnits batch => snd (Indexing.addUnits co batch w)
  | RemoveUnit unit_id => snd (Indexing.removeUnit unit_id w)
  | Clear => snd (Indexing.clear w)
  | RebuildLexicalIndex => snd (Indexing.rebuildLexicalIndex rt w)
  | SemanticSearch query topK => snd (Indexing.semanticSearch rt co query topK w)
  | KeywordSearch query topK => snd (Indexing.keywordSearch rt query topK w)
  | StructuredSearch filter topK => snd (Indexing.structuredSearch rt filter topK w)
  | HybridSearch query filter topK => snd (Indexing.hybridSearch rt co query filter topK w)
  | GetAllUnits => snd (Indexing.getAllUnits w)
  | Size => snd (Indexing.size w)
  end.

(** The states of an index from its construction on. *)
Inductive reachable (rt : Runtime) (co : Collaborators) : World -> Prop :=
| reach_new (h : Heap) (cfg : IndexingConfig) :
    reachable rt co {| heap := h; index := new_HybridIndex cfg; history := [] |}
| reach_call (w : World) (c : call) :
    reachable rt co w -> reachable rt co (after rt co c w).

(** The invariant of the unit map: entries are filed under their unit's id and
    no key occurs twice. *)
Definition index_wf (w : World) : Prop :=
  keys_match (heap w) (units (index w)) /\ NoDup (JS.map_keys (units (index w))).

(** The same state with the units that carry no embedding taken out of the
    index. *)
Definition drop_unembedded (w : World) : World :=
  {| heap := heap w;
     index := Indexing.with_units (index w)
                (filter (fun e : string * ref => Indexing.has_embedding (heap w (snd e)))
                   (units (index w)))
                (needsRebuild (index w));
     history := history w |}.

(** The unit of a result carries an embedding. *)
Definition embedded (h : Heap) (r : SearchResult ref) : Prop :=
  embedding (h (unit r)) <> None.

(** [c] makes at most [n] calls to the LLM, however it ends. *)
Definition calls_at_most {A} (n : nat) (c : M A) : Prop :=
  forall w, oracle_calls (history (snd (c w))) <= oracle_calls (history w) + n.

(** [c] can only throw errors that satisfy [P]. *)
Definition throws_only {A} (P : error -> Prop) (c : M A) : Prop :=
  forall w e, fst (c w) = Throw e -> P e.

(** The errors of the index: a failed embedding call, or a malformed vector
    or result.  None of them comes from the LLM. *)
Definition index_error (e : error) : Prop :=
  match e with
  | EmbeddingError _ | DimensionMismatch _ _ | TypeError => True
  | OracleError _ | SyntaxError => False
  end.

(** The default configuration with a single reflection round. *)
Definition one_round : RetrievalConfig :=
  {| baseK := 3; complexityDelta := 2; enablePlanning := true;
     enableReflection := true; maxReflectionRounds := 1 |}.

(** The prompts of the adequacy check and of the request for follow-up
    queries, for the units held. *)
Definition adequacy_prompt (h : Heap) (query : string) (contexts : list ref) : string :=
  Retrieval.checkAdequacy_prompt query
    (JS.join Retrieval.nl (List.map (fun c => content (h c)) (JS.slice0 5 contexts))).

Definition proposal_prompt (h : Heap) (query : string) (contexts : list ref) : string :=
  Retrieval.additionalQueries_prompt query
    (JS.join Retrieval.nl (List.map (fun c => content (h c)) (JS.slice0 3 contexts))).

(** The LLM fails to propose: it rejects, or what it returns does not parse. *)
Definition proposal_fails (rt : Runtime) (co : Collaborators)
    (w : World) (query : string) (contexts : list ref) : Prop :=
  (exists msg,
      complete_reply co (history w) (proposal_prompt (heap w) query contexts) (3 # 10)
      = Rejects msg)
  \/ (exists s,
         complete_reply co (history w) (proposal_prompt (heap w) query contexts) (3 # 10)
         = Resolves s
         /\ JSON_parse rt (JS.trim s) = None).

(** The document frequencies that [addDocuments] builds. *)
Definition docFreq_of (documents : list (list string)) (df : JS.Map nat) : JS.Map nat :=
  fold_left (fun df doc => fold_left Similarity.count_into (JS.set_of_list doc) df)
    documents df.

(** The loop [this.idf.set(term, f(df))] over the entries of [docFreq]. *)
Definition idf_fold (f : nat -> Q) (entries : JS.Map nat) (m : JS.Map Q) : JS.Map Q :=
  fold_left (fun m (e : string * nat) => let '(term, df) := e in JS.map_set m term (f df))
    entries m.

(** A filter and a unit with the strings that [matchesFilter] compares put in
    lower case. *)
Definition lower_filter (f : QueryFilter) : QueryFilter :=
  {| filter_persons := option_map (List.map JS.toLowerCase) (filter_persons f);
     filter_entities := option_map (List.map JS.toLowerCase) (filter_entities f);
     timestampRange := timestampRange f;
     filter_location := option_map JS.toLowerCase (filter_location f);
     filter_topic := option_map JS.toLowerCase (filter_topic f) |}.

Definition lower_unit (u : MemoryUnit) : MemoryUnit :=
  {| id := id u; content := content u; keywords := keywords u;
     persons := List.map JS.toLowerCase (persons u);
     entities := List.map JS.toLowerCase (entities u);
     timestamp := timestamp u;
     location := option_map JS.toLowerCase (location u);
     topic := option_map JS.toLowerCase (topic u);
     salience := salience u; embedding := embedding u |}.

(** A filter whose fields are all set, to values that constrain nothing: empty
    lists, empty strings, and the given range. *)
Definition hollow_filter (range : TimestampRange) : QueryFilter :=
  {| filter_persons := Some []; filter_entities := Some [];
     timestampRange := Some range;
     filter_location := Some ""; filter_topic := Some "" |}.

(** The filter with no field set. *)
Definition no_filter : QueryFilter :=
  {| filter_persons := None; filter_entities := None; timestampRange := None;
     filter_location := None; filter_topic := None |}.

(** When the lexical index is not marked dirty, it holds one document per
    unit of the index. *)
Definition aligned (w : World) : Prop :=
  needsRebuild (index w) = false ->
  List.length (Similarity.documents (bm25 (index w))) = List.length (units (index w)).

(** The units of the index, in enumeration order ([getAllUnits]). *)
Definition all_units (w : World) : list ref := JS.map_values (units (index w)).

(** [c] changes neither the objects nor the unit map of the index. *)
Definition keeps_store {A} (c : M A) : Prop :=
  forall w, heap (snd (c w)) = heap w /\ units (index (snd (c w))) = units (index w).

(** What [retrieve] does when it has no analysis of the query: one hybrid
    search of the query as it is, at depth [baseK], without filter and without
    reflection; [why] is the rationale reported. *)
Definition plain_retrieval (rt : Runtime) (co : Collaborators) (rconfig : RetrievalConfig)
    (query : string) (why : option string) (w : World) : result RetrievalContext * World :=
  let '(r, w1) := Indexing.hybridSearch rt co query None (Some (baseK rconfig)) w in
  (match r with
   | Ok results =>
       Ok {| abstracts := [];
             ctx_units := List.map (@unit _) results;
             totalTokens := Retrieval.estimateTokens (heap w1) (List.map (@unit _) results);
             retrievalRationale := why |}
   | Throw e => Throw e
   end, w1).

(** The ids of a list of units. *)
Definition ids_of (h : Heap) (us : list ref) : list string :=
  List.map (fun u => id (h u)) us.

(** The invariant of the accumulator of [reflectionSearch]: the units held
    have pairwise distinct ids, and [seenIds] holds them all. *)
Definition seen_covers (h : Heap) (acc : list ref * list string) : Prop :=
  NoDup (ids_of h (fst acc)) /\ forall u, In u (fst acc) -> In (id (h u)) (snd acc).

(** The deepest first search of [retrieve]: [baseK] for a query of LOW
    complexity, [computeDynamicK baseK 1 delta] for one of HIGH complexity. *)
Definition deepest_search (rconfig : RetrievalConfig) : nat :=
  Nat.max (baseK rconfig)
    (Similarity.computeDynamicK (baseK rconfig) 1 (complexityDelta rconfig)).

(** The prompt [generate] sends for a query and a context. *)
Definition answer_prompt (h : Heap) (query : string) (context : RetrievalContext) : string :=
  AnswerGenerator.buildPrompt query (AnswerGenerator.formatContext h context).

(** Every entry of a map is filed under the key of its value, and no key
    occurs twice. *)
Definition filed_by {V} (key : V -> string) (m : JS.Map V) : Prop :=
  Forall (fun e : string * V => key (snd e) = fst e) m /\ NoDup (JS.map_keys m).

(** The writing methods of the storage, and the storage they leave. *)
Inductive storage_call : Type :=
| SaveUnit (u : ref)
| SaveUnits (us : list ref)
| DeleteUnit (unit_id : string)
| SaveAbstract (a : Storage.Abstract)
| ClearStorage
| ImportData (data : Storage.ExportData).

Definition storage_after (h : Heap) (c : storage_call) (st : Storage.MemoryStorage)
    : Storage.MemoryStorage :=
  match c with
  | SaveUnit u => Storage.saveUnit h u st
  | SaveUnits us => Storage.saveUnits h us st
  | DeleteUnit unit_id => Storage.deleteUnit unit_id st
  | SaveAbstract a => Storage.saveAbstract a st
  | ClearStorage => Storage.clear st
  | ImportData data => Storage.import h data st
  end.

(** The states of a storage from [new MemoryStorage()] on, over objects whose
    ids are those of [h]. *)
Inductive storage_reachable (h : Heap) : Storage.MemoryStorage -> Prop :=
| storage_new : storage_reachable h Storage.new_MemoryStorage
| storage_call_done (st : Storage.MemoryStorage) (c : storage_call) :
    storage_reachable h st -> storage_reachable h (storage_after h c st).

(** The storage and the index of an orchestrator hold the same unit map. *)
Definition in_step (m : SimpleMem.SimpleMem) : Prop :=
  Storage.units (SimpleMem.storage m) = units (index (SimpleMem.world m)).

(** [n] extractions of a window, one after the other. *)
Fixpoint extractions (n : nat) (b : Compression.MemoryBuilder) : Compression.MemoryBuilder :=
  match n with
  | O => b
  | S n' => extractions n' (snd (Compression.extractWindow b))
  end.

(** The number last recorded for [uid], [zero] if there is none: what
    [m.get(uid) ?? 0] gives after [m.set] of the entries in their order. *)
Definition recorded {N} (zero : N) (entries : list (string * N)) (uid : string) : N :=
  match find (fun p => String.eqb (fst p) uid) (rev entries) with
  | Some p => snd p
  | None => zero
  end.

(** What the two layers contribute to the score maps of [hybridSearch]: the
    semantic scores, and the BM25 scores divided by the largest of them and 1;
    in exact arithmetic and in binary64. *)
Definition semantic_entries (h : Heap) (sem : list (SearchResult ref)) : list (string * Q) :=
  List.map (fun r => (id (h (unit r)), score r)) sem.

Definition lexical_entries (h : Heap) (kw : list (SearchResult (option ref)))
    : list (string * Q) :=
  let maxBM25 := JS.max_with (List.map (@score _) kw) 1%Q in
  flat_map
    (fun r => match unit r with
              | Some u => [(id (h u), (score r / maxBM25)%Q)]
              | None => []
              end)
    kw.

Definition semantic_entries64 (h : Heap) (sem : list (Binary64.SearchResult ref))
    : list (string * float) :=
  List.map (fun r => (id (h (Binary64.unit r)), Binary64.score r)) sem.

Definition lexical_entries64 (h : Heap) (kw : list (Binary64.SearchResult (option ref)))
    : list (string * float) :=
  let maxBM25 := Binary64.max_with (List.map (@Binary64.score _) kw) 1%float in
  flat_map
    (fun r => match Binary64.unit r with
              | Some u => [(id (h u), (Binary64.score r / maxBM25)%float)]
              | None => []
              end)
    kw.

(** The same weights with the symbolic bonus set to zero. *)
Definition without_bonus (weights : Binary64.Weights) : Binary64.Weights :=
  {| Binary64.semanticWeight := Binary64.semanticWeight weights;
     Binary64.lexicalWeight := Binary64.lexicalWeight weights;
     Binary64.symbolicWeight := 0%float |}.

(** [s > 0], as [topK] tests it. *)
Definition positive (s : Q) : bool := negb (Qle_bool s 0).

(** The same filter with its [timestampRange] left out. *)
Definition without_range (f : QueryFilter) : QueryFilter :=
  {| filter_persons := filter_persons f; filter_entities := filter_entities f;
     timestampRange := None;
     filter_location := filter_location f; filter_topic := filter_topic f |}.

(* ========================================================================= *)
(** * Properties of the symbolic layer *)
(* ========================================================================= *)

Lemma fails_range_no_timestamp rt u f :
  timestamp u = None -> Indexing.fails_range rt u f = false.
Proof.
  intros Hts. unfold Indexing.fails_range. rewrite Hts.
  destruct (timestampRange f); reflexivity.
Qed.

Lemma fails_range_without_range rt u f :
  Indexing.fails_range rt u (without_range f) = false.
Proof. reflexivity. Qed.

(** C2, as stated, does not hold: the unit [u1] of the fixtures has no
    timestamp, the filter [range_only] sets a timestamp range, and
    [matchesFilter] answers [true]. *)
Lemma untimestamped_unit_matches_range_filter :
  ~ (forall (rt : Runtime) (u : MemoryUnit) (f : QueryFilter),
        timestamp u = None -> timestampRange f <> None ->
        Indexing.matchesFilter rt u f = false).
Proof.
  intros H.
  specialize (H Fixtures.rt0 (Fixtures.heap0 1) Fixtures.range_only eq_refl).
  cbv in H. assert (true = false) by (apply H; discriminate). discriminate.
Qed.

(** C2 (amended): for a unit with no timestamp the timestamp-range check is
    skipped, whatever the filter: its [return false] is never reached, and
    [matchesFilter] answers as it does for the same filter without its
    [timestampRange]; so the other four predicates decide alone. *)
Theorem no_timestamp_skips_range_check :
  forall (rt : Runtime) (u : MemoryUnit) (f : QueryFilter),
    timestamp u = None ->
    Indexing.fails_range rt u f = false
    /\ Indexing.matchesFilter rt u f = Indexing.matchesFilter rt u (without_range f).
Proof.
  intros rt u f Hts. split.
  - now apply fails_range_no_timestamp.
  - unfold Indexing.matchesFilter.
    rewrite (fails_range_no_timestamp rt u f Hts), fails_range_without_range.
    reflexivity.
Qed.

Lemma no_timestamp_skips_range_check_witness :
  timestamp (Fixtures.heap0 1) = None
  /\ Indexing.fails_range Fixtures.rt0 (Fixtures.heap0 1) Fixtures.range_only = false
  /\ Indexing.matchesFilter Fixtures.rt0 (Fixtures.heap0 1) Fixtures.range_only
     = Indexing.matchesFilter Fixtures.rt0 (Fixtures.heap0 1)
         (without_range Fixtures.range_only).
Proof.
  split; [reflexivity |].
  apply (no_timestamp_skips_range_check Fixtures.rt0 (Fixtures.heap0 1) Fixtures.range_only).
  reflexivity.
Defined.

(* ========================================================================= *)
(** * addUnits when the embedding provider fails *)
(* ========================================================================= *)

Lemma addUnits_embed_rejects co batch w msg :
  needing (heap w) batch <> [] ->
  embed_reply co (history w) (texts_of (heap w) (needing (heap w) batch)) = Rejects msg ->
  Indexing.addUnits co batch w
  = (Throw (EmbeddingError msg),
     log_call (EmbedCall (texts_of (heap w) (needing (heap w) batch))) w).
Proof.
  intros Hne Hrej.
  unfold Indexing.addUnits, bind, get_heap, embed. cbn [heap].
  fold (needing (heap w) batch).
  destruct (needing (heap w) batch) as [| r rs] eqn:E; [congruence |].
  cbn [List.length Nat.ltb Nat.leb].
  fold (texts_of (heap w) (r :: rs)).
  rewrite Hrej. reflexivity.
Qed.

(** C1, as stated, does not hold: when the provider fails, a unit of the same
    call that already carried an embedding is not upserted.  In the fixtures,
    object 0 carries an embedding, object 2 does not, the provider is down:
    the call throws and the index is still empty. *)
Lemma embedded_unit_not_upserted_on_failure :
  ~ (forall (co : Collaborators) (batch : list ref) (w : World) (r : ref) (msg : string),
        needing (heap w) batch <> [] ->
        embed_reply co (history w) (texts_of (heap w) (needing (heap w) batch)) = Rejects msg ->
        In r batch ->
        Indexing.has_embedding (heap w r) = true ->
        JS.map_get (units (index (snd (Indexing.addUnits co batch w)))) (id (heap w r))
        = Some r).
Proof.
  intros H.
  assert (Hne : needing (heap Fixtures.world0) [0; 2] <> []) by discriminate.
  specialize (H Fixtures.co_down [0; 2] Fixtures.world0 0 "embeddings down"
                Hne eq_refl (or_introl eq_refl) eq_refl).
  cbv in H. discriminate.
Qed.

(** C1 (amended): if the embedding provider fails during [addUnits], the call
    fails with that embedding error and nothing is committed: no object of the
    batch receives an embedding (the store is unchanged, so none is partially
    embedded) and no unit of the call is upserted, those that already carried
    an embedding included (the index, its dirty flag included, is unchanged);
    the failed call to the provider is the only trace. *)
Theorem addUnits_fails_without_commit :
  forall (co : Collaborators) (batch : list ref) (w : World) (msg : string),
    needing (heap w) batch <> [] ->
    embed_reply co (history w) (texts_of (heap w) (needing (heap w) batch)) = Rejects msg ->
    let '(outcome, w') := Indexing.addUnits co batch w in
    outcome = Throw (EmbeddingError msg)
    /\ heap w' = heap w
    /\ index w' = index w
    /\ history w' = history w ++ [EmbedCall (texts_of (heap w) (needing (heap w) batch))].
Proof.
  intros co batch w msg Hne Hrej.
  rewrite (addUnits_embed_rejects co batch w Hne Hrej).
  repeat split.
Qed.

Lemma addUnits_fails_without_commit_witness :
  let '(outcome, w') := Indexing.addUnits Fixtures.co_down [0; 2] Fixtures.world0 in
  outcome = Throw (EmbeddingError "embeddings down")
  /\ heap w' = heap Fixtures.world0
  /\ index w' = index Fixtures.world0
  /\ history w' = [] ++ [EmbedCall ["Sarah got promoted"]].
Proof.
  apply (addUnits_fails_without_commit Fixtures.co_down [0; 2] Fixtures.world0
           (msg := "embeddings down")).
  - discriminate.
  - reflexivity.
Defined.

(* ========================================================================= *)
(** * The answer synthesizer on an empty context *)
(* ========================================================================= *)

(** C7: for every query, [generate] on a context whose list of units is empty
    returns the fixed insufficient-information string and leaves the state as
    it was: nothing is added to the history of calls, so neither [complete]
    nor [completeJSON] is invoked. *)
Theorem generate_empty_context :
  forall (co : Collaborators) (query : string)
         (abs : list AbstractMemory) (tokens : nat) (why : option string) (w : World),
    let context := {| abstracts := abs; ctx_units := []; totalTokens := tokens;
                      retrievalRationale := why |} in
    AnswerGenerator.generate co query context w
    = (Ok "I do not have enough information in my memory to answer this question.", w)
    /\ history (snd (AnswerGenerator.generate co query context w)) = history w
    /\ oracle_calls (history (snd (AnswerGenerator.generate co query context w)))
       = oracle_calls (history w).
Proof.
  intros. repeat split.
Qed.

(* ========================================================================= *)
(** * Sorting by score *)
(* ========================================================================= *)

Section SortByKey.

Variable A : Type.
Variable key : A -> Q.

Lemma desc_cmp_gt a b0 : (desc_cmp key a b0 ?= 0)%Q = Gt <-> (key a < key b0)%Q.
Proof.
  unfold desc_cmp. rewrite <- Qgt_alt. split; intros H; lra.
Qed.

Lemma desc_cmp_not_gt a b0 : (desc_cmp key a b0 ?= 0)%Q <> Gt <-> (before key) a b0.
Proof.
  rewrite desc_cmp_gt. unfold before. split; intros H; lra.
Qed.

Lemma sort_insert_In x l z :
  In z (JS.sort_insert (desc_cmp key) x l) <-> z = x \/ In z l.
Proof.
  induction l as [| y l IH]; cbn.
  - intuition.
  - destruct (desc_cmp key x y ?= 0)%Q; cbn; try rewrite IH; intuition.
Qed.

Lemma sort_insert_sorted x l :
  StronglySorted (before key) l -> StronglySorted (before key) (JS.sort_insert (desc_cmp key) x l).
Proof.
  induction 1 as [| y l Hs IH Hall]; cbn.
  - constructor; [constructor | constructor].
  - destruct (desc_cmp key x y ?= 0)%Q eqn:E.
    + assert (Hb : (before key) x y) by (apply desc_cmp_not_gt; congruence).
      constructor; [constructor; assumption |].
      constructor; [exact Hb |].
      eapply Forall_impl; [| exact Hall].
      unfold before in *. intros z Hz. lra.
    + assert (Hb : (before key) x y) by (apply desc_cmp_not_gt; congruence).
      constructor; [constructor; assumption |].
      constructor; [exact Hb |].
      eapply Forall_impl; [| exact Hall].
      unfold before in *. intros z Hz. lra.
    + apply desc_cmp_gt in E.
      constructor; [exact IH |].
      apply Forall_forall. intros z Hz.
      apply sort_insert_In in Hz. destruct Hz as [-> | Hz].
      * unfold before. lra.
      * rewrite Forall_forall in Hall. now apply Hall.
Qed.

Lemma sort_sorted l : StronglySorted (before key) (JS.sort (desc_cmp key) l).
Proof.
  induction l as [| x l IH]; cbn.
  - constructor.
  - now apply sort_insert_sorted.
Qed.

Lemma sort_In l z : In z (JS.sort (desc_cmp key) l) <-> In z l.
Proof.
  induction l as [| x l IH]; cbn; [tauto |].
  rewrite sort_insert_In, IH. intuition.
Qed.

Lemma sort_length l : List.length (JS.sort (desc_cmp key) l) = List.length l.
Proof.
  assert (Hins : forall x m, List.length (JS.sort_insert (desc_cmp key) x m) = S (List.length m)).
  { intros x m. induction m as [| y m IH]; cbn; [reflexivity |].
    destruct (desc_cmp key x y ?= 0)%Q; cbn; try rewrite IH; reflexivity. }
  unfold JS.sort. induction l as [| x l IH]; cbn [fold_right]; [reflexivity |].
  now rewrite Hins, IH.
Qed.

Lemma firstn_sorted k l :
  StronglySorted (before key) l -> StronglySorted (before key) (firstn k l).
Proof.
  intros Hs. revert k. induction Hs as [| y l Hs IH Hall]; intros [| k]; cbn;
    try constructor.
  - apply IH.
  - apply Forall_forall. intros z Hz.
    rewrite Forall_forall in Hall. apply Hall.
    rewrite <- (firstn_skipn k l). apply in_or_app. now left.
Qed.

End SortByKey.

Lemma slice0_In A (k : nat) (l : list A) x : In x (JS.slice0 k l) -> In x l.
Proof.
  unfold JS.slice0. intros H. rewrite <- (firstn_skipn k l). apply in_or_app. now left.
Qed.

Lemma slice0_length A (k : nat) (l : list A) : List.length (JS.slice0 k l) <= k.
Proof. unfold JS.slice0. rewrite length_firstn. lia. Qed.

(* ========================================================================= *)
(** * hybridSearch: size and order of the result *)
(* ========================================================================= *)

Lemma hybrid_merge_bounded_sorted rt h i filter k sem kw res :
  Indexing.hybrid_merge rt h i filter k sem kw = Ok res ->
  List.length res <= k /\ non_increasing res.
Proof.
  unfold Indexing.hybrid_merge.
  destruct (Indexing.lexical_scores h _ kw []) as [lexicalScores | e]; [| discriminate].
  intros [= <-]. split.
  - apply slice0_length.
  - unfold JS.slice0, non_increasing.
    apply (firstn_sorted (key := @score ref)).
    apply (sort_sorted (@score ref)).
Qed.

Lemma hybridSearch_inv rt co query filter topK w res w' :
  Indexing.hybridSearch rt co query filter topK w = (Ok res, w') ->
  exists sem kw,
    Indexing.hybrid_merge rt (heap w') (index w') filter
      (match topK with Some k => k | None => semanticTopK (config (index w)) end)
      sem kw = Ok res.
Proof.
  unfold Indexing.hybridSearch, bind, get_index, get_heap, lift, Indexing.promise_all2.
  destruct (Indexing.semanticSearch rt co query _ w) as [[sem | e] w1];
    destruct (Indexing.keywordSearch rt query _ w1) as [[kw | e'] w2];
    try discriminate.
  intros [= Hm <-]. exists sem, kw. exact Hm.
Qed.

(** C3: for every query, optional filter and requested [topK], the list that
    [hybridSearch] returns has at most [topK] results (at most the configured
    [semanticTopK] when [topK] is omitted) and its scores are in non-increasing
    order. *)
Theorem hybridSearch_at_most_topK_sorted :
  forall (rt : Runtime) (co : Collaborators) (query : string)
         (filter : option QueryFilter) (topK : option nat)
         (w w' : World) (res : list (SearchResult ref)),
    Indexing.hybridSearch rt co query filter topK w = (Ok res, w') ->
    List.length res
      <= match topK with Some k => k | None => semanticTopK (config (index w)) end
    /\ non_increasing res.
Proof.
  intros rt co query filter topK w w' res H.
  destruct (hybridSearch_inv _ _ _ _ _ _ H) as (sem & kw & Hm).
  exact (hybrid_merge_bounded_sorted _ _ _ _ _ _ _ Hm).
Qed.

Lemma hybridSearch_at_most_topK_sorted_witness :
  exists (res : list (SearchResult ref)) (w' : World),
    Indexing.hybridSearch Fixtures.rt0 Fixtures.co_embed "report" None (Some 2)
      Fixtures.world_embedded = (Ok res, w')
    /\ List.length res <= 2
    /\ non_increasing res.
Proof.
  destruct (Indexing.hybridSearch Fixtures.rt0 Fixtures.co_embed "report" None (Some 2)
              Fixtures.world_embedded) as [[res | e] w'] eqn:E.
  - exists res, w'. split; [reflexivity |].
    exact (hybridSearch_at_most_topK_sorted _ _ _ _ _ _ E).
  - vm_compute in E. discriminate.
Defined.

(* ========================================================================= *)
(** * hybridSearch without a filter: the symbolic bonus *)
(* ========================================================================= *)

Section Shift.

Variable g : Q.

Let shifted (r r0 : SearchResult ref) : Prop :=
  unit r = unit r0 /\ (score r == score r0 + g)%Q.

Lemma shifted_compare x x0 y y0 :
  shifted x x0 -> shifted y y0 ->
  (Indexing.by_score_desc x y ?= 0)%Q = (Indexing.by_score_desc x0 y0 ?= 0)%Q.
Proof.
  intros [_ Hx] [_ Hy]. unfold Indexing.by_score_desc.
  assert (E : (score y - score x == score y0 - score x0)%Q) by (rewrite Hx, Hy; ring).
  now rewrite E.
Qed.

Lemma sort_insert_shifted x x0 m m0 :
  shifted x x0 -> Forall2 shifted m m0 ->
  Forall2 shifted (JS.sort_insert Indexing.by_score_desc x m)
                  (JS.sort_insert Indexing.by_score_desc x0 m0).
Proof.
  intros Hx Hm. induction Hm as [| y y0 m m0 Hy Hm IH]; cbn.
  - constructor; [exact Hx | constructor].
  - rewrite (shifted_compare Hx Hy).
    destruct (Indexing.by_score_desc x0 y0 ?= 0)%Q;
      repeat (constructor; try assumption).
Qed.

Lemma sort_shifted l l0 :
  Forall2 shifted l l0 ->
  Forall2 shifted (JS.sort Indexing.by_score_desc l) (JS.sort Indexing.by_score_desc l0).
Proof.
  unfold JS.sort. induction 1; cbn [fold_right].
  - constructor.
  - now apply sort_insert_shifted.
Qed.

Lemma firstn_Forall2 A B (R : A -> B -> Prop) k l l0 :
  Forall2 R l l0 -> Forall2 R (firstn k l) (firstn k l0).
Proof.
  intros H. revert k. induction H; intros [| k]; cbn; constructor; auto.
Qed.

Lemma flat_map_Forall2 A B C (R : B -> C -> Prop) (f : A -> list B) (f0 : A -> list C) l :
  (forall a, Forall2 R (f a) (f0 a)) ->
  Forall2 R (flat_map f l) (flat_map f0 l).
Proof.
  intros H. induction l as [| a l IH]; cbn; [constructor |].
  apply Forall2_app; auto.
Qed.

End Shift.

(** What [hybridSearch] computes for one candidate when no filter is given. *)
Lemma hybrid_entry_no_filter rt h i sem lex uid :
  Indexing.hybrid_entry rt h i None sem lex uid
  = match JS.map_get (units i) uid with
    | None => []
    | Some u =>
        [Indexing.mk_result u
           (semanticWeight (config i)
              * match JS.map_get sem uid with Some x => x | None => 0 end
            + lexicalWeight (config i)
              * match JS.map_get lex uid with Some x => x | None => 0 end
            + symbolicWeight (config i))%Q
           hybrid]
    end.
Proof. reflexivity. Qed.

Lemma hybrid_merge_shift rt h i k sem kw :
  match Indexing.hybrid_merge rt h i None k sem kw,
        Indexing.hybrid_merge rt h (set_symbolicWeight 0 i) None k sem kw with
  | Ok res, Ok res0 => same_ranking_shifted (symbolicWeight (config i)) res res0
  | Throw e, Throw e0 => e = e0
  | _, _ => False
  end.
Proof.
  unfold Indexing.hybrid_merge.
  destruct (Indexing.lexical_scores h _ kw []) as [lex | e]; [| reflexivity].
  unfold same_ranking_shifted, JS.slice0.
  apply firstn_Forall2, sort_shifted, flat_map_Forall2.
  intros uid. rewrite !hybrid_entry_no_filter. cbn [units config set_symbolicWeight
    semanticWeight lexicalWeight symbolicWeight].
  destruct (JS.map_get (units i) uid) as [u |]; constructor; [| constructor].
  split; [reflexivity |]. cbn [score Indexing.mk_result]. ring.
Qed.

Lemma semanticSearch_without_symbolic rt co query topK w :
  Indexing.semanticSearch rt co query topK (without_symbolic_term w)
  = (fst (Indexing.semanticSearch rt co query topK w),
     without_symbolic_term (snd (Indexing.semanticSearch rt co query topK w))).
Proof.
  unfold Indexing.semanticSearch, bind, get_index, get_heap, lift, ret, embed.
  cbn [index heap history without_symbolic_term set_symbolicWeight config units semanticTopK].
  destruct (embed_reply co (history w) [query]) as [v | msg]; cbn; [| reflexivity].
  destruct (Indexing.semantic_scores rt (heap w) (hd_error v)
              (JS.map_values (units (index w))) []); reflexivity.
Qed.

Lemma keywordSearch_without_symbolic rt query topK w :
  Indexing.keywordSearch rt query topK (without_symbolic_term w)
  = (fst (Indexing.keywordSearch rt query topK w),
     without_symbolic_term (snd (Indexing.keywordSearch rt query topK w))).
Proof.
  unfold Indexing.keywordSearch, Indexing.rebuildLexicalIndex,
    bind, get_index, get_heap, put_index, ret.
  cbn [index heap history without_symbolic_term set_symbolicWeight config units
       keywordTopK needsRebuild bm25].
  destruct (needsRebuild (index w)); reflexivity.
Qed.

Lemma semanticSearch_index rt co query topK w :
  index (snd (Indexing.semanticSearch rt co query topK w)) = index w.
Proof.
  unfold Indexing.semanticSearch, bind, get_index, get_heap, lift, ret, embed.
  destruct (embed_reply co (history w) [query]) as [v | msg]; cbn; [| reflexivity].
  destruct (Indexing.semantic_scores rt (heap w) (hd_error v)
              (JS.map_values (units (index w))) []); reflexivity.
Qed.

Lemma keywordSearch_config rt query topK w :
  config (index (snd (Indexing.keywordSearch rt query topK w))) = config (index w).
Proof.
  unfold Indexing.keywordSearch, Indexing.rebuildLexicalIndex,
    bind, get_index, get_heap, put_index, ret.
  destruct (needsRebuild (index w)); reflexivity.
Qed.

(** In exact arithmetic the search without a filter and the same search
    without the symbolic term return the same units in the same order, each
    score of the first greater by [symbolicWeight]; they fail together. *)
Lemma hybridSearch_shift rt co query topK w :
  match fst (Indexing.hybridSearch rt co query None topK w),
        fst (Indexing.hybridSearch rt co query None topK (without_symbolic_term w)) with
  | Ok res, Ok res0 =>
      same_ranking_shifted (symbolicWeight (config (index w))) res res0
  | Throw e, Throw e0 => e = e0
  | _, _ => False
  end.
Proof.
  unfold Indexing.hybridSearch, bind, get_index, get_heap, lift, Indexing.promise_all2.
  cbn [index config without_symbolic_term set_symbolicWeight semanticTopK].
  set (k := match topK with Some k => k | None => semanticTopK (config (index w)) end).
  change {| heap := heap w; index := set_symbolicWeight 0 (index w); history := history w |}
    with (without_symbolic_term w).
  rewrite semanticSearch_without_symbolic.
  pose proof (semanticSearch_index rt co query (Some (k * 2)) w) as Hi.
  destruct (Indexing.semanticSearch rt co query (Some (k * 2)) w) as [rs w1].
  cbn [fst snd] in *.
  rewrite keywordSearch_without_symbolic.
  pose proof (keywordSearch_config rt query (Some (k * 2)) w1) as Hc.
  destruct (Indexing.keywordSearch rt query (Some (k * 2)) w1) as [rk w2].
  cbn [fst snd] in *.
  rewrite Hi in Hc. rewrite <- Hc.
  destruct rs as [sem | e]; destruct rk as [kw | e']; cbn [fst]; try reflexivity.
  cbn [heap index without_symbolic_term].
  apply hybrid_merge_shift.
Qed.

(* ========================================================================= *)
(** * BM25: more occurrences of a term never score lower *)
(* ========================================================================= *)

Lemma map_get_set V (m : JS.Map V) k v k' :
  JS.map_get (JS.map_set m k v) k' = if String.eqb k k' then Some v else JS.map_get m k'.
Proof.
  induction m as [| [k0 v0] m IH]; cbn.
  - reflexivity.
  - destruct (String.eqb k0 k) eqn:E0; cbn.
    + apply String.eqb_eq in E0. subst k0.
      destruct (String.eqb k k'); reflexivity.
    + rewrite IH. destruct (String.eqb k0 k') eqn:E1; [| reflexivity].
      apply String.eqb_eq in E1. subst k0.
      rewrite String.eqb_sym in E0. now rewrite E0.
Qed.

Lemma count_into_get m t t' :
  get_or_0 (Similarity.count_into m t) t'
  = get_or_0 m t' + (if string_dec t t' then 1 else 0).
Proof.
  unfold Similarity.count_into, get_or_0. rewrite map_get_set.
  destruct (String.eqb_spec t t') as [-> | Hne].
  - destruct (string_dec t' t'); [reflexivity | congruence].
  - destruct (string_dec t t'); [congruence | lia].
Qed.

Lemma fold_count_into_get doc m t :
  get_or_0 (fold_left Similarity.count_into doc m) t
  = get_or_0 m t + count_occ string_dec doc t.
Proof.
  revert m. induction doc as [| x doc IH]; intros m; cbn [fold_left count_occ].
  - lia.
  - rewrite IH, count_into_get. destruct (string_dec x t); lia.
Qed.

(** The term frequency that [score] reads is the number of occurrences. *)
Lemma termFreq_count doc t :
  get_or_0 (Similarity.termFreq doc) t = count_occ string_dec doc t.
Proof.
  unfold Similarity.termFreq. now rewrite fold_count_into_get.
Qed.

Lemma of_nat_nonneg n : (0 <= JS.of_nat n)%Q.
Proof.
  unfold JS.of_nat. change 0%Q with (inject_Z 0). rewrite <- Zle_Qle. lia.
Qed.


Lemma Qdiv_nonneg x y : (0 <= x)%Q -> (0 <= y)%Q -> (0 <= x / y)%Q.
Proof.
  intros Hx Hy. unfold Qdiv. apply Qmult_le_0_compat; [exact Hx |].
  now apply Qinv_le_0_compat.
Qed.


Lemma saturation_nonneg (t c K : Q) :
  (0 <= t)%Q -> (0 <= c)%Q -> (0 <= K)%Q -> (0 <= t * c / (t + K))%Q.
Proof.
  intros Ht Hc HK. apply Qdiv_nonneg; [apply Qmult_le_0_compat; assumption | lra].
Qed.

Section TermScore.

Variable bm : Similarity.BM25Scorer.
Hypothesis k1_nonneg : (0 <= Similarity.k1 bm)%Q.
Hypothesis b_in_range : (0 <= Similarity.b bm)%Q /\ (Similarity.b bm <= 1)%Q.
Hypothesis avg_pos : (0 < Similarity.avgDocLength bm)%Q.

(** The length normalisation [k1 * (1 - b + b * (docLength / avgDocLength))]. *)
Lemma length_norm_nonneg (len : nat) :
  (0 <= Similarity.k1 bm
        * (1 - Similarity.b bm
           + Similarity.b bm * (JS.of_nat len / Similarity.avgDocLength bm)))%Q.
Proof.
  destruct b_in_range as [Hb0 Hb1].
  apply Qmult_le_0_compat; [exact k1_nonneg |].
  assert (Hq : (0 <= JS.of_nat len / Similarity.avgDocLength bm)%Q).
  { apply Qdiv_nonneg; [apply of_nat_nonneg | lra]. }
  assert (Hm : (0 <= Similarity.b bm * (JS.of_nat len / Similarity.avgDocLength bm))%Q)
    by (apply Qmult_le_0_compat; assumption).
  lra.
Qed.


End TermScore.

Lemma or_else_pos x : (0 <= x)%Q -> (0 < JS.or_else x 1)%Q.
Proof.
  intros Hx. unfold JS.or_else.
  destruct (Qeq_bool x 0) eqn:E; [lra |].
  apply Qeq_bool_neq in E. apply Qle_lteq in Hx. destruct Hx as [Hlt | Heq].
  - exact Hlt.
  - exfalso. apply E. now symmetry.
Qed.

Lemma addDocuments_avg_pos rt bm docs :
  (0 < Similarity.avgDocLength (Similarity.addDocuments rt bm docs))%Q.
Proof.
  cbn [Similarity.addDocuments Similarity.avgDocLength].
  apply or_else_pos, Qdiv_nonneg; apply of_nat_nonneg.
Qed.

Lemma default_scorer_params rt corpora :
  Similarity.k1 (default_scorer rt corpora) = (12 # 10)%Q
  /\ Similarity.b (default_scorer rt corpora) = (75 # 100)%Q.
Proof.
  unfold default_scorer.
  induction corpora as [| docs corpora IH] using rev_ind; [split; reflexivity |].
  rewrite fold_left_app. cbn [fold_left Similarity.addDocuments Similarity.k1 Similarity.b].
  exact IH.
Qed.

Lemma default_scorer_avg_pos rt corpora d :
  In d (Similarity.documents (default_scorer rt corpora)) ->
  (0 < Similarity.avgDocLength (default_scorer rt corpora))%Q.
Proof.
  unfold default_scorer.
  destruct corpora as [| docs corpora] using rev_ind; [intros [] |].
  intros _. rewrite fold_left_app. cbn [fold_left]. apply addDocuments_avg_pos.
Qed.



(* ========================================================================= *)
(** * The unit map: ids are unique, re-adding overwrites in place *)
(* ========================================================================= *)

Lemma mem_In k s : JS.mem k s = true <-> In k s.
Proof.
  unfold JS.mem. rewrite existsb_exists. split.
  - intros (x & Hin & E). apply String.eqb_eq in E. now subst.
  - intros Hin. exists k. split; [exact Hin | apply String.eqb_refl].
Qed.

Lemma map_keys_set V (m : JS.Map V) k v :
  JS.map_keys (JS.map_set m k v)
  = if JS.mem k (JS.map_keys m) then JS.map_keys m else JS.map_keys m ++ [k].
Proof.
  induction m as [| [k0 v0] m IH]; [reflexivity |].
  cbn [JS.map_set].
  change (JS.mem k (JS.map_keys ((k0, v0) :: m)))
    with (String.eqb k k0 || JS.mem k (JS.map_keys m)).
  rewrite (String.eqb_sym k k0).
  destruct (String.eqb k0 k) eqn:E; cbn [orb]; [reflexivity |].
  change (JS.map_keys ((k0, v0) :: JS.map_set m k v))
    with (k0 :: JS.map_keys (JS.map_set m k v)).
  rewrite IH. destruct (JS.mem k (JS.map_keys m)); reflexivity.
Qed.

Lemma map_get_In_keys V (m : JS.Map V) k v :
  JS.map_get m k = Some v -> In k (JS.map_keys m).
Proof.
  induction m as [| [k0 v0] m IH]; cbn; [discriminate |].
  destruct (String.eqb_spec k0 k); [now left | right; auto].
Qed.

Lemma map_set_keeps_nodup V (m : JS.Map V) k v :
  NoDup (JS.map_keys m) -> NoDup (JS.map_keys (JS.map_set m k v)).
Proof.
  intros Hnd. rewrite map_keys_set.
  destruct (JS.mem k (JS.map_keys m)) eqn:E; [exact Hnd |].
  apply NoDup_app; [exact Hnd | repeat constructor; intros [] |].
  intros x Hx [<- | []].
  apply mem_In in Hx. congruence.
Qed.

Lemma map_set_keys_grow V (m : JS.Map V) k v :
  exists extra, JS.map_keys (JS.map_set m k v) = JS.map_keys m ++ extra.
Proof.
  rewrite map_keys_set. destruct (JS.mem k (JS.map_keys m)).
  - exists []. now rewrite app_nil_r.
  - now exists [k].
Qed.

Lemma map_delete_keys_incl V (m : JS.Map V) k x :
  In x (JS.map_keys (JS.map_delete m k)) -> In x (JS.map_keys m).
Proof.
  induction m as [| [k0 v0] m IH]; cbn; [tauto |].
  destruct (String.eqb k0 k); cbn; intuition.
Qed.

Lemma map_delete_keeps_nodup V (m : JS.Map V) k :
  NoDup (JS.map_keys m) -> NoDup (JS.map_keys (JS.map_delete m k)).
Proof.
  induction m as [| [k0 v0] m IH]; cbn; [trivial |].
  intros Hnd. inversion Hnd as [| ? ? Hnotin Hnd']; subst.
  destruct (String.eqb k0 k); cbn; [exact Hnd' |].
  constructor; [| now apply IH].
  intros Hin. apply Hnotin. eapply map_delete_keys_incl, Hin.
Qed.

Lemma map_set_keeps_match h (m : JS.Map ref) r :
  keys_match h m -> keys_match h (JS.map_set m (id (h r)) r).
Proof.
  unfold keys_match. induction 1 as [| [k0 v0] m Hk Hm IH]; cbn.
  - repeat constructor.
  - destruct (String.eqb_spec k0 (id (h r))) as [-> | Hne]; constructor; auto.
Qed.

Lemma map_delete_keeps_match h (m : JS.Map ref) k :
  keys_match h m -> keys_match h (JS.map_delete m k).
Proof.
  unfold keys_match. induction 1 as [| [k0 v0] m Hk Hm IH]; cbn.
  - constructor.
  - destruct (String.eqb k0 k); [exact Hm | constructor; auto].
Qed.

Lemma keys_match_ext h h' (m : JS.Map ref) :
  (forall r, id (h' r) = id (h r)) -> keys_match h m -> keys_match h' m.
Proof.
  intros E. unfold keys_match. apply Forall_impl. intros e He. now rewrite E.
Qed.

(** With unique keys filed under the units' ids, the units that carry a given
    id are what [get] finds under it. *)
Lemma units_with_id h (m : JS.Map ref) i :
  keys_match h m -> NoDup (JS.map_keys m) ->
  filter (fun r => String.eqb (id (h r)) i) (JS.map_values m)
  = match JS.map_get m i with Some r => [r] | None => [] end.
Proof.
  unfold keys_match, JS.map_values.
  induction 1 as [| [k0 v0] m Hk Hm IH];
    cbn [List.map filter JS.map_get fst snd JS.map_keys]; [reflexivity |].
  intros Hnd. inversion Hnd as [| ? ? Hnotin Hnd']; subst. cbn [fst snd] in Hk. rewrite Hk.
  destruct (String.eqb_spec k0 i) as [-> | Hne].
  - rewrite (IH Hnd').
    destruct (JS.map_get m i) as [r |] eqn:Eg; [| reflexivity].
    exfalso. apply Hnotin. eapply map_get_In_keys, Eg.
  - now apply IH.
Qed.

Section Upsert.

Variable h : Heap.

Lemma upsert_all_nodup batch (m : JS.Map ref) :
  NoDup (JS.map_keys m) -> NoDup (JS.map_keys (Indexing.upsert_all h m batch)).
Proof.
  unfold Indexing.upsert_all. revert m.
  induction batch as [| r batch IH]; intros m Hnd; cbn [fold_left]; [exact Hnd |].
  apply IH. now apply map_set_keeps_nodup.
Qed.

Lemma upsert_all_match batch (m : JS.Map ref) :
  keys_match h m -> keys_match h (Indexing.upsert_all h m batch).
Proof.
  unfold Indexing.upsert_all. revert m.
  induction batch as [| r batch IH]; intros m Hm; cbn [fold_left]; [exact Hm |].
  apply IH. now apply map_set_keeps_match.
Qed.

Lemma upsert_all_keys_grow batch (m : JS.Map ref) :
  exists extra, JS.map_keys (Indexing.upsert_all h m batch) = JS.map_keys m ++ extra.
Proof.
  unfold Indexing.upsert_all. revert m.
  induction batch as [| r batch IH]; intros m; cbn [fold_left].
  - exists []. now rewrite app_nil_r.
  - destruct (IH (JS.map_set m (id (h r)) r)) as [extra2 E2].
    destruct (map_set_keys_grow m (id (h r)) r) as [extra1 E1].
    exists (extra1 ++ extra2). now rewrite E2, E1, app_assoc.
Qed.

Lemma upsert_all_app pre post (m : JS.Map ref) :
  Indexing.upsert_all h m (pre ++ post)
  = Indexing.upsert_all h (Indexing.upsert_all h m pre) post.
Proof. unfold Indexing.upsert_all. apply fold_left_app. Qed.

Lemma upsert_all_get_other batch (m : JS.Map ref) i :
  Forall (fun r => id (h r) <> i) batch ->
  JS.map_get (Indexing.upsert_all h m batch) i = JS.map_get m i.
Proof.
  unfold Indexing.upsert_all. intros Hall. revert m.
  induction Hall as [| r batch Hr Hb IH]; intros m; cbn [fold_left]; [reflexivity |].
  rewrite IH, map_get_set.
  destruct (String.eqb_spec (id (h r)) i); [contradiction | reflexivity].
Qed.

(** Last write wins. *)
Lemma upsert_all_get_last pre r post (m : JS.Map ref) :
  Forall (fun r' => id (h r') <> id (h r)) post ->
  JS.map_get (Indexing.upsert_all h m (pre ++ r :: post)) (id (h r)) = Some r.
Proof.
  intros Hpost. rewrite upsert_all_app.
  change (r :: post) with ([r] ++ post). rewrite upsert_all_app.
  rewrite (upsert_all_get_other _ Hpost).
  unfold Indexing.upsert_all. cbn [fold_left].
  now rewrite map_get_set, String.eqb_refl.
Qed.

Lemma upsert_all_In_key batch (m : JS.Map ref) r :
  In r batch -> In (id (h r)) (JS.map_keys (Indexing.upsert_all h m batch)).
Proof.
  intros Hin. apply in_split in Hin. destruct Hin as (pre & post & ->).
  rewrite upsert_all_app. change (r :: post) with ([r] ++ post). rewrite upsert_all_app.
  destruct (upsert_all_keys_grow post (Indexing.upsert_all h (Indexing.upsert_all h m pre) [r]))
    as [extra ->].
  apply in_or_app. left.
  unfold Indexing.upsert_all at 1. cbn [fold_left].
  eapply map_get_In_keys. now rewrite map_get_set, String.eqb_refl.
Qed.

End Upsert.

Lemma upsert_all_ext h h' (m : JS.Map ref) batch :
  (forall r, id (h' r) = id (h r)) ->
  Indexing.upsert_all h' m batch = Indexing.upsert_all h m batch.
Proof.
  intros E. unfold Indexing.upsert_all. revert m.
  induction batch as [| r batch IH]; intros m; cbn [fold_left]; [reflexivity |].
  now rewrite E, IH.
Qed.

Lemma attach_embeddings_keeps h rs embeddings i r :
  id (Indexing.attach_embeddings h rs embeddings i r) = id (h r)
  /\ content (Indexing.attach_embeddings h rs embeddings i r) = content (h r).
Proof.
  revert h i. induction rs as [| r0 rs IH]; intros h i; cbn [Indexing.attach_embeddings].
  - split; reflexivity.
  - destruct (IH (set_embedding h r0 (nth_error embeddings i)) (S i)) as [-> ->].
    unfold set_embedding. destruct (Nat.eqb_spec r r0) as [-> | _]; split; reflexivity.
Qed.

(** The two ways [addUnits] ends. *)
Lemma addUnits_cases co batch w :
  let '(outcome, w') := Indexing.addUnits co batch w in
  (outcome = Ok tt
   /\ (forall r, id (heap w' r) = id (heap w r) /\ content (heap w' r) = content (heap w r))
   /\ units (index w') = Indexing.upsert_all (heap w') (units (index w)) batch
   /\ needsRebuild (index w') = true)
  \/ (exists msg, outcome = Throw (EmbeddingError msg)
      /\ heap w' = heap w /\ index w' = index w).
Proof.
  unfold Indexing.addUnits, bind, get_heap, get_index, put_heap, put_index, ret, embed.
  cbn [heap index history].
  destruct (0 <? List.length (filter (fun r => negb (Indexing.has_embedding (heap w r))) batch))%nat.
  - destruct (embed_reply co (history w) _) as [v | msg];
      cbn [heap index history log_call units needsRebuild Indexing.with_units].
    + left. repeat split; try apply attach_embeddings_keeps.
    + right. exists msg. repeat split.
  - cbn [heap index history units needsRebuild Indexing.with_units].
    left. repeat split.
Qed.

Lemma keywordSearch_keeps rt query topK w :
  heap (snd (Indexing.keywordSearch rt query topK w)) = heap w
  /\ units (index (snd (Indexing.keywordSearch rt query topK w))) = units (index w).
Proof.
  unfold Indexing.keywordSearch, Indexing.rebuildLexicalIndex,
    bind, get_index, get_heap, put_index, ret.
  destruct (needsRebuild (index w)); split; reflexivity.
Qed.

Lemma semanticSearch_keeps rt co query topK w :
  heap (snd (Indexing.semanticSearch rt co query topK w)) = heap w
  /\ index (snd (Indexing.semanticSearch rt co query topK w)) = index w.
Proof.
  unfold Indexing.semanticSearch, bind, get_index, get_heap, lift, ret, embed.
  destruct (embed_reply co (history w) [query]) as [v | msg]; cbn; [| split; reflexivity].
  destruct (Indexing.semantic_scores rt (heap w) (hd_error v)
              (JS.map_values (units (index w))) []); split; reflexivity.
Qed.

Lemma hybridSearch_keeps rt co query filter topK w :
  heap (snd (Indexing.hybridSearch rt co query filter topK w)) = heap w
  /\ units (index (snd (Indexing.hybridSearch rt co query filter topK w))) = units (index w).
Proof.
  unfold Indexing.hybridSearch, bind, get_index, get_heap, lift, Indexing.promise_all2.
  set (k := match topK with Some k => k | None => semanticTopK (config (index w)) end).
  destruct (semanticSearch_keeps rt co query (Some (k * 2)) w) as [Hh Hi].
  destruct (Indexing.semanticSearch rt co query (Some (k * 2)) w) as [rs w1].
  cbn [snd] in Hh, Hi.
  destruct (keywordSearch_keeps rt query (Some (k * 2)) w1) as [Hh' Hu'].
  destruct (Indexing.keywordSearch rt query (Some (k * 2)) w1) as [rk w2].
  cbn [snd] in Hh', Hu'. rewrite Hh, Hi in *.
  destruct rs, rk; cbn [snd]; split; assumption.
Qed.

Lemma index_wf_same w w' :
  heap w' = heap w -> units (index w') = units (index w) -> index_wf w -> index_wf w'.
Proof. unfold index_wf. intros -> ->. trivial. Qed.

Lemma addUnits_keeps_wf co batch w :
  index_wf w -> index_wf (snd (Indexing.addUnits co batch w)).
Proof.
  intros [Hm Hnd]. pose proof (addUnits_cases co batch w) as H.
  destruct (Indexing.addUnits co batch w) as [outcome w']. cbn [snd].
  destruct H as [(_ & Hheap & Hunits & _) | (msg & _ & Hheap & Hidx)].
  - unfold index_wf. rewrite Hunits. split.
    + apply upsert_all_match. eapply keys_match_ext; [| exact Hm]. apply Hheap.
    + now apply upsert_all_nodup.
  - apply (@index_wf_same w); [exact Hheap | now rewrite Hidx | now split].
Qed.

Lemma reachable_wf rt co w : reachable rt co w -> index_wf w.
Proof.
  induction 1 as [h cfg | w c Hr IH].
  - split; cbn; constructor.
  - destruct c; cbn [after].
    + now apply addUnits_keeps_wf.
    + destruct IH as [Hm Hnd]. split; cbn.
      * now apply map_delete_keeps_match.
      * now apply map_delete_keeps_nodup.
    + split; cbn; constructor.
    + apply (@index_wf_same w); [reflexivity | reflexivity | exact IH].
    + destruct (semanticSearch_keeps rt co query topK w) as [Hh Hi].
      apply (@index_wf_same w); [exact Hh | now rewrite Hi | exact IH].
    + destruct (keywordSearch_keeps rt query topK w) as [Hh Hu].
      apply (@index_wf_same w); assumption.
    + apply (@index_wf_same w); [reflexivity | reflexivity | exact IH].
    + destruct (hybridSearch_keeps rt co query filter topK w) as [Hh Hu].
      apply (@index_wf_same w); assumption.
    + exact IH.
    + exact IH.
Qed.

Lemma ids_of_values h (m : JS.Map ref) :
  keys_match h m -> List.map (fun r => id (h r)) (JS.map_values m) = JS.map_keys m.
Proof.
  unfold keys_match, JS.map_values, JS.map_keys.
  induction 1 as [| [k0 v0] m Hk Hm IH]; cbn [List.map fst snd] in *; [reflexivity |].
  now rewrite Hk, IH.
Qed.

Lemma getAllUnits_run w :
  Indexing.getAllUnits w = (Ok (JS.map_values (units (index w))), w).
Proof. reflexivity. Qed.

(** C6: unit ids are unique within an index, and re-adding a unit with an
    existing id overwrites in place, last write wins.  From any state of an
    index, after one [addUnits] whose batch holds a unit [r1] and a second
    [addUnits] whose batch holds a unit [r2] with the same id ([r2] being the
    last of its batch with that id), [getAllUnits] returns units with pairwise
    distinct ids, exactly one of them has that id, it is [r2] with its own
    content, and the second call did not move or add the entry: the keys after
    the first call, among them this id, are a prefix of the keys after the
    second. *)
Theorem readd_overwrites_in_place :
  forall (rt : Runtime) (co : Collaborators) (w w1 w2 : World)
         (batch1 batch2 pre post : list ref) (r1 r2 : ref),
    reachable rt co w ->
    Indexing.addUnits co batch1 w = (Ok tt, w1) ->
    Indexing.addUnits co batch2 w1 = (Ok tt, w2) ->
    In r1 batch1 ->
    batch2 = pre ++ r2 :: post ->
    id (heap w r2) = id (heap w r1) ->
    Forall (fun r => id (heap w r) <> id (heap w r2)) post ->
    exists us : list ref,
      Indexing.getAllUnits w2 = (Ok us, w2)
      /\ NoDup (List.map (fun r => id (heap w2 r)) us)
      /\ filter (fun r => String.eqb (id (heap w2 r)) (id (heap w r2))) us = [r2]
      /\ content (heap w2 r2) = content (heap w r2)
      /\ In (id (heap w r2)) (JS.map_keys (units (index w1)))
      /\ exists extra,
           JS.map_keys (units (index w2)) = JS.map_keys (units (index w1)) ++ extra.
Proof.
  intros rt co w w1 w2 batch1 batch2 pre post r1 r2 Hreach H1 H2 Hin1 Hsplit Hid Hpost.
  assert (Hr1 : reachable rt co w1).
  { replace w1 with (after rt co (AddUnits batch1) w) by (cbn [after]; now rewrite H1).
    now constructor. }
  assert (Hr2 : reachable rt co w2).
  { replace w2 with (after rt co (AddUnits batch2) w1) by (cbn [after]; now rewrite H2).
    now constructor. }
  destruct (reachable_wf Hr2) as [Hm2 Hnd2].
  pose proof (addUnits_cases co batch1 w) as C1. rewrite H1 in C1.
  destruct C1 as [(_ & Hheap1 & Hunits1 & _) | (msg & Habs & _)]; [| discriminate].
  pose proof (addUnits_cases co batch2 w1) as C2. rewrite H2 in C2.
  destruct C2 as [(_ & Hheap2 & Hunits2 & _) | (msg & Habs & _)]; [| discriminate].
  assert (Hids : forall r, id (heap w2 r) = id (heap w r)).
  { intros r. destruct (Hheap2 r) as [-> _]. now destruct (Hheap1 r) as [-> _]. }
  exists (JS.map_values (units (index w2))). split; [apply getAllUnits_run |].
  split; [now rewrite ids_of_values |].
  split.
  { rewrite (units_with_id _ Hm2 Hnd2), Hunits2, Hsplit, <- (Hids r2).
    rewrite upsert_all_get_last; [reflexivity |].
    eapply Forall_impl; [| exact Hpost].
    intros r Hr. now rewrite !Hids. }
  split.
  { destruct (Hheap2 r2) as [_ ->]. now destruct (Hheap1 r2) as [_ ->]. }
  split.
  { rewrite Hunits1, Hid. destruct (Hheap1 r1) as [<- _].
    now apply upsert_all_In_key. }
  rewrite Hunits2. apply upsert_all_keys_grow.
Qed.

Lemma readd_overwrites_in_place_witness :
  exists us : list ref,
    Indexing.getAllUnits
      (snd (Indexing.addUnits Fixtures.co_embed [3]
              (snd (Indexing.addUnits Fixtures.co_embed [0; 2] Fixtures.world0))))
    = (Ok us, snd (Indexing.addUnits Fixtures.co_embed [3]
                     (snd (Indexing.addUnits Fixtures.co_embed [0; 2] Fixtures.world0))))
    /\ us = [0; 3]
    /\ List.map (fun r => content (Fixtures.heap0 r)) us
       = ["Alice meets Bob at Starbucks"; "Sarah moved to Paris"].
Proof.
  set (w1 := snd (Indexing.addUnits Fixtures.co_embed [0; 2] Fixtures.world0)).
  set (w2 := snd (Indexing.addUnits Fixtures.co_embed [3] w1)).
  destruct (@readd_overwrites_in_place Fixtures.rt0 Fixtures.co_embed
              Fixtures.world0 w1 w2 [0; 2] [3] [] [] 2 3) as (us & Hget & _).
  - apply (reach_new Fixtures.rt0 Fixtures.co_embed Fixtures.heap0 DEFAULT_INDEXING_CONFIG).
  - reflexivity.
  - reflexivity.
  - cbn. tauto.
  - reflexivity.
  - reflexivity.
  - constructor.
  - exists us. split; [exact Hget |].
    rewrite getAllUnits_run in Hget. injection Hget as <-.
    split; reflexivity.
Defined.

(* ========================================================================= *)
(** * Units without an embedding *)
(* ========================================================================= *)

Lemma semantic_scores_embedded rt h q rs acc res :
  Indexing.semantic_scores rt h q rs acc = Ok res ->
  Forall (embedded h) acc -> Forall (embedded h) res.
Proof.
  revert acc. induction rs as [| r rs IH]; intros acc; cbn [Indexing.semantic_scores].
  - now intros [= <-].
  - destruct (embedding (h r)) as [e |] eqn:E; [| apply IH].
    destruct (Indexing.cosine_with rt q e) as [s | err]; [| discriminate].
    intros Hrun Hacc. apply (IH _ Hrun).
    apply Forall_app. split; [exact Hacc |].
    constructor; [| constructor]. unfold embedded. cbn. congruence.
Qed.

Lemma semantic_scores_skip rt h q (m : JS.Map ref) acc :
  Indexing.semantic_scores rt h q
    (JS.map_values (filter (fun e : string * ref => Indexing.has_embedding (h (snd e))) m)) acc
  = Indexing.semantic_scores rt h q (JS.map_values m) acc.
Proof.
  unfold JS.map_values. revert acc.
  induction m as [| [k r] m IH]; intros acc; cbn [filter List.map snd]; [reflexivity |].
  unfold Indexing.has_embedding at 1.
  destruct (embedding (h r)) as [e |] eqn:E; cbn [List.map snd Indexing.semantic_scores].
  - rewrite E. destruct (Indexing.cosine_with rt q e); [apply IH | reflexivity].
  - rewrite E. apply IH.
Qed.

Lemma semanticSearch_embedded_only rt co query topK w :
  match fst (Indexing.semanticSearch rt co query topK w) with
  | Ok res => Forall (embedded (heap w)) res
  | Throw _ => True
  end.
Proof.
  unfold Indexing.semanticSearch, bind, get_index, get_heap, lift, ret, embed.
  destruct (embed_reply co (history w) [query]) as [v | msg]; cbn; [| exact I].
  destruct (Indexing.semantic_scores rt (heap w) (hd_error v)
              (JS.map_values (units (index w))) []) as [results | err] eqn:E; cbn; [| exact I].
  pose proof (@semantic_scores_embedded _ _ _ _ _ _ E (Forall_nil _)) as Hall.
  rewrite Forall_forall in *. intros r Hr. apply Hall.
  apply (sort_In (@score ref)). eapply slice0_In, Hr.
Qed.

Lemma semanticSearch_drop_unembedded rt co query topK w :
  fst (Indexing.semanticSearch rt co query topK (drop_unembedded w))
  = fst (Indexing.semanticSearch rt co query topK w).
Proof.
  unfold Indexing.semanticSearch, bind, get_index, get_heap, lift, ret, embed.
  cbn [drop_unembedded heap index history Indexing.with_units units config].
  destruct (embed_reply co (history w) [query]) as [v | msg]; cbn [fst]; [| reflexivity].
  cbn [log_call heap index history Indexing.with_units units config].
  rewrite semantic_scores_skip.
  destruct (Indexing.semantic_scores rt (heap w) (hd_error v)
              (JS.map_values (units (index w))) []); reflexivity.
Qed.

(** C9: a memory unit with no embedding never appears in the output of
    [semanticSearch], and it is passed over in silence: the search gives what
    it gives on the index without such units, error or not.  The same unit
    may appear in the other layers: in the fixture index, object 4 carries no
    embedding and is returned by [keywordSearch], [structuredSearch] and
    [hybridSearch], and not by [semanticSearch]. *)
Theorem unembedded_unit_semantic_vs_other_searches :
  (forall (rt : Runtime) (co : Collaborators) (query : string)
          (topK : option nat) (w : World),
      match fst (Indexing.semanticSearch rt co query topK w) with
      | Ok res => Forall (fun r => embedding (heap w (unit r)) <> None) res
      | Throw _ => True
      end
      /\ fst (Indexing.semanticSearch rt co query topK w)
         = fst (Indexing.semanticSearch rt co query topK (drop_unembedded w)))
  /\ (let w := Fixtures.world_short in
      In 4 (JS.map_values (units (index w)))
      /\ embedding (heap w 4) = None
      /\ (exists res,
             fst (Indexing.keywordSearch Fixtures.rt0 "Carol lease" (Some 4) w) = Ok res
             /\ In (Some 4) (List.map (@unit _) res))
      /\ (exists res,
             fst (Indexing.structuredSearch Fixtures.rt0 Fixtures.range_only (Some 4) w)
             = Ok res
             /\ In 4 (List.map (@unit _) res))
      /\ (exists res,
             fst (Indexing.hybridSearch Fixtures.rt0 Fixtures.co_short
                    "Carol lease" None (Some 4) w) = Ok res
             /\ In 4 (List.map (@unit _) res))
      /\ (exists res,
             fst (Indexing.semanticSearch Fixtures.rt0 Fixtures.co_short
                    "Carol lease" (Some 4) w) = Ok res
             /\ ~ In 4 (List.map (@unit _) res))).
Proof.
  split.
  - intros rt co query topK w. split.
    + apply semanticSearch_embedded_only.
    + symmetry. apply semanticSearch_drop_unembedded.
  - cbv zeta. split; [vm_compute; tauto |]. split; [reflexivity |].
    split; [| split; [| split]].
    + eexists. split; [vm_compute; reflexivity |]. cbn. tauto.
    + eexists. split; [vm_compute; reflexivity |]. cbn. tauto.
    + eexists. split; [vm_compute; reflexivity |]. cbn. tauto.
    + eexists. split; [vm_compute; reflexivity |]. cbn. intuition discriminate.
Qed.

(* ========================================================================= *)
(** * Counting oracle calls and tracking errors through the monad *)
(* ========================================================================= *)

Lemma oracle_calls_log e w :
  oracle_calls (history (log_call e w))
  = oracle_calls (history w) + (if is_oracle_call e then 1 else 0).
Proof.
  unfold oracle_calls, log_call. cbn [history].
  rewrite filter_app, length_app. cbn [filter].
  destruct (is_oracle_call e); reflexivity.
Qed.

Section Combinators.

Variables A B : Type.

Lemma calls_ret (a : A) n : calls_at_most n (ret a).
Proof. intros w. cbn. lia. Qed.

Lemma calls_throw e n : calls_at_most n (@throw A e).
Proof. intros w. cbn. lia. Qed.

Lemma calls_lift (r : result A) n : calls_at_most n (lift r).
Proof. intros w. cbn. lia. Qed.

Lemma calls_weaken n m (c : M A) : n <= m -> calls_at_most n c -> calls_at_most m c.
Proof. intros Hle H w. specialize (H w). lia. Qed.

Lemma calls_bind n m (c : M A) (f : A -> M B) :
  calls_at_most n c -> (forall a, calls_at_most m (f a)) ->
  calls_at_most (n + m) (bind c f).
Proof.
  intros Hc Hf w. unfold bind. specialize (Hc w).
  destruct (c w) as [[a | e] w1]; cbn [snd] in *.
  - specialize (Hf a w1). lia.
  - lia.
Qed.

Lemma calls_try_catch n m (c : M A) (handler : error -> M A) :
  calls_at_most n c -> (forall e, calls_at_most m (handler e)) ->
  calls_at_most (n + m) (try_catch c handler).
Proof.
  intros Hc Hh w. unfold try_catch. specialize (Hc w).
  destruct (c w) as [[a | e] w1]; cbn [snd] in *.
  - lia.
  - specialize (Hh e w1). lia.
Qed.

Variable P : error -> Prop.

Lemma throws_ret (a : A) : throws_only P (ret a).
Proof. intros w e. discriminate. Qed.

Lemma throws_bind (c : M A) (f : A -> M B) :
  throws_only P c -> (forall a, throws_only P (f a)) -> throws_only P (bind c f).
Proof.
  intros Hc Hf w e. unfold bind. specialize (Hc w).
  destruct (c w) as [[a | e'] w1]; cbn [fst] in *.
  - apply Hf.
  - intros [= <-]. now apply Hc.
Qed.

(** Whatever the body throws, only the handler's errors get out. *)
Lemma throws_try_catch (c : M A) (handler : error -> M A) :
  (forall e, throws_only P (handler e)) -> throws_only P (try_catch c handler).
Proof.
  intros Hh w e. unfold try_catch.
  destruct (c w) as [[a | e'] w1]; cbn [fst].
  - discriminate.
  - apply Hh.
Qed.

End Combinators.

Lemma calls_get_heap n : calls_at_most n get_heap.
Proof. intros w. cbn. lia. Qed.

Lemma calls_get_index n : calls_at_most n get_index.
Proof. intros w. cbn. lia. Qed.

Lemma throws_get_heap P : throws_only P get_heap.
Proof. intros w e. discriminate. Qed.

Lemma throws_get_index P : throws_only P get_index.
Proof. intros w e. discriminate. Qed.

Lemma calls_llm_complete co prompt t : calls_at_most 1 (llm_complete co prompt t).
Proof.
  intros w. unfold llm_complete.
  destruct (complete_reply co (history w) prompt t); cbn [snd];
    rewrite oracle_calls_log; cbn; lia.
Qed.

Lemma calls_llm_completeJSON T (rep : list event -> string -> reply T) prompt :
  calls_at_most 1 (llm_completeJSON rep prompt).
Proof.
  intros w. unfold llm_completeJSON.
  destruct (rep (history w) prompt); cbn [snd]; rewrite oracle_calls_log; cbn; lia.
Qed.

Lemma calls_embed co texts : calls_at_most 0 (embed co texts).
Proof.
  intros w. unfold embed.
  destruct (embed_reply co (history w) texts); cbn [snd]; rewrite oracle_calls_log; cbn; lia.
Qed.

Lemma throws_embed co texts : throws_only index_error (embed co texts).
Proof.
  intros w e. unfold embed.
  destruct (embed_reply co (history w) texts); cbn [fst]; [discriminate |].
  intros [= <-]. exact I.
Qed.

Lemma calls_put_index n i : calls_at_most n (put_index i).
Proof. intros w. cbn [put_index snd history]. lia. Qed.

Lemma throws_put_index P i : throws_only P (put_index i).
Proof. intros w e. discriminate. Qed.

Lemma throws_lift_ok A P (a : A) : throws_only P (lift (Ok a)).
Proof. intros w e. discriminate. Qed.

Lemma semantic_scores_throws rt h q rs acc e :
  Indexing.semantic_scores rt h q rs acc = Throw e -> index_error e.
Proof.
  revert acc. induction rs as [| r rs IH]; intros acc; cbn [Indexing.semantic_scores].
  - discriminate.
  - destruct (embedding (h r)) as [v |]; [| apply IH].
    destruct (Indexing.cosine_with rt q v) as [s | err] eqn:E; [apply IH |].
    intros [= <-]. unfold Indexing.cosine_with, Similarity.cosineSimilarity in E.
    destruct q as [qv |]; [| now injection E as <-].
    destruct (negb (List.length qv =? List.length v)%nat); [now injection E as <- |].
    destruct (Similarity.cosine_sums qv v (0, 0, 0)%Q) as [[d na] nb].
    destruct (Qeq_bool (Math_sqrt rt na) 0 || Qeq_bool (Math_sqrt rt nb) 0); discriminate.
Qed.

Lemma lexical_scores_throws h mx rs m e :
  Indexing.lexical_scores h mx rs m = Throw e -> index_error e.
Proof.
  revert m. induction rs as [| r rs IH]; intros m; cbn [Indexing.lexical_scores].
  - discriminate.
  - destruct (unit r); [apply IH |]. now intros [= <-].
Qed.

Section IndexEffects.

Variable rt : Runtime.
Variable co : Collaborators.

Lemma calls_semanticSearch query topK :
  calls_at_most 0 (Indexing.semanticSearch rt co query topK).
Proof.
  unfold Indexing.semanticSearch.
  apply (@calls_bind _ _ 0 0); [apply calls_get_index | intros i].
  apply (@calls_bind _ _ 0 0); [apply calls_embed | intros embedded].
  apply (@calls_bind _ _ 0 0); [apply calls_get_heap | intros h].
  apply (@calls_bind _ _ 0 0); [apply calls_lift | intros results].
  apply calls_ret.
Qed.

Lemma throws_semanticSearch query topK :
  throws_only index_error (Indexing.semanticSearch rt co query topK).
Proof.
  unfold Indexing.semanticSearch.
  apply throws_bind; [apply throws_get_index | intros i].
  apply throws_bind; [apply throws_embed | intros embedded].
  apply throws_bind; [apply throws_get_heap | intros h].
  apply throws_bind; [| intros results; apply throws_ret].
  intros w e. cbn [lift fst]. apply semantic_scores_throws.
Qed.

Lemma calls_rebuildLexicalIndex : calls_at_most 0 (Indexing.rebuildLexicalIndex rt).
Proof.
  unfold Indexing.rebuildLexicalIndex.
  apply (@calls_bind _ _ 0 0); [apply calls_get_heap | intros h].
  apply (@calls_bind _ _ 0 0); [apply calls_get_index | intros i].
  apply calls_put_index.
Qed.

Lemma throws_rebuildLexicalIndex P : throws_only P (Indexing.rebuildLexicalIndex rt).
Proof.
  unfold Indexing.rebuildLexicalIndex.
  apply throws_bind; [apply throws_get_heap | intros h].
  apply throws_bind; [apply throws_get_index | intros i].
  apply throws_put_index.
Qed.

Lemma calls_keywordSearch query topK :
  calls_at_most 0 (Indexing.keywordSearch rt query topK).
Proof.
  unfold Indexing.keywordSearch.
  apply (@calls_bind _ _ 0 0); [apply calls_get_index | intros i0].
  apply (@calls_bind _ _ 0 0).
  { destruct (needsRebuild i0); [apply calls_rebuildLexicalIndex | apply calls_ret]. }
  intros _.
  apply (@calls_bind _ _ 0 0); [apply calls_get_index | intros i].
  apply calls_ret.
Qed.

Lemma throws_keywordSearch P query topK :
  throws_only P (Indexing.keywordSearch rt query topK).
Proof.
  unfold Indexing.keywordSearch.
  apply throws_bind; [apply throws_get_index | intros i0].
  apply throws_bind.
  { destruct (needsRebuild i0); [apply throws_rebuildLexicalIndex | apply throws_ret]. }
  intros _.
  apply throws_bind; [apply throws_get_index | intros i].
  apply throws_ret.
Qed.

Lemma calls_promise_all2 A B n m (p : M A) (c : M B) :
  calls_at_most n p -> calls_at_most m c ->
  calls_at_most (n + m) (Indexing.promise_all2 p c).
Proof.
  intros Hp Hc w. unfold Indexing.promise_all2. specialize (Hp w).
  destruct (p w) as [ra w1]. specialize (Hc w1).
  destruct (c w1) as [rb w2]. cbn [snd] in *.
  destruct ra, rb; cbn [snd]; lia.
Qed.

Lemma throws_promise_all2 A B P (p : M A) (c : M B) :
  throws_only P p -> throws_only P c -> throws_only P (Indexing.promise_all2 p c).
Proof.
  intros Hp Hc w e. unfold Indexing.promise_all2. specialize (Hp w).
  destruct (p w) as [ra w1]. specialize (Hc w1).
  destruct (c w1) as [rb w2]. cbn [fst] in *.
  destruct ra, rb; cbn [fst]; try discriminate; intros [= <-]; auto.
Qed.

Lemma calls_hybridSearch query filter topK :
  calls_at_most 0 (Indexing.hybridSearch rt co query filter topK).
Proof.
  unfold Indexing.hybridSearch.
  apply (@calls_bind _ _ 0 0); [apply calls_get_index | intros i0].
  apply (@calls_bind _ _ 0 0).
  { apply (@calls_promise_all2 _ _ 0 0);
      [apply calls_semanticSearch | apply calls_keywordSearch]. }
  intros [sem kw].
  apply (@calls_bind _ _ 0 0); [apply calls_get_heap | intros h].
  apply (@calls_bind _ _ 0 0); [apply calls_get_index | intros i].
  apply calls_lift.
Qed.

Lemma throws_hybridSearch query filter topK :
  throws_only index_error (Indexing.hybridSearch rt co query filter topK).
Proof.
  unfold Indexing.hybridSearch.
  apply throws_bind; [apply throws_get_index | intros i0].
  apply throws_bind.
  { apply throws_promise_all2; [apply throws_semanticSearch | apply throws_keywordSearch]. }
  intros [sem kw].
  apply throws_bind; [apply throws_get_heap | intros h].
  apply throws_bind; [apply throws_get_index | intros i].
  intros w e. cbn [lift fst]. unfold Indexing.hybrid_merge.
  destruct (Indexing.lexical_scores h _ kw []) as [lex | e'] eqn:E; [discriminate |].
  intros [= <-]. eapply lexical_scores_throws, E.
Qed.

End IndexEffects.

(* ========================================================================= *)
(** * The reflection loop *)
(* ========================================================================= *)

Section Reflection.

Variable rt : Runtime.
Variable co : Collaborators.

Lemma calls_checkAdequacy query contexts :
  calls_at_most 1 (Retrieval.checkAdequacy co query contexts).
Proof.
  unfold Retrieval.checkAdequacy.
  destruct (List.length contexts =? 0)%nat; [apply calls_ret |].
  destruct (10 <=? List.length contexts)%nat; [apply calls_ret |].
  apply (@calls_bind _ _ 0 1); [apply calls_get_heap | intros h].
  apply (@calls_try_catch _ 1 0); [| intros e; apply calls_ret].
  apply (@calls_bind _ _ 1 0); [apply calls_llm_complete | intros s; apply calls_ret].
Qed.

Lemma throws_checkAdequacy P query contexts :
  throws_only P (Retrieval.checkAdequacy co query contexts).
Proof.
  unfold Retrieval.checkAdequacy.
  destruct (List.length contexts =? 0)%nat; [apply throws_ret |].
  destruct (10 <=? List.length contexts)%nat; [apply throws_ret |].
  apply throws_bind; [apply throws_get_heap | intros h].
  apply throws_try_catch. intros e. apply throws_ret.
Qed.

Lemma calls_generateAdditionalQueries query contexts :
  calls_at_most 1 (Retrieval.generateAdditionalQueries rt co query contexts).
Proof.
  unfold Retrieval.generateAdditionalQueries.
  apply (@calls_bind _ _ 0 1); [apply calls_get_heap | intros h].
  apply (@calls_try_catch _ 1 0); [| intros e; apply calls_ret].
  apply (@calls_bind _ _ 1 0); [apply calls_llm_complete | intros s].
  apply (@calls_bind _ _ 0 0).
  - unfold Retrieval.JSON_parse_or_throw.
    destruct (JSON_parse rt (JS.trim s)); [apply calls_ret | apply calls_throw].
  - intros parsed. destruct parsed; apply calls_ret.
Qed.

Lemma throws_generateAdditionalQueries P query contexts :
  throws_only P (Retrieval.generateAdditionalQueries rt co query contexts).
Proof.
  unfold Retrieval.generateAdditionalQueries.
  apply throws_bind; [apply throws_get_heap | intros h].
  apply throws_try_catch. intros e. apply throws_ret.
Qed.

Lemma calls_additional_searches queries acc :
  calls_at_most 0 (Retrieval.additional_searches rt co queries acc).
Proof.
  revert acc. induction queries as [| q queries IH]; intros acc;
    cbn [Retrieval.additional_searches]; [apply calls_ret |].
  apply (@calls_bind _ _ 0 0); [apply calls_hybridSearch | intros results].
  apply (@calls_bind _ _ 0 0); [apply calls_get_heap | intros h]. apply IH.
Qed.

Lemma throws_additional_searches queries acc :
  throws_only index_error (Retrieval.additional_searches rt co queries acc).
Proof.
  revert acc. induction queries as [| q queries IH]; intros acc;
    cbn [Retrieval.additional_searches]; [apply throws_ret |].
  apply throws_bind; [apply throws_hybridSearch | intros results].
  apply throws_bind; [apply throws_get_heap | intros h]. apply IH.
Qed.

(** One pass of the loop costs at most two calls to the LLM; the number of
    passes entered grows by at most the number of rounds left. *)
Lemma reflection_loop_bound rounds query allUnits seenIds entered w :
  let '(outcome, w') :=
    Retrieval.reflection_loop rt co rounds query allUnits seenIds entered w in
  oracle_calls (history w') <= oracle_calls (history w) + 2 * rounds
  /\ match outcome with
     | Ok (_, n) =>
         entered <= n /\ n <= entered + rounds
         /\ oracle_calls (history w') <= oracle_calls (history w) + 2 * (n - entered)
     | Throw e => index_error e
     end.
Proof.
  revert allUnits seenIds entered w.
  induction rounds as [| rounds IH]; intros allUnits seenIds entered w;
    cbn [Retrieval.reflection_loop].
  - cbn. repeat split; lia.
  - unfold bind at 1.
    pose proof (calls_checkAdequacy query allUnits w) as Hc1.
    pose proof (@throws_checkAdequacy (fun _ => False) query allUnits w) as Ht1.
    destruct (Retrieval.checkAdequacy co query allUnits w) as [[isAdequate | e] w1];
      cbn [fst snd] in *; [| destruct (Ht1 e eq_refl)].
    destruct isAdequate.
    { cbn [ret]. repeat split; lia. }
    unfold bind at 1.
    pose proof (calls_generateAdditionalQueries query allUnits w1) as Hc2.
    pose proof (@throws_generateAdditionalQueries (fun _ => False) query allUnits w1) as Ht2.
    destruct (Retrieval.generateAdditionalQueries rt co query allUnits w1)
      as [[additionalQueries | e] w2]; cbn [fst snd] in *; [| destruct (Ht2 e eq_refl)].
    destruct (List.length additionalQueries =? 0)%nat.
    { cbn [ret]. repeat split; lia. }
    unfold bind at 1.
    pose proof (calls_additional_searches additionalQueries (allUnits, seenIds) w2) as Hc3.
    pose proof (@throws_additional_searches additionalQueries (allUnits, seenIds) w2) as Ht3.
    destruct (Retrieval.additional_searches rt co additionalQueries (allUnits, seenIds) w2)
      as [[acc | e] w3]; cbn [fst snd] in *.
    + specialize (IH (fst acc) (snd acc) (S entered) w3).
      destruct (Retrieval.reflection_loop rt co rounds query (fst acc) (snd acc) (S entered) w3)
        as [[[us n] | e] w4].
      * destruct IH as (H1 & H2 & H3 & H4). repeat split; lia.
      * destruct IH as (H1 & H2). split; [lia | exact H2].
    + split; [lia | now apply Ht3].
Qed.

End Reflection.

(** C8, as stated, does not hold for the calls to the LLM: with
    [maxReflectionRounds = 1] and an LLM that answers "no" to the adequacy
    check, the single round makes two calls, the adequacy check and the
    request for follow-up queries. *)
Lemma one_round_two_oracle_calls :
  ~ (forall (rt : Runtime) (co : Collaborators) (rconfig : RetrievalConfig)
            (query : string) (initial : list ref) (w : World),
        oracle_calls (history (snd (Retrieval.reflectionSearch rt co rconfig query initial w)))
        <= oracle_calls (history w) + maxReflectionRounds rconfig).
Proof.
  intros H.
  specialize (H Fixtures.rt0 Fixtures.co_inadequate one_round
                "What does Bob bring?" [0] Fixtures.world_embedded).
  vm_compute in H. lia.
Qed.

(** C8 (amended): the reflection loop enters at most [maxReflectionRounds]
    iterations, whatever the verdicts of the LLM; each iteration makes at most
    two calls to the LLM (one adequacy check, one request for follow-up
    queries), so a reflection makes at most [2 * maxReflectionRounds] calls to
    the LLM, and at most twice the number of iterations it entered. *)
Theorem reflection_rounds_and_calls_bounded :
  forall (rt : Runtime) (co : Collaborators) (rconfig : RetrievalConfig)
         (query : string) (initial : list ref) (w : World),
    let rounds := maxReflectionRounds rconfig in
    let seenIds := JS.set_of_list (List.map (fun u => id (heap w u)) initial) in
    (let '(outcome, w') :=
       Retrieval.reflection_loop rt co rounds query initial seenIds 0 w in
     match outcome with
     | Ok (_, entered) =>
         entered <= rounds
         /\ oracle_calls (history w') <= oracle_calls (history w) + 2 * entered
     | Throw _ => True
     end)
    /\ oracle_calls (history (snd (Retrieval.reflectionSearch rt co rconfig query initial w)))
       <= oracle_calls (history w) + 2 * rounds.
Proof.
  intros rt co rconfig query initial w rounds seenIds.
  pose proof (reflection_loop_bound rt co rounds query initial seenIds 0 w) as H.
  unfold Retrieval.reflectionSearch, bind, get_heap, ret. cbn [heap].
  fold rounds. fold seenIds.
  destruct (Retrieval.reflection_loop rt co rounds query initial seenIds 0 w)
    as [[[us n] | e] w'].
  - destruct H as (H1 & H2 & H3 & H4). cbn [snd]. repeat split; lia.
  - destruct H as (H1 & _). cbn [snd]. split; [exact I | lia].
Qed.

(* ========================================================================= *)
(** * Oracle failures during reflection *)
(* ========================================================================= *)

Section OracleFailures.

Variable rt : Runtime.
Variable co : Collaborators.

Lemma checkAdequacy_oracle_rejects query contexts w msg :
  0 < List.length contexts < 10 ->
  complete_reply co (history w) (adequacy_prompt (heap w) query contexts) (1 # 10)
  = Rejects msg ->
  Retrieval.checkAdequacy co query contexts w
  = (Ok true, log_call (CompleteCall (adequacy_prompt (heap w) query contexts) (1 # 10)) w).
Proof.
  intros [Hpos Hlt] Hrej. unfold Retrieval.checkAdequacy.
  destruct (Nat.eqb_spec (List.length contexts) 0) as [E | _]; [lia |].
  destruct (Nat.leb_spec 10 (List.length contexts)) as [E | _]; [lia |].
  unfold bind, get_heap, try_catch, llm_complete, ret. cbn [heap].
  fold (adequacy_prompt (heap w) query contexts). now rewrite Hrej.
Qed.

Lemma generateAdditionalQueries_oracle_fails query contexts w :
  proposal_fails rt co w query contexts ->
  Retrieval.generateAdditionalQueries rt co query contexts w
  = (Ok [], log_call (CompleteCall (proposal_prompt (heap w) query contexts) (3 # 10)) w).
Proof.
  intros Hfail. unfold Retrieval.generateAdditionalQueries.
  unfold bind, get_heap, try_catch, llm_complete, ret, Retrieval.JSON_parse_or_throw, throw.
  cbn [heap]. fold (proposal_prompt (heap w) query contexts).
  destruct Hfail as [[msg Hrej] | (s & Hres & Hparse)].
  - now rewrite Hrej.
  - now rewrite Hres, Hparse.
Qed.

Variable rconfig : RetrievalConfig.

Lemma throws_analyzeQuery P query :
  throws_only P (Retrieval.analyzeQuery co query).
Proof.
  unfold Retrieval.analyzeQuery. apply throws_try_catch. intros e. apply throws_ret.
Qed.

Lemma throws_reflectionSearch query initial :
  throws_only index_error (Retrieval.reflectionSearch rt co rconfig query initial).
Proof.
  intros w e. unfold Retrieval.reflectionSearch, bind, get_heap, ret. cbn [heap].
  pose proof (reflection_loop_bound rt co (maxReflectionRounds rconfig) query initial
                (JS.set_of_list (List.map (fun u => id (heap w u)) initial)) 0 w) as H.
  destruct (Retrieval.reflection_loop rt co (maxReflectionRounds rconfig) query initial
              (JS.set_of_list (List.map (fun u => id (heap w u)) initial)) 0 w)
    as [[out | e'] w']; cbn [fst].
  - discriminate.
  - intros [= <-]. apply H.
Qed.

Lemma throws_retrieve query :
  throws_only index_error (Retrieval.retrieve rt co rconfig query).
Proof.
  unfold Retrieval.retrieve.
  apply throws_bind.
  { destruct (enablePlanning rconfig); [| apply throws_ret].
    apply throws_bind; [apply throws_analyzeQuery | intros a; apply throws_ret]. }
  intros [analysis filter].
  apply throws_bind; [apply throws_hybridSearch | intros results].
  apply throws_bind.
  { destruct (enableReflection rconfig && _);
      [apply throws_reflectionSearch | apply throws_ret]. }
  intros allUnits.
  apply throws_bind; [apply throws_get_heap | intros h]. apply throws_ret.
Qed.

End OracleFailures.

(** C10: (1) if the LLM call of the adequacy check throws, [checkAdequacy]
    returns [true] and the reflection loop stops in that round with the units
    it holds; (2) if the LLM call that proposes follow-up queries throws, or
    returns text that [JSON.parse] rejects, [generateAdditionalQueries] returns
    the empty list and the loop stops in that round; (3) hence no failure of
    the LLM gets out of [retrieve]: every error it throws is an error of the
    index (embedding provider, vector dimensions, undefined unit), never an
    [OracleError] or a [SyntaxError]. *)
Theorem oracle_failures_stop_reflection :
  forall (rt : Runtime) (co : Collaborators) (rconfig : RetrievalConfig),
    (forall (query : string) (held : list ref) (w : World) (msg : string)
            (rounds : nat) (seenIds : list string) (entered : nat),
        0 < List.length held < 10 ->
        complete_reply co (history w) (adequacy_prompt (heap w) query held) (1 # 10)
        = Rejects msg ->
        let w' := log_call (CompleteCall (adequacy_prompt (heap w) query held) (1 # 10)) w in
        Retrieval.checkAdequacy co query held w = (Ok true, w')
        /\ Retrieval.reflection_loop rt co (S rounds) query held seenIds entered w
           = (Ok (held, S entered), w'))
    /\ (forall (query : string) (held : list ref) (w w1 : World)
               (rounds : nat) (seenIds : list string) (entered : nat),
           Retrieval.checkAdequacy co query held w = (Ok false, w1) ->
           proposal_fails rt co w1 query held ->
           let w' := log_call (CompleteCall (proposal_prompt (heap w1) query held) (3 # 10)) w1 in
           Retrieval.generateAdditionalQueries rt co query held w1 = (Ok [], w')
           /\ Retrieval.reflection_loop rt co (S rounds) query held seenIds entered w
              = (Ok (held, S entered), w'))
    /\ (forall (query : string) (w : World) (e : error),
           fst (Retrieval.retrieve rt co rconfig query w) = Throw e ->
           index_error e /\ (forall msg, e <> OracleError msg) /\ e <> SyntaxError).
Proof.
  intros rt co rconfig. split; [| split].
  - intros query held w msg rounds seenIds entered Hlen Hrej w'.
    pose proof (checkAdequacy_oracle_rejects co query held w Hlen Hrej) as Hc.
    split; [exact Hc |].
    cbn [Retrieval.reflection_loop]. unfold bind at 1. now rewrite Hc.
  - intros query held w w1 rounds seenIds entered Hc Hfail w'.
    pose proof (generateAdditionalQueries_oracle_fails Hfail) as Hg.
    split; [exact Hg |].
    cbn [Retrieval.reflection_loop]. unfold bind at 1. rewrite Hc.
    unfold bind at 1. now rewrite Hg.
  - intros query w e He.
    pose proof (throws_retrieve rt co rconfig query w He) as Hi.
    split; [exact Hi |]. split.
    + intros msg ->. exact Hi.
    + intros ->. exact Hi.
Qed.

Lemma oracle_failures_stop_reflection_witness :
  let w := Fixtures.world_embedded in
  let q := "What does Bob bring?" in
  Retrieval.reflection_loop Fixtures.rt0 Fixtures.co_embed 2 q [0] ["u0"] 0 w
  = (Ok ([0], 1), log_call (CompleteCall (adequacy_prompt (heap w) q [0]) (1 # 10)) w)
  /\ Retrieval.reflection_loop Fixtures.rt0 Fixtures.co_prose 2 q [0] ["u0"] 0 w
     = (Ok ([0], 1),
        log_call (CompleteCall (proposal_prompt (heap w) q [0]) (3 # 10))
          (log_call (CompleteCall (adequacy_prompt (heap w) q [0]) (1 # 10)) w))
  /\ index_error (EmbeddingError "embeddings down").
Proof.
  intros w q. split; [| split].
  - destruct (oracle_failures_stop_reflection Fixtures.rt0 Fixtures.co_embed
                DEFAULT_RETRIEVAL_CONFIG) as (H1 & _ & _).
    apply (H1 q [0] w "llm down" 1 ["u0"] 0).
    + cbn. lia.
    + reflexivity.
  - destruct (oracle_failures_stop_reflection Fixtures.rt0 Fixtures.co_prose
                DEFAULT_RETRIEVAL_CONFIG) as (_ & H2 & _).
    apply (H2 q [0] w
             (log_call (CompleteCall (adequacy_prompt (heap w) q [0]) (1 # 10)) w)
             1 ["u0"] 0).
    + reflexivity.
    + right. exists "I am not sure.". split; reflexivity.
  - destruct (oracle_failures_stop_reflection Fixtures.rt0 Fixtures.co_down
                DEFAULT_RETRIEVAL_CONFIG) as (_ & _ & H3).
    apply (H3 q Fixtures.world0 (EmbeddingError "embeddings down")).
    reflexivity.
Defined.

(* ========================================================================= *)
(** * Vector scorers: dimensions and symmetry *)
(* ========================================================================= *)

Lemma Qmult_swap (x y : Q) : (x * y)%Q = (y * x)%Q.
Proof.
  unfold Qmult. f_equal; [apply Z.mul_comm | apply Pos.mul_comm].
Qed.

Lemma cosine_sums_swap a b d na nb :
  Similarity.cosine_sums b a (d, nb, na)
  = (let '(d', na', nb') := Similarity.cosine_sums a b (d, na, nb) in (d', nb', na')).
Proof.
  revert b d na nb. induction a as [| x a IH]; intros [| y b] d na nb;
    cbn [Similarity.cosine_sums]; try reflexivity.
  rewrite (Qmult_swap y x). apply IH.
Qed.

(** X1: [cosineSimilarity] either returns for both orders of its arguments, with
    the same value, the vectors having the same length; or it throws for both
    orders, the lengths being different and reported in the order of the
    arguments. *)
Theorem cosineSimilarity_symmetric_or_mismatch :
  forall (rt : Runtime) (a b : vec),
    match Similarity.cosineSimilarity rt a b, Similarity.cosineSimilarity rt b a with
    | Ok x, Ok y => x = y /\ List.length a = List.length b
    | Throw e, Throw e' =>
        e = DimensionMismatch (List.length a) (List.length b)
        /\ e' = DimensionMismatch (List.length b) (List.length a)
        /\ List.length a <> List.length b
    | _, _ => False
    end.
Proof.
  intros rt a b. unfold Similarity.cosineSimilarity.
  rewrite (Nat.eqb_sym (List.length b) (List.length a)).
  destruct (Nat.eqb_spec (List.length a) (List.length b)) as [E | NE]; cbn [negb].
  - rewrite (cosine_sums_swap a b 0%Q 0%Q 0%Q).
    destruct (Similarity.cosine_sums a b (0, 0, 0)%Q) as [[d na] nb].
    rewrite (orb_comm (Qeq_bool (Math_sqrt rt nb) 0)).
    destruct (Qeq_bool (Math_sqrt rt na) 0 || Qeq_bool (Math_sqrt rt nb) 0).
    + split; [reflexivity | exact E].
    + split; [| exact E]. now rewrite (Qmult_swap (Math_sqrt rt nb)).
  - repeat split; assumption.
Qed.

Lemma square_diff_swap (x y : Q) : ((x - y) * (x - y))%Q = ((y - x) * (y - x))%Q.
Proof.
  destruct x as [xn xd], y as [yn yd].
  unfold Qminus, Qplus, Qopp, Qmult. cbn [Qnum Qden]. f_equal.
  - ring.
  - f_equal; apply Pos.mul_comm.
Qed.

Lemma euclid_sum_swap a b s : Similarity.euclid_sum b a s = Similarity.euclid_sum a b s.
Proof.
  revert b s. induction a as [| x a IH]; intros [| y b] s;
    cbn [Similarity.euclid_sum]; try reflexivity.
  rewrite (square_diff_swap y x). apply IH.
Qed.

Lemma euclid_sum_self a s : (Similarity.euclid_sum a a s == s)%Q.
Proof.
  revert s. induction a as [| x a IH]; intros s; cbn [Similarity.euclid_sum].
  - reflexivity.
  - rewrite IH. ring.
Qed.

(** X2: [euclideanDistance] throws exactly when the lengths differ, gives the same
    value for both orders of its arguments, and the distance of a vector to itself
    is the square root of a sum equal to zero. *)
Theorem euclideanDistance_symmetric_or_mismatch :
  forall (rt : Runtime) (a b : vec),
    match Similarity.euclideanDistance rt a b, Similarity.euclideanDistance rt b a with
    | Ok x, Ok y => x = y /\ List.length a = List.length b
    | Throw e, Throw e' =>
        e = DimensionMismatch (List.length a) (List.length b)
        /\ e' = DimensionMismatch (List.length b) (List.length a)
        /\ List.length a <> List.length b
    | _, _ => False
    end
    /\ exists s, Similarity.euclideanDistance rt a a = Ok (Math_sqrt rt s) /\ (s == 0)%Q.
Proof.
  intros rt a b. unfold Similarity.euclideanDistance. split.
  - rewrite (Nat.eqb_sym (List.length b) (List.length a)).
    destruct (Nat.eqb_spec (List.length a) (List.length b)) as [E | NE]; cbn [negb].
    + split; [| exact E]. now rewrite euclid_sum_swap.
    + repeat split; assumption.
  - rewrite Nat.eqb_refl. cbn [negb]. eexists. split; [reflexivity |].
    apply euclid_sum_self.
Qed.

(* ========================================================================= *)
(** * BM25: what [score] and [topK] return *)
(* ========================================================================= *)

Lemma sort_insert_perm A (cmp : A -> A -> Q) x l :
  Permutation (JS.sort_insert cmp x l) (x :: l).
Proof.
  induction l as [| y l IH]; cbn [JS.sort_insert]; [reflexivity |].
  destruct (cmp x y ?= 0)%Q; try reflexivity.
  rewrite IH. apply perm_swap.
Qed.

Lemma sort_perm A (cmp : A -> A -> Q) l : Permutation (JS.sort cmp l) l.
Proof.
  unfold JS.sort. induction l as [| x l IH]; cbn [fold_right]; [reflexivity |].
  rewrite sort_insert_perm. now constructor.
Qed.

Lemma NoDup_firstn A k (l : list A) : NoDup l -> NoDup (firstn k l).
Proof.
  intros H. rewrite <- (firstn_skipn k l) in H. now apply NoDup_app_remove_r in H.
Qed.

Lemma NoDup_map_filter A B (f : A -> B) (p : A -> bool) l :
  NoDup (List.map f l) -> NoDup (List.map f (filter p l)).
Proof.
  induction l as [| x l IH]; cbn [List.map filter]; [trivial |].
  intros H. inversion H as [| ? ? Hnotin Hnd]; subst.
  destruct (p x); cbn [List.map]; [| now apply IH].
  constructor; [| now apply IH].
  intros Hin. apply Hnotin. apply in_map_iff in Hin. destruct Hin as (y & <- & Hy).
  apply in_map. now apply filter_In in Hy.
Qed.

Lemma mapi_from_fst A (n : nat) (l : list A) :
  List.map fst (JS.mapi_from n (fun x i => (i, x)) l) = seq n (List.length l).
Proof.
  revert n. induction l as [| x l IH]; intros n; cbn; [reflexivity |].
  now rewrite IH.
Qed.

Lemma mapi_from_In A (n : nat) (l : list A) i x :
  In (i, x) (JS.mapi_from n (fun x i => (i, x)) l) ->
  n <= i /\ nth_error l (i - n) = Some x.
Proof.
  revert n. induction l as [| y l IH]; intros n; cbn [JS.mapi_from In]; [tauto |].
  intros [[= <- <-] | Hin].
  - split; [lia |]. now rewrite Nat.sub_diag.
  - apply IH in Hin. destruct Hin as [Hle Hnth]. split; [lia |].
    replace (i - n) with (S (i - S n)) by lia. exact Hnth.
Qed.

Lemma mapi_from_filter_length A (n : nat) (p : A -> bool) (l : list A) :
  List.length (filter (fun q : nat * A => p (snd q)) (JS.mapi_from n (fun x i => (i, x)) l))
  = List.length (filter p l).
Proof.
  revert n. induction l as [| y l IH]; intros n; cbn [JS.mapi_from filter snd]; [reflexivity |].
  destruct (p y); cbn [List.length]; now rewrite IH.
Qed.

Lemma positive_spec s : positive s = true <-> (0 < s)%Q.
Proof.
  unfold positive. rewrite negb_true_iff. split.
  - intros H. apply Qnot_le_lt. intros Hle. apply Qle_bool_iff in Hle. congruence.
  - intros H. destruct (Qle_bool s 0) eqn:E; [| reflexivity].
    apply Qle_bool_iff in E. lra.
Qed.

Lemma topK_In bm query k i s :
  In (i, s) (Similarity.topK bm query k) ->
  nth_error (Similarity.score bm query) i = Some s /\ (0 < s)%Q.
Proof.
  unfold Similarity.topK, JS.mapi. intros Hin.
  apply slice0_In in Hin.
  apply (Permutation_in _ (sort_perm _ _)) in Hin.
  apply filter_In in Hin. destruct Hin as [Hin Hpos]. cbn [fst snd] in *.
  apply mapi_from_In in Hin. destruct Hin as [_ Hnth].
  rewrite Nat.sub_0_r in Hnth. split; [exact Hnth |].
  now apply positive_spec.
Qed.

Lemma topK_bounded_sorted bm query k :
  List.length (Similarity.topK bm query k) <= k
  /\ StronglySorted (fun a b0 : nat * Q => (snd b0 <= snd a)%Q) (Similarity.topK bm query k).
Proof.
  unfold Similarity.topK. split.
  - apply slice0_length.
  - unfold JS.slice0. apply (firstn_sorted (key := @snd nat Q)).
    apply (sort_sorted (@snd nat Q)).
Qed.

(** X3: [topK] returns at most [k] pairs, as many as there are documents with a
    positive score when these are fewer; every pair is a document index with the
    score [score] gives that document, which is positive; no index is returned
    twice; and the scores never increase along the list. *)
Theorem topK_returns_best_positive_documents :
  forall (bm : Similarity.BM25Scorer) (query : string) (k : nat),
    let res := Similarity.topK bm query k in
    List.length res = Nat.min k (List.length (filter positive (Similarity.score bm query)))
    /\ Forall (fun p : nat * Q =>
                 nth_error (Similarity.score bm query) (fst p) = Some (snd p)
                 /\ (0 < snd p)%Q) res
    /\ NoDup (List.map fst res)
    /\ StronglySorted (fun a b0 : nat * Q => (snd b0 <= snd a)%Q) res.
Proof.
  intros bm query k res. unfold res, Similarity.topK, JS.slice0, JS.mapi.
  set (scores := Similarity.score bm query).
  set (pairs := JS.mapi_from 0 (fun (score : Q) (index : nat) => (index, score)) scores).
  set (kept := filter (fun p : nat * Q => negb (Qle_bool (snd p) 0)) pairs).
  split; [| split; [| split]].
  - rewrite length_firstn. change (JS.sort _ kept) with (JS.sort (desc_cmp snd) kept).
    rewrite sort_length. unfold kept, pairs.
    f_equal. exact (mapi_from_filter_length 0 positive scores).
  - apply Forall_forall. intros [i s] Hin. cbn [fst snd].
    now apply (topK_In bm query k).
  - rewrite <- firstn_map. apply NoDup_firstn.
    eapply Permutation_NoDup.
    + apply Permutation_map. symmetry. apply sort_perm.
    + apply NoDup_map_filter. unfold pairs. rewrite mapi_from_fst. apply seq_NoDup.
  - apply (firstn_sorted (key := @snd nat Q)).
    apply (sort_sorted (@snd nat Q)).
Qed.

Lemma termScore_absent bm doc term :
  ~ In term doc -> Similarity.termScore bm doc term = 0%Q.
Proof.
  intros Hnot. unfold Similarity.termScore.
  fold (get_or_0 (Similarity.termFreq doc) term).
  rewrite termFreq_count.
  rewrite (proj1 (count_occ_not_In string_dec doc term) Hnot). reflexivity.
Qed.

Lemma sum_termScore_zero bm doc terms acc :
  (forall t, In t terms -> ~ In t doc) ->
  (fold_left (fun score term => (score + Similarity.termScore bm doc term)%Q) terms acc
   == acc)%Q.
Proof.
  revert acc. induction terms as [| t terms IH]; intros acc Hall; cbn [fold_left].
  - reflexivity.
  - rewrite IH by (intros t' Ht'; apply Hall; now right).
    rewrite termScore_absent by (apply Hall; now left). ring.
Qed.

(** X4: a document that contains none of the terms of the query gets the score 0,
    whatever the state of the scorer, and [topK] never returns it. *)
Theorem no_common_term_scores_zero :
  forall (bm : Similarity.BM25Scorer) (query : string) (i : nat) (doc : list string) (k : nat),
    nth_error (Similarity.documents bm) i = Some doc ->
    (forall t, In t (Similarity.tokenize query) -> ~ In t doc) ->
    (exists s, nth_error (Similarity.score bm query) i = Some s /\ (s == 0)%Q)
    /\ ~ In i (List.map fst (Similarity.topK bm query k)).
Proof.
  intros bm query i doc k Hdoc Hnone.
  assert (Hs : exists s, nth_error (Similarity.score bm query) i = Some s /\ (s == 0)%Q).
  { unfold Similarity.score. rewrite nth_error_map, Hdoc. cbn [option_map].
    eexists. split; [reflexivity |]. now apply sum_termScore_zero. }
  split; [exact Hs |].
  intros Hin. apply in_map_iff in Hin. destruct Hin as ([j s'] & Hj & Hin).
  cbn [fst] in Hj. subst j.
  destruct (topK_In _ _ _ _ _ Hin) as [Hnth Hpos].
  destruct Hs as (s & Hs & Hz). rewrite Hs in Hnth. injection Hnth as <-. lra.
Qed.

Lemma no_common_term_scores_zero_witness :
  let bm := default_scorer Fixtures.rt0 [["Alice meets Bob"; "Carol signed the lease"]] in
  (exists s, nth_error (Similarity.score bm "the lease") 0 = Some s /\ (s == 0)%Q)
  /\ ~ In 0 (List.map fst (Similarity.topK bm "the lease" 5)).
Proof.
  intros bm.
  apply (@no_common_term_scores_zero bm "the lease" 0 ["alice"; "meets"; "bob"] 5).
  - reflexivity.
  - intros t Ht. vm_compute in Ht.
    destruct Ht as [<- | [<- | []]]; intros [H | [H | [H | []]]]; discriminate.
Defined.

Section TermScoreSign.

Variable bm : Similarity.BM25Scorer.
Hypothesis k1_nonneg : (0 <= Similarity.k1 bm)%Q.
Hypothesis b_in_range : (0 <= Similarity.b bm)%Q /\ (Similarity.b bm <= 1)%Q.
Hypothesis avg_pos : (0 < Similarity.avgDocLength bm)%Q.

Lemma termScore_nonneg doc term : (0 <= Similarity.termScore bm doc term)%Q.
Proof.
  unfold Similarity.termScore.
  set (tf := match JS.map_get (Similarity.termFreq doc) term with Some n => n | None => 0 end).
  set (idf_t := match JS.map_get (Similarity.idf bm) term with Some x => x | None => 0%Q end).
  destruct (0 <? tf)%nat; cbn [andb]; [| lra].
  destruct (Qle_bool idf_t 0) eqn:E; cbn [negb]; [lra |].
  assert (Hidf : (0 < idf_t)%Q).
  { apply Qnot_le_lt. intros Hle. apply Qle_bool_iff in Hle. congruence. }
  apply Qmult_le_0_compat; [lra |].
  apply saturation_nonneg.
  - apply of_nat_nonneg.
  - lra.
  - now apply length_norm_nonneg.
Qed.

Lemma sum_termScore_nonneg doc terms acc :
  (0 <= acc)%Q ->
  (0 <= fold_left (fun score term => (score + Similarity.termScore bm doc term)%Q) terms acc)%Q.
Proof.
  revert acc. induction terms as [| t terms IH]; intros acc Hacc; cbn [fold_left].
  - exact Hacc.
  - apply IH. pose proof (termScore_nonneg doc t). lra.
Qed.

End TermScoreSign.

(** X5: with the default parameters, [score] returns one number per indexed
    document, in the order of the documents, and none is negative. *)
Theorem score_one_nonnegative_number_per_document :
  forall (rt : Runtime) (corpora : list (list string)) (query : string),
    let bm := default_scorer rt corpora in
    List.length (Similarity.score bm query) = List.length (Similarity.documents bm)
    /\ Forall (fun s => (0 <= s)%Q) (Similarity.score bm query).
Proof.
  intros rt corpora query bm. split.
  - unfold Similarity.score. apply length_map.
  - unfold Similarity.score. apply Forall_forall. intros s Hs.
    apply in_map_iff in Hs. destruct Hs as (doc & <- & Hdoc).
    destruct (default_scorer_params rt corpora) as [Hk1 Hb]. fold bm in Hk1, Hb.
    apply sum_termScore_nonneg.
    + rewrite Hk1. discriminate.
    + rewrite Hb. split; discriminate.
    + exact (default_scorer_avg_pos rt corpora doc Hdoc).
    + lra.
Qed.

(* ------------------------------------------------------------------------- *)
(** ** A rebuild forgets the previous corpus *)

Lemma set_add_In s k t : In t (JS.set_add s k) <-> In t s \/ t = k.
Proof.
  unfold JS.set_add. destruct (JS.mem k s) eqn:E.
  - split; [now left |]. intros [H | ->]; [exact H | now apply mem_In].
  - rewrite in_app_iff. cbn. intuition.
Qed.

Lemma set_of_list_In l t : In t (JS.set_of_list l) <-> In t l.
Proof.
  unfold JS.set_of_list.
  assert (H : forall s, In t (fold_left JS.set_add l s) <-> In t s \/ In t l).
  { induction l as [| x l IH]; intros s; cbn [fold_left In]; [tauto |].
    rewrite IH, set_add_In. intuition. }
  rewrite H. cbn. tauto.
Qed.

Lemma count_into_keys m l t :
  In t (JS.map_keys (fold_left Similarity.count_into l m)) <-> In t (JS.map_keys m) \/ In t l.
Proof.
  revert m. induction l as [| x l IH]; intros m; cbn [fold_left In]; [tauto |].
  rewrite IH. unfold Similarity.count_into. rewrite map_keys_set.
  destruct (JS.mem x (JS.map_keys m)) eqn:E.
  - apply mem_In in E. split; [tauto |]. intros [H | [<- | H]]; tauto.
  - rewrite in_app_iff. cbn [In]. intuition.
Qed.

Lemma docFreq_keys documents df t :
  In t (JS.map_keys (docFreq_of documents df))
  <-> In t (JS.map_keys df) \/ exists doc, In doc documents /\ In t doc.
Proof.
  unfold docFreq_of. revert df.
  induction documents as [| d documents IH]; intros df; cbn [fold_left In].
  - split; [tauto |]. intros [H | (doc & [] & _)]. exact H.
  - rewrite IH, count_into_keys, set_of_list_In. split.
    + intros [[H | H] | (doc & Hd & Ht)]; [tauto | right; exists d; tauto |
                                             right; exists doc; tauto].
    + intros [H | (doc & [<- | Hd] & Ht)]; [tauto | tauto | right; exists doc; tauto].
Qed.

Lemma idf_fold_other f entries m t :
  ~ In t (JS.map_keys entries) -> JS.map_get (idf_fold f entries m) t = JS.map_get m t.
Proof.
  unfold idf_fold. revert m.
  induction entries as [| [k df] entries IH]; intros m Hnot; cbn [fold_left]; [reflexivity |].
  rewrite IH by (intros H; apply Hnot; now right).
  rewrite map_get_set. destruct (String.eqb_spec k t) as [-> | _]; [| reflexivity].
  exfalso. apply Hnot. now left.
Qed.

Lemma idf_fold_fresh f entries m m' t :
  In t (JS.map_keys entries) ->
  JS.map_get (idf_fold f entries m) t = JS.map_get (idf_fold f entries m') t.
Proof.
  unfold idf_fold. revert m m'.
  induction entries as [| [k df] entries IH]; intros m m' Hin; cbn [fold_left]; [destruct Hin |].
  destruct (in_dec string_dec t (JS.map_keys entries)) as [Hlater | Hnot].
  - now apply IH.
  - fold (idf_fold f entries (JS.map_set m k (f df))).
    fold (idf_fold f entries (JS.map_set m' k (f df))).
    rewrite !idf_fold_other by exact Hnot.
    destruct Hin as [Hk | Hin]; [| contradiction]. cbn [fst] in Hk. subst k.
    now rewrite !map_get_set, String.eqb_refl.
Qed.

Lemma addDocuments_termScore_fresh rt bm bm' docs doc term :
  Similarity.k1 bm = Similarity.k1 bm' ->
  Similarity.b bm = Similarity.b bm' ->
  In doc (List.map Similarity.tokenize docs) ->
  Similarity.termScore (Similarity.addDocuments rt bm docs) doc term
  = Similarity.termScore (Similarity.addDocuments rt bm' docs) doc term.
Proof.
  intros Hk1 Hb Hdoc. unfold Similarity.termScore.
  fold (get_or_0 (Similarity.termFreq doc) term). rewrite termFreq_count.
  destruct (count_occ string_dec doc term) as [| n] eqn:Ecount; [reflexivity |].
  assert (Hin : In term doc) by (apply (count_occ_In string_dec); lia).
  cbn [Similarity.addDocuments Similarity.idf Similarity.k1 Similarity.b
       Similarity.avgDocLength].
  rewrite <- Hk1, <- Hb.
  set (f := fun df : nat =>
              Math_log rt ((JS.of_nat (List.length (List.map Similarity.tokenize docs))
                            - JS.of_nat df + (1 # 2)) / (JS.of_nat df + (1 # 2)) + 1)%Q).
  change (fold_left _ _ (Similarity.idf bm))
    with (idf_fold f (docFreq_of (List.map Similarity.tokenize docs) []) (Similarity.idf bm)).
  change (fold_left _ _ (Similarity.idf bm'))
    with (idf_fold f (docFreq_of (List.map Similarity.tokenize docs) []) (Similarity.idf bm')).
  rewrite (idf_fold_fresh f _ (Similarity.idf bm) (Similarity.idf bm')); [reflexivity |].
  apply docFreq_keys. right. now exists doc.
Qed.

(** X6: [addDocuments] is a full rebuild: the scores after it do not depend on
    what was indexed before, although the map of idf values is never cleared.
    Indexing [docs] over a previous corpus gives the scores and the [topK] of
    indexing [docs] alone. *)
Theorem rebuild_forgets_previous_corpus :
  forall (rt : Runtime) (bm : Similarity.BM25Scorer) (old docs : list string)
         (query : string) (k : nat),
    Similarity.score (Similarity.addDocuments rt (Similarity.addDocuments rt bm old) docs) query
    = Similarity.score (Similarity.addDocuments rt bm docs) query
    /\ Similarity.topK (Similarity.addDocuments rt (Similarity.addDocuments rt bm old) docs)
         query k
       = Similarity.topK (Similarity.addDocuments rt bm docs) query k.
Proof.
  intros rt bm old docs query k.
  assert (Hs : Similarity.score
                 (Similarity.addDocuments rt (Similarity.addDocuments rt bm old) docs) query
               = Similarity.score (Similarity.addDocuments rt bm docs) query).
  { unfold Similarity.score.
    cbn [Similarity.addDocuments Similarity.documents].
    apply map_ext_in. intros doc Hdoc.
    generalize 0%Q. induction (Similarity.tokenize query) as [| t terms IH]; intros acc;
      cbn [fold_left]; [reflexivity |].
    rewrite (addDocuments_termScore_fresh rt (Similarity.addDocuments rt bm old) bm docs
               doc t eq_refl eq_refl Hdoc).
    apply IH. }
  split; [exact Hs |]. unfold Similarity.topK. now rewrite Hs.
Qed.

(* ========================================================================= *)
(** * Retrieval depth *)
(* ========================================================================= *)

Lemma Qfloor_of_nat n : Qfloor (JS.of_nat n) = Z.of_nat n.
Proof. unfold JS.of_nat. apply Qfloor_Z. Qed.

(** X7: a query of complexity 0 is searched at depth [baseK]; with a non-negative
    expansion factor and a non-negative complexity the depth is never below
    [baseK]; and a whole factor [d] at complexity 1 gives [baseK * (1 + d)]. *)
Theorem computeDynamicK_depth :
  forall (baseK d : nat) (complexity delta : Q),
    (0 <= complexity)%Q -> (0 <= delta)%Q ->
    Similarity.computeDynamicK baseK 0 delta = baseK
    /\ baseK <= Similarity.computeDynamicK baseK complexity delta
    /\ Similarity.computeDynamicK baseK 1 (JS.of_nat d) = baseK * (1 + d).
Proof.
  intros baseK d complexity delta Hc Hd. unfold Similarity.computeDynamicK.
  split; [| split].
  - assert (E : (JS.of_nat baseK * (1 + delta * 0) == JS.of_nat baseK)%Q) by ring.
    rewrite E, Qfloor_of_nat. apply Nat2Z.id.
  - assert (Hle : (JS.of_nat baseK <= JS.of_nat baseK * (1 + delta * complexity))%Q).
    { pose proof (of_nat_nonneg baseK) as Hb.
      assert (Hp : (0 <= delta * complexity)%Q) by (apply Qmult_le_0_compat; assumption).
      assert (Hq : (0 <= JS.of_nat baseK * (delta * complexity))%Q)
        by (apply Qmult_le_0_compat; assumption).
      lra. }
    apply Qfloor_resp_le in Hle. rewrite Qfloor_of_nat in Hle. lia.
  - assert (E : (JS.of_nat baseK * (1 + JS.of_nat d * 1) == JS.of_nat (baseK * (1 + d)))%Q).
    { unfold JS.of_nat. rewrite !Nat2Z.inj_mul, !Nat2Z.inj_add, inject_Z_mult, inject_Z_plus.
      change (inject_Z (Z.of_nat 1)) with 1%Q. ring. }
    rewrite E, Qfloor_of_nat. apply Nat2Z.id.
Qed.

Lemma computeDynamicK_depth_witness :
  Similarity.computeDynamicK 3 0 2 = 3
  /\ 3 <= Similarity.computeDynamicK 3 1 2
  /\ Similarity.computeDynamicK 3 1 (JS.of_nat 2) = 3 * (1 + 2).
Proof.
  apply (computeDynamicK_depth 3 2 (complexity := 1) (delta := 2)); discriminate.
Defined.

(* ========================================================================= *)
(** * The symbolic layer: dates, case, vacuous fields *)
(* ========================================================================= *)

(** X8: [isWithinRange] is inclusive at both bounds, and false as soon as one of
    the three dates is invalid. *)
Theorem isWithinRange_inclusive :
  forall (rt : Runtime) (timestamp start end_ : string),
    Temporal.isWithinRange rt timestamp start end_
    = match dayjs rt timestamp, dayjs rt start, dayjs rt end_ with
      | Some t, Some s, Some e => (s <=? t)%Z && (t <=? e)%Z
      | _, _, _ => false
      end.
Proof.
  intros rt timestamp start end_. unfold Temporal.isWithinRange.
  destruct (dayjs rt timestamp) as [t |]; [| now destruct (dayjs rt start), (dayjs rt end_)].
  destruct (dayjs rt start) as [s |], (dayjs rt end_) as [e |];
    cbn [Temporal.isAfter Temporal.isSame Temporal.isBefore orb andb]; try reflexivity.
  - f_equal.
    + destruct (Z.ltb_spec s t), (Z.eqb_spec t s), (Z.leb_spec s t); try reflexivity; lia.
    + destruct (Z.ltb_spec t e), (Z.eqb_spec t e), (Z.leb_spec t e); try reflexivity; lia.
  - now rewrite andb_false_r.
Qed.

Lemma lower_char_idem c : JS.lower_char (JS.lower_char c) = JS.lower_char c.
Proof.
  destruct c as [[] [] [] [] [] [] [] []]; reflexivity.
Qed.

Lemma toLowerCase_idem s : JS.toLowerCase (JS.toLowerCase s) = JS.toLowerCase s.
Proof.
  induction s as [| c s IH]; cbn [JS.toLowerCase]; [reflexivity |].
  now rewrite lower_char_idem, IH.
Qed.

Lemma toLowerCase_truthy s : JS.truthy (Some (JS.toLowerCase s)) = JS.truthy (Some s).
Proof. destruct s; reflexivity. Qed.

Lemma lower_includes_lower_r s sub :
  Indexing.lower_includes s (JS.toLowerCase sub) = Indexing.lower_includes s sub.
Proof. unfold Indexing.lower_includes. now rewrite toLowerCase_idem. Qed.

Lemma lower_includes_lower_l s sub :
  Indexing.lower_includes (JS.toLowerCase s) sub = Indexing.lower_includes s sub.
Proof. unfold Indexing.lower_includes. now rewrite toLowerCase_idem. Qed.

Lemma existsb_same A (p q : A -> bool) l :
  (forall x, p x = q x) -> existsb p l = existsb q l.
Proof. intros E. induction l as [| x l IH]; cbn; [reflexivity | now rewrite E, IH]. Qed.

Lemma existsb_map A B (f : A -> B) (p : B -> bool) l :
  existsb p (List.map f l) = existsb (fun x => p (f x)) l.
Proof. induction l as [| x l IH]; cbn; [reflexivity | now rewrite IH]. Qed.

Lemma some_match_lower (xs ys : list string) :
  existsb (fun p => existsb (fun up => Indexing.lower_includes up p)
                      (List.map JS.toLowerCase ys))
    (List.map JS.toLowerCase xs)
  = existsb (fun p => existsb (fun up => Indexing.lower_includes up p) ys) xs.
Proof.
  rewrite existsb_map. apply existsb_same. intros p.
  rewrite existsb_map. apply existsb_same. intros up.
  now rewrite lower_includes_lower_r, lower_includes_lower_l.
Qed.

(** X9: the comparisons of [matchesFilter] on persons, entities, location and
    topic ignore case: putting the strings of the filter and of the unit in lower
    case does not change the answer. *)
Theorem matchesFilter_ignores_case :
  forall (rt : Runtime) (u : MemoryUnit) (f : QueryFilter),
    Indexing.matchesFilter rt (lower_unit u) (lower_filter f)
    = Indexing.matchesFilter rt u f.
Proof.
  intros rt u f. unfold Indexing.matchesFilter.
  assert (Hp : Indexing.fails_persons (lower_unit u) (lower_filter f)
               = Indexing.fails_persons u f).
  { unfold Indexing.fails_persons. cbn [lower_filter lower_unit filter_persons persons].
    destruct (filter_persons f) as [ps |]; cbn [option_map]; [| reflexivity].
    now rewrite length_map, some_match_lower. }
  assert (He : Indexing.fails_entities (lower_unit u) (lower_filter f)
               = Indexing.fails_entities u f).
  { unfold Indexing.fails_entities. cbn [lower_filter lower_unit filter_entities entities].
    destruct (filter_entities f) as [es |]; cbn [option_map]; [| reflexivity].
    now rewrite length_map, some_match_lower. }
  assert (Hr : Indexing.fails_range rt (lower_unit u) (lower_filter f)
               = Indexing.fails_range rt u f) by reflexivity.
  assert (Hl : Indexing.fails_location (lower_unit u) (lower_filter f)
               = Indexing.fails_location u f).
  { unfold Indexing.fails_location. cbn [lower_filter lower_unit filter_location location].
    destruct (filter_location f) as [fl |], (location u) as [ul |];
      cbn [option_map]; try reflexivity.
    now rewrite !toLowerCase_truthy, lower_includes_lower_r, lower_includes_lower_l. }
  assert (Ht : Indexing.fails_topic (lower_unit u) (lower_filter f)
               = Indexing.fails_topic u f).
  { unfold Indexing.fails_topic. cbn [lower_filter lower_unit filter_topic topic].
    destruct (filter_topic f) as [ft |], (topic u) as [ut |];
      cbn [option_map]; try reflexivity.
    now rewrite !toLowerCase_truthy, lower_includes_lower_r, lower_includes_lower_l. }
  now rewrite Hp, He, Hr, Hl, Ht.
Qed.

(** X10: fields that are unset or empty constrain nothing, and a timestamp range
    needs both bounds to reject: the filter with no field set, and a filter with
    empty lists, empty strings and a range that lacks a bound, match every unit. *)
Theorem vacuous_filter_matches_every_unit :
  forall (rt : Runtime) (u : MemoryUnit) (range : TimestampRange),
    JS.truthy (range_start range) && JS.truthy (range_end range) = false ->
    Indexing.matchesFilter rt u no_filter = true
    /\ Indexing.matchesFilter rt u (hollow_filter range) = true.
Proof.
  intros rt u range Hr. split; [reflexivity |].
  unfold Indexing.matchesFilter, hollow_filter.
  assert (E : Indexing.fails_range rt u (hollow_filter range) = false).
  { unfold Indexing.fails_range, hollow_filter. cbn [timestampRange].
    destruct (timestamp u) as [ts |]; [| reflexivity].
    destruct (range_start range) as [s |], (range_end range) as [e |];
      try apply andb_false_r.
    cbn [JS.truthy] in Hr. unfold JS.truthy at 2 3. rewrite Hr.
    cbn [andb]. apply andb_false_r. }
  unfold hollow_filter in E.
  cbn [Indexing.fails_persons Indexing.fails_entities filter_persons filter_entities
       List.length Nat.ltb Nat.leb andb].
  rewrite E.
  unfold Indexing.fails_location, Indexing.fails_topic. cbn [filter_location filter_topic].
  destruct (location u), (topic u); reflexivity.
Qed.

Lemma vacuous_filter_matches_every_unit_witness :
  let range := {| range_start := Some "2025-11-01T00:00:00"; range_end := None |} in
  Indexing.matchesFilter Fixtures.rt0 (Fixtures.heap0 0) no_filter = true
  /\ Indexing.matchesFilter Fixtures.rt0 (Fixtures.heap0 0) (hollow_filter range) = true.
Proof.
  apply (vacuous_filter_matches_every_unit Fixtures.rt0 (Fixtures.heap0 0)). reflexivity.
Defined.

(* ========================================================================= *)
(** * addUnits when the embedding provider answers *)
(* ========================================================================= *)

Lemma attach_embeddings_other h rs embeddings i r :
  ~ In r rs -> Indexing.attach_embeddings h rs embeddings i r = h r.
Proof.
  revert h i. induction rs as [| r0 rs IH]; intros h i Hnot;
    cbn [Indexing.attach_embeddings]; [reflexivity |].
  rewrite IH by (intros H; apply Hnot; now right).
  unfold set_embedding. destruct (Nat.eqb_spec r r0) as [-> | _]; [| reflexivity].
  exfalso. apply Hnot. now left.
Qed.

Lemma attach_embeddings_in h rs embeddings i r :
  (forall j, j < List.length rs -> nth_error embeddings (i + j) <> None) ->
  In r rs ->
  embedding (Indexing.attach_embeddings h rs embeddings i r) <> None.
Proof.
  revert h i. induction rs as [| r0 rs IH]; intros h i Hlen Hin;
    cbn [Indexing.attach_embeddings]; [destruct Hin |].
  destruct (in_dec Nat.eq_dec r rs) as [Hlater | Hnot].
  - apply IH; [| exact Hlater].
    intros j Hj. replace (S i + j) with (i + S j) by lia. apply Hlen. cbn. lia.
  - destruct Hin as [-> | Hin]; [| contradiction].
    rewrite attach_embeddings_other by exact Hnot.
    unfold set_embedding. rewrite Nat.eqb_refl. cbn [embedding].
    specialize (Hlen 0). rewrite Nat.add_0_r in Hlen. apply Hlen. cbn. lia.
Qed.

Lemma needing_In h batch r :
  In r (needing h batch) <-> In r batch /\ Indexing.has_embedding (h r) = false.
Proof.
  unfold needing. rewrite filter_In, negb_true_iff. tauto.
Qed.

(** X11: when the provider returns one vector per text, [addUnits] succeeds with a
    single call that carries the contents of the units lacking an embedding, in
    batch order; afterwards every unit of the batch carries an embedding, units
    that carried one keep it, objects outside the batch are untouched, every unit
    of the batch is filed in the index under its id, and the lexical index is
    marked dirty. *)
Theorem addUnits_embeds_and_files_every_unit :
  forall (co : Collaborators) (batch : list ref) (w : World) (embeddings : list vec),
    needing (heap w) batch <> [] ->
    embed_reply co (history w) (texts_of (heap w) (needing (heap w) batch))
    = Resolves embeddings ->
    List.length embeddings = List.length (needing (heap w) batch) ->
    let '(outcome, w') := Indexing.addUnits co batch w in
    outcome = Ok tt
    /\ history w' = history w ++ [EmbedCall (texts_of (heap w) (needing (heap w) batch))]
    /\ (forall r, In r batch -> Indexing.has_embedding (heap w' r) = true)
    /\ (forall r, Indexing.has_embedding (heap w r) = true -> heap w' r = heap w r)
    /\ (forall r, ~ In r batch -> heap w' r = heap w r)
    /\ (forall r, In r batch -> In (id (heap w r)) (JS.map_keys (units (index w'))))
    /\ needsRebuild (index w') = true.
Proof.
  intros co batch w embeddings Hne Hrep Hlen.
  unfold Indexing.addUnits, bind, get_heap, get_index, put_heap, put_index, ret, embed.
  cbn [heap index history].
  fold (needing (heap w) batch).
  destruct (needing (heap w) batch) as [| r0 rs] eqn:En; [congruence |].
  cbn [List.length Nat.ltb Nat.leb].
  fold (texts_of (heap w) (r0 :: rs)). rewrite Hrep.
  cbn [heap index history log_call units needsRebuild Indexing.with_units].
  set (h' := Indexing.attach_embeddings (heap w) (r0 :: rs) embeddings 0).
  assert (Hother : forall r, ~ In r (r0 :: rs) -> h' r = heap w r)
    by (intros r Hr; now apply attach_embeddings_other).
  assert (Hids : forall r, id (h' r) = id (heap w r))
    by (intros r; apply attach_embeddings_keeps).
  repeat split.
  - intros r Hr. destruct (Indexing.has_embedding (heap w r)) eqn:E.
    + rewrite Hother; [exact E |]. rewrite <- En, needing_In. intros [_ H]. congruence.
    + assert (Hin : In r (r0 :: rs)) by (rewrite <- En; now apply needing_In).
      pose proof (@attach_embeddings_in (heap w) (r0 :: rs) embeddings 0 r) as Ha.
      fold h' in Ha. unfold Indexing.has_embedding.
      destruct (embedding (h' r)); [reflexivity |]. exfalso. apply Ha; [| exact Hin | reflexivity].
      intros j Hj. cbn [Nat.add]. apply nth_error_Some. lia.
  - intros r E. apply Hother. rewrite <- En, needing_In. intros [_ H]. congruence.
  - intros r Hr. apply Hother. rewrite <- En, needing_In. tauto.
  - intros r Hr. rewrite <- Hids. now apply upsert_all_In_key.
Qed.

Lemma addUnits_embeds_and_files_every_unit_witness :
  let '(outcome, w') := Indexing.addUnits Fixtures.co_embed [0; 2; 4] Fixtures.world0 in
  outcome = Ok tt
  /\ history w' = [] ++ [EmbedCall ["Sarah got promoted"; "Carol signed the lease"]]
  /\ (forall r, In r [0; 2; 4] -> Indexing.has_embedding (heap w' r) = true)
  /\ (forall r, Indexing.has_embedding (Fixtures.heap0 r) = true ->
                heap w' r = Fixtures.heap0 r)
  /\ (forall r, ~ In r [0; 2; 4] -> heap w' r = Fixtures.heap0 r)
  /\ (forall r, In r [0; 2; 4] ->
                In (id (Fixtures.heap0 r)) (JS.map_keys (units (index w'))))
  /\ needsRebuild (index w') = true.
Proof.
  apply (addUnits_embeds_and_files_every_unit Fixtures.co_embed [0; 2; 4] Fixtures.world0
           (embeddings := [Fixtures.e_x; Fixtures.e_x])).
  - discriminate.
  - reflexivity.
  - reflexivity.
Defined.

(** X12: when every unit of the batch already carries an embedding (an empty batch
    included), [addUnits] makes no call to the provider: it files the units, marks
    the lexical index dirty and leaves the objects as they are. *)
Theorem addUnits_embedded_batch_makes_no_call :
  forall (co : Collaborators) (batch : list ref) (w : World),
    Forall (fun r => Indexing.has_embedding (heap w r) = true) batch ->
    let '(outcome, w') := Indexing.addUnits co batch w in
    outcome = Ok tt
    /\ history w' = history w
    /\ heap w' = heap w
    /\ units (index w') = Indexing.upsert_all (heap w) (units (index w)) batch
    /\ needsRebuild (index w') = true.
Proof.
  intros co batch w Hall.
  assert (En : needing (heap w) batch = []).
  { unfold needing. induction Hall as [| r batch Hr Hb IH]; cbn [filter]; [reflexivity |].
    now rewrite Hr. }
  unfold Indexing.addUnits, bind, get_heap, get_index, put_heap, put_index, ret.
  cbn [heap index history]. fold (needing (heap w) batch). rewrite En.
  cbn. repeat split.
Qed.

Lemma addUnits_embedded_batch_makes_no_call_witness :
  let '(outcome, w') := Indexing.addUnits Fixtures.co_down [0; 1] Fixtures.world0 in
  outcome = Ok tt
  /\ history w' = history Fixtures.world0
  /\ heap w' = heap Fixtures.world0
  /\ units (index w')
     = Indexing.upsert_all (heap Fixtures.world0) (units (index Fixtures.world0)) [0; 1]
  /\ needsRebuild (index w') = true.
Proof.
  apply (@addUnits_embedded_batch_makes_no_call Fixtures.co_down [0; 1] Fixtures.world0).
  repeat constructor.
Defined.

(* ========================================================================= *)
(** * removeUnit *)
(* ========================================================================= *)

Lemma map_delete_absent V (m : JS.Map V) k :
  ~ In k (JS.map_keys m) -> JS.map_delete m k = m.
Proof.
  induction m as [| [k0 v0] m IH]; cbn [JS.map_delete JS.map_keys List.map fst In];
    [reflexivity |].
  intros Hnot. destruct (String.eqb_spec k0 k) as [-> | _]; [tauto |].
  f_equal. apply IH. tauto.
Qed.

Lemma map_get_absent V (m : JS.Map V) k :
  ~ In k (JS.map_keys m) -> JS.map_get m k = None.
Proof.
  intros Hnot. destruct (JS.map_get m k) eqn:E; [| reflexivity].
  exfalso. apply Hnot. eapply map_get_In_keys, E.
Qed.

Lemma map_delete_values h (m : JS.Map ref) k :
  keys_match h m -> NoDup (JS.map_keys m) ->
  JS.map_values (JS.map_delete m k)
  = filter (fun r => negb (String.eqb (id (h r)) k)) (JS.map_values m)
  /\ JS.map_get (JS.map_delete m k) k = None.
Proof.
  unfold keys_match, JS.map_values.
  induction 1 as [| [k0 v0] m Hk Hm IH];
    cbn [JS.map_delete JS.map_keys List.map fst snd filter JS.map_get]; [split; reflexivity |].
  intros Hnd. inversion Hnd as [| ? ? Hnotin Hnd']; subst. cbn [fst snd] in Hk.
  rewrite Hk. destruct (String.eqb_spec k0 k) as [-> | Hne]; cbn [negb].
  - split; [| now apply map_get_absent].
    rewrite <- (@map_delete_absent _ m k Hnotin) at 1. now apply IH.
  - cbn [List.map snd JS.map_get]. destruct (IH Hnd') as [-> ->].
    destruct (String.eqb_spec k0 k); [contradiction |]. split; reflexivity.
Qed.

(** X13: from any state of the index, [removeUnit(id)] takes the unit with that id
    out of the enumeration and leaves the others in their order; the id is no
    longer found, the objects are untouched and the lexical index is marked dirty.
    Removing an id that is not indexed changes nothing but the flag. *)
Theorem removeUnit_drops_exactly_that_unit :
  forall (rt : Runtime) (co : Collaborators) (w : World) (unit_id : string),
    reachable rt co w ->
    let w' := snd (Indexing.removeUnit unit_id w) in
    all_units w' = filter (fun r => negb (String.eqb (id (heap w r)) unit_id)) (all_units w)
    /\ JS.map_get (units (index w')) unit_id = None
    /\ (~ In unit_id (JS.map_keys (units (index w))) -> units (index w') = units (index w))
    /\ heap w' = heap w
    /\ needsRebuild (index w') = true.
Proof.
  intros rt co w unit_id Hreach w'.
  destruct (reachable_wf Hreach) as [Hm Hnd].
  destruct (map_delete_values unit_id Hm Hnd) as [Hv Hg].
  unfold w', all_units. cbn. repeat split; try assumption.
  apply map_delete_absent.
Qed.

Lemma removeUnit_drops_exactly_that_unit_witness :
  let w' := snd (Indexing.removeUnit "u1" Fixtures.world_embedded) in
  all_units w' = [0; 2; 4]
  /\ JS.map_get (units (index w')) "u1" = None.
Proof.
  destruct (@removeUnit_drops_exactly_that_unit Fixtures.rt0 Fixtures.co_embed
              Fixtures.world_embedded "u1") as (Hv & Hg & _).
  - apply (reach_call (rt := Fixtures.rt0) (co := Fixtures.co_embed)
             (w := Fixtures.world0) (AddUnits [0; 1; 2; 4])).
    apply reach_new.
  - split; [| exact Hg]. rewrite Hv. reflexivity.
Defined.

(* ========================================================================= *)
(** * The lexical snapshot stays in step with the units *)
(* ========================================================================= *)

Lemma addDocuments_length rt bm docs :
  List.length (Similarity.documents (Similarity.addDocuments rt bm docs)) = List.length docs.
Proof. cbn [Similarity.addDocuments Similarity.documents]. apply length_map. Qed.

Lemma rebuild_aligned rt w : aligned (snd (Indexing.rebuildLexicalIndex rt w)).
Proof.
  intros _. unfold Indexing.rebuildLexicalIndex, bind, get_heap, get_index, put_index.
  cbn [snd index bm25 units].
  rewrite addDocuments_length. unfold JS.map_values. now rewrite !length_map.
Qed.

Lemma keywordSearch_index rt query topK w :
  index (snd (Indexing.keywordSearch rt query topK w))
  = if needsRebuild (index w) then index (snd (Indexing.rebuildLexicalIndex rt w))
    else index w.
Proof.
  unfold Indexing.keywordSearch, Indexing.rebuildLexicalIndex,
    bind, get_index, get_heap, put_index, ret.
  destruct (needsRebuild (index w)); reflexivity.
Qed.

Lemma keywordSearch_aligned rt query topK w :
  aligned w -> aligned (snd (Indexing.keywordSearch rt query topK w)).
Proof.
  intros Ha. unfold aligned. rewrite keywordSearch_index.
  destruct (needsRebuild (index w)) eqn:E.
  - apply rebuild_aligned.
  - exact Ha.
Qed.

Lemma aligned_same_index w w' : index w' = index w -> aligned w -> aligned w'.
Proof. unfold aligned. now intros ->. Qed.

Lemma hybridSearch_index rt co query filter topK w :
  exists k,
    index (snd (Indexing.hybridSearch rt co query filter topK w))
    = index (snd (Indexing.keywordSearch rt query k
                    (snd (Indexing.semanticSearch rt co query k w)))).
Proof.
  unfold Indexing.hybridSearch, bind, get_index, get_heap, lift, Indexing.promise_all2.
  set (k := match topK with Some k => k | None => semanticTopK (config (index w)) end).
  exists (Some (k * 2)).
  destruct (Indexing.semanticSearch rt co query (Some (k * 2)) w) as [rs w1]. cbn [snd].
  destruct (Indexing.keywordSearch rt query (Some (k * 2)) w1) as [rk w2]. cbn [snd].
  destruct rs, rk; reflexivity.
Qed.

Lemma reachable_aligned rt co w : reachable rt co w -> aligned w.
Proof.
  induction 1 as [h cfg | w c Hr IH].
  - intros _. reflexivity.
  - destruct c; cbn [after].
    + pose proof (addUnits_cases co batch w) as H.
      destruct (Indexing.addUnits co batch w) as [outcome w']. cbn [snd].
      destruct H as [(_ & _ & _ & Hdirty) | (msg & _ & _ & Hidx)].
      * intros Hclean. congruence.
      * now apply (@aligned_same_index w).
    + intros Hclean. discriminate.
    + intros _. reflexivity.
    + apply rebuild_aligned.
    + apply (@aligned_same_index w); [| exact IH]. apply semanticSearch_keeps.
    + now apply keywordSearch_aligned.
    + exact IH.
    + destruct (hybridSearch_index rt co query filter topK w) as [k Hk].
      unfold aligned. rewrite Hk. apply keywordSearch_aligned.
      apply (@aligned_same_index w); [| exact IH]. apply semanticSearch_keeps.
    + exact IH.
    + exact IH.
Qed.

Lemma score_length bm query :
  List.length (Similarity.score bm query) = List.length (Similarity.documents bm).
Proof. unfold Similarity.score. apply length_map. Qed.

Lemma StronglySorted_map A B (f : A -> B) (R : B -> B -> Prop) l :
  StronglySorted (fun a b0 => R (f a) (f b0)) l -> StronglySorted R (List.map f l).
Proof.
  induction 1 as [| x l Hs IH Hall]; cbn [List.map]; constructor; [exact IH |].
  apply Forall_forall. intros y Hy. apply in_map_iff in Hy. destruct Hy as (z & <- & Hz).
  rewrite Forall_forall in Hall. now apply Hall.
Qed.

(** What [keywordSearch] returns on a state whose snapshot is in step. *)
Lemma keywordSearch_results rt query topK w :
  aligned w ->
  exists res,
    fst (Indexing.keywordSearch rt query topK w) = Ok res
    /\ Forall (fun x : SearchResult (option ref) =>
                 (exists u, unit x = Some u /\ In u (all_units w))
                 /\ (0 < score x)%Q /\ matchType x = lexical) res
    /\ List.length res
       <= match topK with Some k => k | None => keywordTopK (config (index w)) end
    /\ non_increasing res.
Proof.
  intros Ha.
  assert (Hrun : exists bm,
             List.length (Similarity.documents bm) = List.length (units (index w))
             /\ fst (Indexing.keywordSearch rt query topK w)
                = Ok (List.map
                        (fun p : nat * Q =>
                           Indexing.mk_result (nth_error (all_units w) (fst p)) (snd p) lexical)
                        (Similarity.topK bm query
                           match topK with
                           | Some k => k
                           | None => keywordTopK (config (index w))
                           end))).
  { unfold Indexing.keywordSearch, Indexing.rebuildLexicalIndex,
      bind, get_index, get_heap, put_index, ret, all_units.
    destruct (needsRebuild (index w)) eqn:E; cbn [fst snd index bm25 units config].
    - eexists. split; [| reflexivity].
      rewrite addDocuments_length. unfold JS.map_values. now rewrite !length_map.
    - eexists. split; [| reflexivity]. now apply Ha. }
  destruct Hrun as (bm & Hlen & Hrun). eexists. split; [exact Hrun |].
  set (k := match topK with Some k => k | None => keywordTopK (config (index w)) end).
  destruct (topK_bounded_sorted bm query k) as (Hl & Hsorted).
  split; [| split].
  - apply Forall_forall. intros x Hx. apply in_map_iff in Hx.
    destruct Hx as ([i s] & <- & Hin). cbn [fst snd unit score matchType Indexing.mk_result].
    destruct (topK_In _ _ _ _ _ Hin) as [Hnth Hpos].
    split; [| split; [exact Hpos | reflexivity]].
    assert (Hi : i < List.length (all_units w)).
    { unfold all_units, JS.map_values. rewrite length_map, <- Hlen, <- (score_length bm query).
      apply nth_error_Some. congruence. }
    destruct (nth_error (all_units w) i) as [u |] eqn:Eu.
    + exists u. split; [reflexivity |]. eapply nth_error_In, Eu.
    + apply nth_error_None in Eu. lia.
  - rewrite length_map. exact Hl.
  - unfold non_increasing. apply StronglySorted_map. exact Hsorted.
Qed.

(** X14: from any state of the index, [keywordSearch] returns without error; every
    result carries a unit of the index (never an undefined one), a positive score
    and the match type "lexical"; there are at most [topK] results and their
    scores never increase. *)
Theorem keywordSearch_returns_indexed_units :
  forall (rt : Runtime) (co : Collaborators) (query : string) (topK : option nat) (w : World),
    reachable rt co w ->
    exists res,
      fst (Indexing.keywordSearch rt query topK w) = Ok res
      /\ Forall (fun x : SearchResult (option ref) =>
                   (exists u, unit x = Some u /\ In u (all_units w))
                   /\ (0 < score x)%Q /\ matchType x = lexical) res
      /\ List.length res
         <= match topK with Some k => k | None => keywordTopK (config (index w)) end
      /\ non_increasing res.
Proof.
  intros rt co query topK w Hreach.
  apply keywordSearch_results. eapply reachable_aligned, Hreach.
Qed.

Lemma world_embedded_reachable :
  reachable Fixtures.rt0 Fixtures.co_embed Fixtures.world_embedded.
Proof.
  apply (reach_call (rt := Fixtures.rt0) (co := Fixtures.co_embed)
           (w := Fixtures.world0) (AddUnits [0; 1; 2; 4])).
  apply reach_new.
Defined.

Lemma keywordSearch_returns_indexed_units_witness :
  exists res,
    fst (Indexing.keywordSearch Fixtures.rt0 "Carol lease" (Some 2) Fixtures.world_embedded)
    = Ok res
    /\ List.map (@unit _) res = [Some 4].
Proof.
  destruct (@keywordSearch_returns_indexed_units Fixtures.rt0 Fixtures.co_embed
              "Carol lease" (Some 2) Fixtures.world_embedded world_embedded_reachable)
    as (res & Hrun & _).
  exists res. split; [exact Hrun |].
  vm_compute in Hrun. injection Hrun as <-. reflexivity.
Defined.

(* ========================================================================= *)
(** * hybridSearch on a well-formed index *)
(* ========================================================================= *)

Lemma cosineSimilarity_same_length rt a b :
  List.length a = List.length b -> exists q, Similarity.cosineSimilarity rt a b = Ok q.
Proof.
  intros E. unfold Similarity.cosineSimilarity. rewrite E, Nat.eqb_refl. cbn [negb].
  destruct (Similarity.cosine_sums a b (0, 0, 0)%Q) as [[d na] nb].
  destruct (Qeq_bool (Math_sqrt rt na) 0 || Qeq_bool (Math_sqrt rt nb) 0); eexists; reflexivity.
Qed.

Lemma semantic_scores_ok rt h (qv : vec) rs acc :
  (forall r e, In r rs -> embedding (h r) = Some e -> List.length e = List.length qv) ->
  exists res, Indexing.semantic_scores rt h (Some qv) rs acc = Ok res.
Proof.
  revert acc. induction rs as [| r rs IH]; intros acc Hdim; cbn [Indexing.semantic_scores].
  - now exists acc.
  - destruct (embedding (h r)) as [e |] eqn:E.
    + cbn [Indexing.cosine_with].
      destruct (@cosineSimilarity_same_length rt qv e) as [s ->].
      { symmetry. apply (Hdim r e); [now left | exact E]. }
      apply IH. intros r' e' Hr'. apply Hdim. now right.
    + apply IH. intros r' e' Hr'. apply Hdim. now right.
Qed.

Lemma lexical_scores_ok h mx (rs : list (SearchResult (option ref))) m :
  Forall (fun x => exists u, unit x = Some u) rs ->
  exists m', Indexing.lexical_scores h mx rs m = Ok m'.
Proof.
  intros Hall. revert m. induction Hall as [| x rs (u & Hu) Hrs IH]; intros m;
    cbn [Indexing.lexical_scores].
  - now exists m.
  - rewrite Hu. apply IH.
Qed.

Lemma semanticSearch_run rt co query topK w embedded :
  embed_reply co (history w) [query] = Resolves embedded ->
  Indexing.semanticSearch rt co query topK w
  = (match Indexing.semantic_scores rt (heap w) (hd_error embedded) (all_units w) [] with
     | Ok results =>
         Ok (JS.slice0 match topK with Some k => k | None => semanticTopK (config (index w)) end
               (JS.sort Indexing.by_score_desc results))
     | Throw e => Throw e
     end, log_call (EmbedCall [query]) w).
Proof.
  intros Hrep.
  unfold Indexing.semanticSearch, bind, get_index, get_heap, lift, ret, embed, all_units.
  rewrite Hrep. cbn [log_call heap index].
  destruct (Indexing.semantic_scores rt (heap w) (hd_error embedded)
              (JS.map_values (units (index w))) []); reflexivity.
Qed.

(** X15: from any state of the index, [hybridSearch] returns a result as soon as
    the provider answers the query with a vector that has the dimension of every
    embedding stored in the index. *)
Theorem hybridSearch_returns_when_dimensions_agree :
  forall (rt : Runtime) (co : Collaborators) (query : string)
         (filter : option QueryFilter) (topK : option nat) (w : World)
         (qv : vec) (others : list vec),
    reachable rt co w ->
    embed_reply co (history w) [query] = Resolves (qv :: others) ->
    (forall r e, In r (all_units w) -> embedding (heap w r) = Some e ->
                 List.length e = List.length qv) ->
    exists res w', Indexing.hybridSearch rt co query filter topK w = (Ok res, w').
Proof.
  intros rt co query filter topK w qv others Hreach Hrep Hdim.
  unfold Indexing.hybridSearch, bind, get_index, get_heap, lift, Indexing.promise_all2.
  set (k := match topK with Some k => k | None => semanticTopK (config (index w)) end).
  rewrite (@semanticSearch_run rt co query (Some (k * 2)) w _ Hrep). cbn [hd_error].
  set (w1 := log_call (EmbedCall [query]) w).
  assert (Ha : aligned w1).
  { apply (@aligned_same_index w); [reflexivity |]. eapply reachable_aligned, Hreach. }
  destruct (@keywordSearch_results rt query (Some (k * 2)) w1 Ha) as (kw & Hkw & Hall & _).
  destruct (Indexing.keywordSearch rt query (Some (k * 2)) w1) as [rk w2].
  cbn [fst] in Hkw. subst rk.
  destruct (@semantic_scores_ok rt (heap w) qv (all_units w) [] Hdim) as [sem ->].
  cbn [fst snd].
  unfold Indexing.hybrid_merge.
  destruct (@lexical_scores_ok (heap w2)
              (JS.max_with (List.map (@score _) kw) 1) kw []) as [lex ->].
  { eapply Forall_impl; [| exact Hall]. intros x ((u & Hu & _) & _). now exists u. }
  eexists _, _. reflexivity.
Qed.

Lemma hybridSearch_returns_when_dimensions_agree_witness :
  exists res w',
    Indexing.hybridSearch Fixtures.rt0 Fixtures.co_embed "Carol lease" None (Some 2)
      Fixtures.world_embedded = (Ok res, w').
Proof.
  apply (@hybridSearch_returns_when_dimensions_agree Fixtures.rt0 Fixtures.co_embed
           "Carol lease" None (Some 2) Fixtures.world_embedded Fixtures.e_x []).
  - exact world_embedded_reachable.
  - reflexivity.
  - intros r e Hin. vm_compute in Hin.
    destruct Hin as [<- | [<- | [<- | [<- | []]]]]; intros [= <-]; reflexivity.
Defined.

Lemma map_get_In V (m : JS.Map V) k v : JS.map_get m k = Some v -> In (k, v) m.
Proof.
  induction m as [| [k0 v0] m IH]; cbn [JS.map_get In]; [discriminate |].
  destruct (String.eqb_spec k0 k) as [-> | _].
  - intros [= ->]. now left.
  - intros H. right. now apply IH.
Qed.

Lemma map_get_match h (m : JS.Map ref) k u :
  keys_match h m -> JS.map_get m k = Some u ->
  id (h u) = k /\ In u (JS.map_values m).
Proof.
  intros Hm Hg. apply map_get_In in Hg. split.
  - unfold keys_match in Hm. rewrite Forall_forall in Hm. exact (Hm _ Hg).
  - unfold JS.map_values. now apply (in_map snd) in Hg.
Qed.

Lemma set_add_nodup s k : NoDup s -> NoDup (JS.set_add s k).
Proof.
  intros H. unfold JS.set_add. destruct (JS.mem k s) eqn:E; [exact H |].
  apply NoDup_app; [exact H | repeat constructor; intros [] |].
  intros x Hx [<- | []]. apply mem_In in Hx. congruence.
Qed.

Lemma set_of_list_nodup l : NoDup (JS.set_of_list l).
Proof.
  unfold JS.set_of_list.
  assert (H : forall s, NoDup s -> NoDup (fold_left JS.set_add l s)).
  { induction l as [| x l IH]; intros s Hs; cbn [fold_left]; [exact Hs |].
    apply IH. now apply set_add_nodup. }
  apply H. constructor.
Qed.

Section HybridEntries.

Variable rt : Runtime.
Variable h : Heap.
Variable i : HybridIndex.
Variable filter : option QueryFilter.
Variables sem lex : JS.Map Q.
Hypothesis Hmatch : keys_match h (units i).

Let entry := Indexing.hybrid_entry rt h i filter sem lex.

Lemma hybrid_entry_shape uid r :
  In r (entry uid) ->
  id (h (unit r)) = uid /\ In (unit r) (JS.map_values (units i)) /\ matchType r = hybrid.
Proof.
  unfold entry, Indexing.hybrid_entry.
  destruct (JS.map_get (units i) uid) as [u |] eqn:E; [| intros []].
  intros [<- | []]. cbn [unit matchType Indexing.mk_result].
  destruct (map_get_match uid Hmatch E) as [Hid Hin]. repeat split; assumption.
Qed.

Lemma hybrid_entries_ids uids r :
  In r (flat_map entry uids) -> In (id (h (unit r))) uids.
Proof.
  intros Hin. apply in_flat_map in Hin. destruct Hin as (uid & Huid & Hr).
  apply hybrid_entry_shape in Hr. destruct Hr as [-> _]. exact Huid.
Qed.

Lemma hybrid_entries_distinct uids :
  NoDup uids -> NoDup (List.map (fun r => id (h (unit r))) (flat_map entry uids)).
Proof.
  induction 1 as [| uid uids Hnotin Hnd IH]; cbn [flat_map List.map]; [constructor |].
  rewrite map_app. apply NoDup_app; [| exact IH |].
  - unfold entry, Indexing.hybrid_entry.
    destruct (JS.map_get (units i) uid); cbn; repeat constructor. intros [].
  - intros x Hx Hx'. apply in_map_iff in Hx. destruct Hx as (r & <- & Hr).
    apply hybrid_entry_shape in Hr. destruct Hr as [Hid _].
    apply in_map_iff in Hx'. destruct Hx' as (r' & E & Hr').
    apply hybrid_entries_ids in Hr'. rewrite E, Hid in Hr'. contradiction.
Qed.

End HybridEntries.

Lemma NoDup_map_inner A B (f : A -> B) l : NoDup (List.map f l) -> NoDup l.
Proof.
  induction l as [| x l IH]; cbn [List.map]; [constructor |].
  intros H. inversion H as [| ? ? Hnotin Hnd]; subst.
  constructor; [| now apply IH]. intros Hin. apply Hnotin. now apply in_map.
Qed.

Lemma hybrid_merge_distinct rt h i filter k sem kw res :
  keys_match h (units i) ->
  Indexing.hybrid_merge rt h i filter k sem kw = Ok res ->
  NoDup (List.map (fun r => id (h (unit r))) res)
  /\ Forall (fun r => In (unit r) (JS.map_values (units i)) /\ matchType r = hybrid) res.
Proof.
  intros Hm. unfold Indexing.hybrid_merge.
  destruct (Indexing.lexical_scores h _ kw []) as [lex | e]; [| discriminate].
  intros [= <-]. split.
  - unfold JS.slice0. rewrite <- firstn_map. apply NoDup_firstn.
    eapply Permutation_NoDup.
    + apply Permutation_map. symmetry. apply sort_perm.
    + apply hybrid_entries_distinct; [exact Hm | apply set_of_list_nodup].
  - apply Forall_forall. intros r Hr.
    apply slice0_In in Hr. apply (Permutation_in _ (sort_perm _ _)) in Hr.
    apply in_flat_map in Hr. destruct Hr as (uid & _ & Hr).
    now destruct (@hybrid_entry_shape _ _ _ _ _ _ Hm _ _ Hr) as (_ & Hin & Hty).
Qed.

(** X16: from any state of the index, the results of [hybridSearch] are units of
    the index with pairwise distinct ids (so no unit is returned twice), all of
    match type "hybrid". *)
Theorem hybridSearch_results_distinct_and_indexed :
  forall (rt : Runtime) (co : Collaborators) (query : string)
         (filter : option QueryFilter) (topK : option nat)
         (w w' : World) (res : list (SearchResult ref)),
    reachable rt co w ->
    Indexing.hybridSearch rt co query filter topK w = (Ok res, w') ->
    NoDup (List.map (fun r => id (heap w (unit r))) res)
    /\ NoDup (List.map (@unit _) res)
    /\ Forall (fun r => In (unit r) (all_units w) /\ matchType r = hybrid) res.
Proof.
  intros rt co query filter topK w w' res Hreach Hrun.
  destruct (reachable_wf Hreach) as [Hm _].
  destruct (hybridSearch_keeps rt co query filter topK w) as [Hh Hu].
  rewrite Hrun in Hh, Hu. cbn [snd] in Hh, Hu.
  destruct (hybridSearch_inv _ _ _ _ _ _ Hrun) as (sem & kw & Hmerge).
  rewrite Hh in Hmerge.
  assert (Hm' : keys_match (heap w) (units (index w'))) by now rewrite Hu.
  destruct (@hybrid_merge_distinct _ _ _ _ _ _ _ _ Hm' Hmerge) as [Hids Hall].
  split; [exact Hids |]. split.
  - rewrite <- (map_map (@unit ref) (fun u => id (heap w u))) in Hids.
    eapply NoDup_map_inner, Hids.
  - unfold all_units. now rewrite <- Hu.
Qed.

Lemma hybridSearch_results_distinct_and_indexed_witness :
  exists res w',
    Indexing.hybridSearch Fixtures.rt0 Fixtures.co_embed "report" None (Some 3)
      Fixtures.world_embedded = (Ok res, w')
    /\ NoDup (List.map (@unit _) res)
    /\ List.length res = 3.
Proof.
  destruct (Indexing.hybridSearch Fixtures.rt0 Fixtures.co_embed "report" None (Some 3)
              Fixtures.world_embedded) as [[res | e] w'] eqn:E.
  - exists res, w'. split; [reflexivity |]. split.
    + exact (proj1 (proj2 (@hybridSearch_results_distinct_and_indexed _ _ _ _ _ _ _ _
                             world_embedded_reachable E))).
    + vm_compute in E. injection E as <- _. reflexivity.
  - vm_compute in E. discriminate.
Defined.

(* ========================================================================= *)
(** * retrieve without an analysis of the query *)
(* ========================================================================= *)

Lemma computeDynamicK_zero baseK delta : Similarity.computeDynamicK baseK 0 delta = baseK.
Proof.
  unfold Similarity.computeDynamicK.
  assert (E : (JS.of_nat baseK * (1 + delta * 0) == JS.of_nat baseK)%Q) by ring.
  rewrite E, Qfloor_of_nat. apply Nat2Z.id.
Qed.

Lemma hybridSearch_history_grows rt co query filter topK w :
  oracle_calls (history w)
  <= oracle_calls (history (snd (Indexing.hybridSearch rt co query filter topK w))).
Proof.
  unfold Indexing.hybridSearch, bind, get_index, get_heap, lift, Indexing.promise_all2.
  set (k := match topK with Some k => k | None => semanticTopK (config (index w)) end).
  assert (Hs : history (snd (Indexing.semanticSearch rt co query (Some (k * 2)) w))
               = history w ++ [EmbedCall [query]]).
  { unfold Indexing.semanticSearch, bind, get_index, get_heap, lift, ret, embed.
    destruct (embed_reply co (history w) [query]) as [v | msg]; cbn; [| reflexivity].
    destruct (Indexing.semantic_scores rt (heap w) (hd_error v)
                (JS.map_values (units (index w))) []); reflexivity. }
  destruct (Indexing.semanticSearch rt co query (Some (k * 2)) w) as [rs w1].
  cbn [snd] in Hs.
  assert (Hk : history (snd (Indexing.keywordSearch rt query (Some (k * 2)) w1)) = history w1).
  { unfold Indexing.keywordSearch, Indexing.rebuildLexicalIndex,
      bind, get_index, get_heap, put_index, ret.
    destruct (needsRebuild (index w1)); reflexivity. }
  destruct (Indexing.keywordSearch rt query (Some (k * 2)) w1) as [rk w2].
  cbn [snd] in Hk.
  assert (Hh : oracle_calls (history w2) = oracle_calls (history w)).
  { rewrite Hk, Hs. unfold oracle_calls. rewrite filter_app, length_app. cbn. lia. }
  destruct rs, rk; cbn [snd]; lia.
Qed.

(** X17: with planning disabled, [retrieve] makes no call to the LLM and never
    reflects: it is one hybrid search of the query itself at depth [baseK] without
    filter, and it reports no rationale. *)
Theorem retrieve_without_planning :
  forall (rt : Runtime) (co : Collaborators) (rconfig : RetrievalConfig)
         (query : string) (w : World),
    enablePlanning rconfig = false ->
    Retrieval.retrieve rt co rconfig query w = plain_retrieval rt co rconfig query None w
    /\ oracle_calls (history (snd (Retrieval.retrieve rt co rconfig query w)))
       = oracle_calls (history w).
Proof.
  intros rt co rconfig query w Hplan.
  assert (E : Retrieval.retrieve rt co rconfig query w
              = plain_retrieval rt co rconfig query None w).
  { unfold Retrieval.retrieve, plain_retrieval, bind at 1. rewrite Hplan. cbn [ret].
    rewrite computeDynamicK_zero, andb_false_r. unfold bind, get_heap, ret.
    destruct (Indexing.hybridSearch rt co query None (Some (baseK rconfig)) w)
      as [[results | e] w1]; reflexivity. }
  split; [exact E |]. rewrite E. unfold plain_retrieval.
  pose proof (calls_hybridSearch rt co query None (Some (baseK rconfig)) w) as Hle.
  pose proof (hybridSearch_history_grows rt co query None (Some (baseK rconfig)) w) as Hge.
  destruct (Indexing.hybridSearch rt co query None (Some (baseK rconfig)) w) as [r w1].
  cbn [snd] in *. lia.
Qed.


Lemma retrieve_without_planning_witness :
  let cfg := {| baseK := 2; complexityDelta := 2; enablePlanning := false;
                enableReflection := true; maxReflectionRounds := 2 |} in
  Retrieval.retrieve Fixtures.rt0 Fixtures.co_inadequate cfg "report" Fixtures.world_embedded
  = plain_retrieval Fixtures.rt0 Fixtures.co_inadequate cfg "report" None
      Fixtures.world_embedded
  /\ oracle_calls
       (history (snd (Retrieval.retrieve Fixtures.rt0 Fixtures.co_inadequate cfg "report"
                        Fixtures.world_embedded)))
     = oracle_calls (history Fixtures.world_embedded).
Proof.
  intros cfg.
  apply (@retrieve_without_planning Fixtures.rt0 Fixtures.co_inadequate cfg "report"
           Fixtures.world_embedded).
  reflexivity.
Defined.


(* ========================================================================= *)
(** * What a reflection adds to the units held *)
(* ========================================================================= *)

Section KeepsStore.

Variables A B : Type.

Lemma keeps_ret (a : A) : keeps_store (ret a).
Proof. intros w. split; reflexivity. Qed.

Lemma keeps_throw e : keeps_store (@throw A e).
Proof. intros w. split; reflexivity. Qed.

Lemma keeps_bind (c : M A) (f : A -> M B) :
  keeps_store c -> (forall a, keeps_store (f a)) -> keeps_store (bind c f).
Proof.
  intros Hc Hf w. unfold bind. destruct (Hc w) as [Hh Hu].
  destruct (c w) as [[a | e] w1]; cbn [snd] in *.
  - destruct (Hf a w1) as [Hh' Hu']. split; congruence.
  - now split.
Qed.

Lemma keeps_try_catch (c : M A) (handler : error -> M A) :
  keeps_store c -> (forall e, keeps_store (handler e)) -> keeps_store (try_catch c handler).
Proof.
  intros Hc Hh w. unfold try_catch. destruct (Hc w) as [Hh0 Hu0].
  destruct (c w) as [[a | e] w1]; cbn [snd] in *.
  - now split.
  - destruct (Hh e w1) as [Hh' Hu']. split; congruence.
Qed.

End KeepsStore.

Lemma keeps_get_heap : keeps_store get_heap.
Proof. intros w. split; reflexivity. Qed.

Lemma keeps_llm_complete co prompt t : keeps_store (llm_complete co prompt t).
Proof.
  intros w. unfold llm_complete.
  destruct (complete_reply co (history w) prompt t); split; reflexivity.
Qed.

Lemma keeps_llm_completeJSON T (rep : list event -> string -> reply T) prompt :
  keeps_store (llm_completeJSON rep prompt).
Proof.
  intros w. unfold llm_completeJSON. destruct (rep (history w) prompt); split; reflexivity.
Qed.

Lemma keeps_hybridSearch rt co query filter topK :
  keeps_store (Indexing.hybridSearch rt co query filter topK).
Proof. intros w. apply hybridSearch_keeps. Qed.

Lemma keeps_checkAdequacy co query contexts :
  keeps_store (Retrieval.checkAdequacy co query contexts).
Proof.
  unfold Retrieval.checkAdequacy.
  destruct (List.length contexts =? 0)%nat; [apply keeps_ret |].
  destruct (10 <=? List.length contexts)%nat; [apply keeps_ret |].
  apply keeps_bind; [apply keeps_get_heap | intros h].
  apply keeps_try_catch; [| intros e; apply keeps_ret].
  apply keeps_bind; [apply keeps_llm_complete | intros s; apply keeps_ret].
Qed.

Lemma keeps_generateAdditionalQueries rt co query contexts :
  keeps_store (Retrieval.generateAdditionalQueries rt co query contexts).
Proof.
  unfold Retrieval.generateAdditionalQueries.
  apply keeps_bind; [apply keeps_get_heap | intros h].
  apply keeps_try_catch; [| intros e; apply keeps_ret].
  apply keeps_bind; [apply keeps_llm_complete | intros s].
  apply keeps_bind.
  - unfold Retrieval.JSON_parse_or_throw.
    destruct (JSON_parse rt (JS.trim s)); [apply keeps_ret | apply keeps_throw].
  - intros parsed. destruct parsed; apply keeps_ret.
Qed.

Lemma keeps_analyzeQuery co query : keeps_store (Retrieval.analyzeQuery co query).
Proof.
  unfold Retrieval.analyzeQuery.
  apply keeps_try_catch; [| intros e; apply keeps_ret].
  apply keeps_bind; [apply keeps_llm_completeJSON | intros r; apply keeps_ret].
Qed.

(** At most two follow-up queries are proposed. *)
Lemma generateAdditionalQueries_at_most_two rt co query contexts w qs w' :
  Retrieval.generateAdditionalQueries rt co query contexts w = (Ok qs, w') ->
  List.length qs <= 2.
Proof.
  unfold Retrieval.generateAdditionalQueries, bind, get_heap, try_catch, ret,
    Retrieval.JSON_parse_or_throw, throw, llm_complete.
  destruct (complete_reply co (history w) _ (3 # 10)) as [s | msg].
  - destruct (JSON_parse rt (JS.trim s)) as [parsed |].
    + destruct parsed; intros [= <- _]; cbn [List.length]; try lia.
      destruct (Retrieval.only_strings l) as [| a [| a0 rest]]; cbn [List.length]; lia.
    + intros [= <- _]. cbn. lia.
  - intros [= <- _]. cbn. lia.
Qed.

(** The inner loop over the results of one search: the units pushed are units
    of the results, at most one per result, and the accumulator's invariant
    is kept. *)
Lemma merge_unseen_spec h results acc :
  exists extra,
    fst (Retrieval.merge_unseen h results acc) = fst acc ++ extra
    /\ List.length extra <= List.length results
    /\ incl extra (List.map (@unit _) results)
    /\ (seen_covers h acc -> seen_covers h (Retrieval.merge_unseen h results acc)).
Proof.
  unfold Retrieval.merge_unseen. revert acc.
  induction results as [| r results IH]; intros [allUnits seenIds]; cbn [fold_left].
  - exists []. rewrite app_nil_r.
    split; [reflexivity | split; [cbn; lia | split; [apply incl_nil_l | trivial]]].
  - destruct (JS.mem (id (h (unit r))) seenIds) eqn:E; cbn [negb].
    + destruct (IH (allUnits, seenIds)) as (extra & He & Hl & Hi & Hc).
      exists extra.
      split; [exact He | split; [cbn [List.length]; lia | split; [| exact Hc]]].
      cbn [List.map]. now apply incl_tl.
    + destruct (IH (allUnits ++ [unit r], JS.set_add seenIds (id (h (unit r)))))
        as (extra & He & Hl & Hi & Hc).
      exists (unit r :: extra). cbn [fst] in *. split; [| split; [| split]].
      * rewrite He, <- app_assoc. reflexivity.
      * cbn [List.length]. lia.
      * cbn [List.map]. apply incl_cons; [now left | now apply incl_tl].
      * intros [Hnd Hcov]. cbn [fst snd] in *. apply Hc. split; cbn [fst snd].
        -- unfold ids_of in *. rewrite map_app. apply NoDup_app; [exact Hnd | |].
           ++ cbn. repeat constructor. intros [].
           ++ intros x Hx [<- | []]. apply in_map_iff in Hx.
              destruct Hx as (u & Hu & Hin). apply Hcov in Hin. rewrite Hu in Hin.
              apply mem_In in Hin. congruence.
        -- intros u Hu. apply set_add_In. apply in_app_iff in Hu.
           destruct Hu as [Hu | [<- | []]]; [left; now apply Hcov | now right].
Qed.

Lemma hybridSearch_length rt co query filter k w res w' :
  Indexing.hybridSearch rt co query filter (Some k) w = (Ok res, w') -> List.length res <= k.
Proof.
  intros H. destruct (hybridSearch_inv _ _ _ _ _ _ H) as (sem & kw & Hm).
  exact (proj1 (hybrid_merge_bounded_sorted _ _ _ _ _ _ _ Hm)).
Qed.

(** With a unit map filed by id, the results of [hybridSearch] have distinct
    ids and are units of the map. *)
Lemma hybridSearch_distinct_indexed rt co query filter topK w res w' :
  keys_match (heap w) (units (index w)) ->
  Indexing.hybridSearch rt co query filter topK w = (Ok res, w') ->
  NoDup (ids_of (heap w) (List.map (@unit _) res))
  /\ incl (List.map (@unit _) res) (all_units w).
Proof.
  intros Hm Hrun.
  destruct (hybridSearch_keeps rt co query filter topK w) as [Hh Hu].
  rewrite Hrun in Hh, Hu. cbn [snd] in Hh, Hu.
  destruct (hybridSearch_inv _ _ _ _ _ _ Hrun) as (sem & kw & Hmerge).
  rewrite Hh in Hmerge.
  assert (Hm' : keys_match (heap w) (units (index w'))) by now rewrite Hu.
  destruct (@hybrid_merge_distinct _ _ _ _ _ _ _ _ Hm' Hmerge) as [Hids Hall].
  split.
  - unfold ids_of. now rewrite map_map.
  - intros u Hin. apply in_map_iff in Hin. destruct Hin as (r & <- & Hr).
    rewrite Forall_forall in Hall. unfold all_units. rewrite <- Hu. now apply Hall.
Qed.

Section ReflectionAdds.

Variable rt : Runtime.
Variable co : Collaborators.

Lemma additional_searches_spec queries acc w acc' w' :
  Retrieval.additional_searches rt co queries acc w = (Ok acc', w') ->
  heap w' = heap w /\ units (index w') = units (index w)
  /\ exists extra,
       fst acc' = fst acc ++ extra
       /\ List.length extra <= 3 * List.length queries
       /\ (keys_match (heap w) (units (index w)) -> incl extra (all_units w))
       /\ (seen_covers (heap w) acc -> seen_covers (heap w) acc').
Proof.
  revert acc w. induction queries as [| q queries IH]; intros acc w;
    cbn [Retrieval.additional_searches].
  - intros [= <- <-]. split; [reflexivity | split; [reflexivity |]].
    exists []. rewrite app_nil_r.
    split; [reflexivity | split; [cbn; lia | split; [intros _; apply incl_nil_l | trivial]]].
  - unfold bind at 1.
    destruct (keeps_hybridSearch rt co q None (Some 3) w) as [Hh Hu].
    destruct (Indexing.hybridSearch rt co q None (Some 3) w) as [[results | e] w1] eqn:Es;
      [| discriminate].
    cbn [snd] in Hh, Hu. unfold bind at 1, get_heap.
    intros Hrest. apply IH in Hrest.
    destruct Hrest as (Hh' & Hu' & extra & He & Hl & Hi & Hc).
    assert (Ea : all_units w1 = all_units w) by (unfold all_units; now rewrite Hu).
    rewrite Hh, Hu, Ea in *.
    split; [exact Hh' | split; [exact Hu' |]].
    destruct (merge_unseen_spec (heap w) results acc) as (extra0 & He0 & Hl0 & Hi0 & Hc0).
    exists (extra0 ++ extra). split; [| split; [| split]].
    + rewrite He, He0, app_assoc. reflexivity.
    + rewrite length_app. apply hybridSearch_length in Es. cbn [List.length]. lia.
    + intros Hm. apply incl_app; [| now apply Hi].
      eapply incl_tran; [exact Hi0 |].
      exact (proj2 (@hybridSearch_distinct_indexed _ _ _ _ _ _ _ _ Hm Es)).
    + intros Hcov. apply Hc, Hc0, Hcov.
Qed.

Lemma reflection_loop_adds rounds query allUnits seenIds entered w out n w' :
  Retrieval.reflection_loop rt co rounds query allUnits seenIds entered w = (Ok (out, n), w') ->
  heap w' = heap w /\ units (index w') = units (index w)
  /\ exists extra,
       out = allUnits ++ extra
       /\ List.length extra <= 6 * rounds
       /\ (keys_match (heap w) (units (index w)) -> incl extra (all_units w))
       /\ (seen_covers (heap w) (allUnits, seenIds) -> NoDup (ids_of (heap w) out)).
Proof.
  revert allUnits seenIds entered w.
  induction rounds as [| rounds IH]; intros allUnits seenIds entered w;
    cbn [Retrieval.reflection_loop].
  - intros [= <- <- <-]. split; [reflexivity | split; [reflexivity |]].
    exists []. rewrite app_nil_r.
    split; [reflexivity
           | split; [cbn; lia | split; [intros _; apply incl_nil_l | now intros [H _]]]].
  - unfold bind at 1.
    destruct (keeps_checkAdequacy co query allUnits w) as [Hh1 Hu1].
    destruct (Retrieval.checkAdequacy co query allUnits w) as [[isAdequate | e] w1];
      [| discriminate].
    cbn [snd] in Hh1, Hu1. destruct isAdequate.
    { intros [= <- <- <-]. split; [exact Hh1 | split; [exact Hu1 |]].
      exists []. rewrite app_nil_r.
      split; [reflexivity
             | split; [cbn; lia | split; [intros _; apply incl_nil_l | now intros [H _]]]]. }
    unfold bind at 1.
    destruct (keeps_generateAdditionalQueries rt co query allUnits w1) as [Hh2 Hu2].
    destruct (Retrieval.generateAdditionalQueries rt co query allUnits w1)
      as [[qs | e] w2] eqn:Eq; [| discriminate].
    cbn [snd] in Hh2, Hu2. apply generateAdditionalQueries_at_most_two in Eq.
    assert (Hw2 : heap w2 = heap w) by congruence.
    assert (Hx2 : units (index w2) = units (index w)) by congruence.
    destruct (List.length qs =? 0)%nat.
    { intros [= <- <- <-]. split; [exact Hw2 | split; [exact Hx2 |]].
      exists []. rewrite app_nil_r.
      split; [reflexivity
             | split; [cbn; lia | split; [intros _; apply incl_nil_l | now intros [H _]]]]. }
    unfold bind at 1.
    destruct (Retrieval.additional_searches rt co qs (allUnits, seenIds) w2)
      as [[acc | e] w3] eqn:Ea; [| discriminate].
    apply additional_searches_spec in Ea.
    destruct Ea as (Hh3 & Hu3 & extra0 & He0 & Hl0 & Hi0 & Hc0).
    intros Hrest. apply IH in Hrest.
    destruct Hrest as (Hh4 & Hu4 & extra & He & Hl & Hi & Hc).
    assert (Hw3 : heap w3 = heap w) by congruence.
    assert (Hx3 : units (index w3) = units (index w)) by congruence.
    assert (Ea2 : all_units w2 = all_units w) by (unfold all_units; now rewrite Hx2).
    assert (Ea3 : all_units w3 = all_units w) by (unfold all_units; now rewrite Hx3).
    rewrite Hw3, Hx3, Ea3 in *. rewrite Hw2, Hx2, Ea2 in *.
    split; [exact Hh4 | split; [exact Hu4 |]].
    exists (extra0 ++ extra). cbn [fst] in He0. split; [| split; [| split]].
    + rewrite He, He0, app_assoc. reflexivity.
    + rewrite length_app. lia.
    + intros Hm. apply incl_app; [now apply Hi0 | now apply Hi].
    + intros Hcov. apply Hc. rewrite <- surjective_pairing. now apply Hc0.
Qed.

Variable rconfig : RetrievalConfig.

Lemma reflectionSearch_run query initial w :
  Retrieval.reflectionSearch rt co rconfig query initial w
  = let '(r, w1) :=
      Retrieval.reflection_loop rt co (maxReflectionRounds rconfig) query initial
        (JS.set_of_list (ids_of (heap w) initial)) 0 w in
    (match r with Ok out => Ok (fst out) | Throw e => Throw e end, w1).
Proof.
  unfold Retrieval.reflectionSearch, bind, get_heap, ret, ids_of. cbn [heap].
  destruct (Retrieval.reflection_loop rt co (maxReflectionRounds rconfig) query initial
              (JS.set_of_list (List.map (fun u => id (heap w u)) initial)) 0 w)
    as [[out | e] w1]; reflexivity.
Qed.

Lemma seen_covers_initial h initial :
  NoDup (ids_of h initial) -> seen_covers h (initial, JS.set_of_list (ids_of h initial)).
Proof.
  intros Hnd. split; cbn [fst snd]; [exact Hnd |].
  intros u Hu. apply set_of_list_In. now apply (in_map (fun u => id (h u))).
Qed.

Lemma calls_reflectionSearch query initial :
  calls_at_most (2 * maxReflectionRounds rconfig)
    (Retrieval.reflectionSearch rt co rconfig query initial).
Proof.
  intros w. rewrite reflectionSearch_run.
  pose proof (reflection_loop_bound rt co (maxReflectionRounds rconfig) query initial
                (JS.set_of_list (ids_of (heap w) initial)) 0 w) as H.
  destruct (Retrieval.reflection_loop rt co (maxReflectionRounds rconfig) query initial
              (JS.set_of_list (ids_of (heap w) initial)) 0 w) as [r w1].
  cbn [snd]. apply H.
Qed.

End ReflectionAdds.

(** X19: a reflection only appends: the units it returns are the initial results,
    in their order, followed by at most 6 units per round (two follow-up queries
    of depth 3), all of them units of the index; it adds no unit whose id is
    already held, so distinct ids stay distinct; and it changes neither the
    objects nor the unit map of the index. *)
Theorem reflectionSearch_appends_unseen_units :
  forall (rt : Runtime) (co : Collaborators) (rconfig : RetrievalConfig)
         (query : string) (initial out : list ref) (w w' : World),
    reachable rt co w ->
    Retrieval.reflectionSearch rt co rconfig query initial w = (Ok out, w') ->
    heap w' = heap w /\ units (index w') = units (index w)
    /\ exists extra,
         out = initial ++ extra
         /\ List.length extra <= 6 * maxReflectionRounds rconfig
         /\ incl extra (all_units w)
         /\ (NoDup (ids_of (heap w) initial) -> NoDup (ids_of (heap w) out)).
Proof.
  intros rt co rconfig query initial out w w' Hreach.
  destruct (reachable_wf Hreach) as [Hm _].
  rewrite reflectionSearch_run.
  destruct (Retrieval.reflection_loop rt co (maxReflectionRounds rconfig) query initial
              (JS.set_of_list (ids_of (heap w) initial)) 0 w)
    as [[[us n] | e] w1] eqn:E; [| discriminate].
  intros [= <- <-]. apply reflection_loop_adds in E.
  destruct E as (Hh & Hu & extra & He & Hl & Hi & Hc).
  split; [exact Hh | split; [exact Hu |]].
  exists extra. cbn [fst].
  split; [exact He | split; [exact Hl | split; [now apply Hi |]]].
  intros Hnd. now apply Hc, seen_covers_initial.
Qed.

Lemma world_embedded_reachable_inadequate :
  reachable Fixtures.rt0 Fixtures.co_inadequate Fixtures.world_embedded.
Proof.
  exact (reach_call (rt := Fixtures.rt0) (co := Fixtures.co_inadequate)
           (w := Fixtures.world0) (AddUnits [0; 1; 2; 4])
           (reach_new Fixtures.rt0 Fixtures.co_inadequate Fixtures.heap0
              DEFAULT_INDEXING_CONFIG)).
Defined.

Lemma reflectionSearch_appends_unseen_units_witness :
  let w := Fixtures.world_embedded in
  exists out w',
    Retrieval.reflectionSearch Fixtures.rt0 Fixtures.co_inadequate one_round
      "What does Bob bring?" [0] w = (Ok out, w')
    /\ heap w' = heap w /\ units (index w') = units (index w)
    /\ exists extra,
         out = [0] ++ extra
         /\ List.length extra <= 6 * maxReflectionRounds one_round
         /\ incl extra (all_units w)
         /\ (NoDup (ids_of (heap w) [0]) -> NoDup (ids_of (heap w) out)).
Proof.
  intros w.
  destruct (Retrieval.reflectionSearch Fixtures.rt0 Fixtures.co_inadequate one_round
              "What does Bob bring?" [0] w) as [[out | e] w'] eqn:E.
  - exists out, w'. split; [reflexivity |].
    exact (@reflectionSearch_appends_unseen_units Fixtures.rt0 Fixtures.co_inadequate
             one_round "What does Bob bring?" [0] out w w'
             world_embedded_reachable_inadequate E).
  - vm_compute in E. discriminate.
Defined.

(* ========================================================================= *)
(** * The context built by retrieve *)
(* ========================================================================= *)

Lemma keeps_planning co rconfig query :
  keeps_store
    (if enablePlanning rconfig then
       bind (Retrieval.analyzeQuery co query)
         (fun analysis =>
            ret (Some analysis,
                 if match temporalConstraints analysis with
                    | Some range => JS.truthy (range_start range) || JS.truthy (range_end range)
                    | None => false
                    end
                 then Some {| filter_persons := None; filter_entities := None;
                              timestampRange := temporalConstraints analysis;
                              filter_location := None; filter_topic := None |}
                 else None))
     else ret (None, None)).
Proof.
  destruct (enablePlanning rconfig); [| apply keeps_ret].
  apply keeps_bind; [apply keeps_analyzeQuery | intros a; apply keeps_ret].
Qed.

Lemma retrieve_context_spec rt co rconfig query w w' ctx :
  keys_match (heap w) (units (index w)) ->
  Retrieval.retrieve rt co rconfig query w = (Ok ctx, w') ->
  NoDup (ids_of (heap w) (ctx_units ctx))
  /\ incl (ctx_units ctx) (all_units w)
  /\ List.length (ctx_units ctx)
     <= deepest_search rconfig + 6 * maxReflectionRounds rconfig
  /\ heap w' = heap w /\ units (index w') = units (index w).
Proof.
  intros Hm.
  unfold Retrieval.retrieve. unfold bind at 1.
  destruct (keeps_planning co rconfig query w) as [Hh0 Hu0].
  match goal with
  | |- context [match ?plan w with _ => _ end] =>
      destruct (plan w) as [[[analysis filter] | e] w0]; [| discriminate]
  end.
  cbn [snd] in Hh0, Hu0. cbv zeta.
  set (is_high := match analysis with
                  | Some a => match complexity a with HIGH => true | LOW => false end
                  | None => false
                  end).
  set (dynamicK := Similarity.computeDynamicK (baseK rconfig)
                     (if is_high then 1%Q else 0%Q) (complexityDelta rconfig)).
  assert (HK : dynamicK <= deepest_search rconfig).
  { unfold dynamicK, deepest_search. destruct is_high; [lia |].
    rewrite computeDynamicK_zero. lia. }
  unfold bind at 1.
  destruct (Indexing.hybridSearch rt co _ filter (Some dynamicK) w0)
    as [[results | e] w1] eqn:Es; [| discriminate].
  assert (Hm0 : keys_match (heap w0) (units (index w0))) by now rewrite Hh0, Hu0.
  destruct (@hybridSearch_distinct_indexed _ _ _ _ _ _ _ _ Hm0 Es) as [Hnd Hin].
  destruct (keeps_hybridSearch rt co
              match analysis with Some a => semanticQuery a | None => query end
              filter (Some dynamicK) w0) as [Hh1 Hu1].
  rewrite Es in Hh1, Hu1. cbn [snd] in Hh1, Hu1.
  apply hybridSearch_length in Es.
  assert (Ea0 : all_units w0 = all_units w) by (unfold all_units; now rewrite Hu0).
  rewrite Hh0, Ea0 in *.
  assert (Hw1 : heap w1 = heap w) by congruence.
  assert (Hx1 : units (index w1) = units (index w)) by congruence.
  assert (Ea1 : all_units w1 = all_units w) by (unfold all_units; now rewrite Hx1).
  unfold bind at 1. destruct (enableReflection rconfig && is_high).
  - rewrite reflectionSearch_run.
    destruct (Retrieval.reflection_loop rt co (maxReflectionRounds rconfig) query
                (List.map (@unit _) results)
                (JS.set_of_list (ids_of (heap w1) (List.map (@unit _) results))) 0 w1)
      as [[[us n] | e] w2] eqn:El; [| discriminate].
    apply reflection_loop_adds in El.
    destruct El as (Hh2 & Hu2 & extra & He & Hl & Hi & Hc).
    rewrite Hw1, Hx1, Ea1 in *.
    unfold bind, get_heap, ret. intros [= <- <-]. cbn [ctx_units fst].
    split; [| split; [| split; [| split; congruence]]].
    + now apply Hc, seen_covers_initial.
    + rewrite He. apply incl_app; [exact Hin | now apply Hi].
    + rewrite He, length_app, length_map. lia.
  - unfold bind, get_heap, ret. intros [= <- <-]. cbn [ctx_units].
    split; [exact Hnd | split; [exact Hin | split; [| now split]]].
    rewrite length_map. lia.
Qed.

Lemma computeDynamicK_whole baseK d delta :
  (delta == JS.of_nat d)%Q -> Similarity.computeDynamicK baseK 1 delta = baseK * (1 + d).
Proof.
  intros Hd. unfold Similarity.computeDynamicK.
  assert (E : (JS.of_nat baseK * (1 + delta * 1) == JS.of_nat (baseK * (1 + d)))%Q).
  { rewrite Hd. unfold JS.of_nat.
    rewrite !Nat2Z.inj_mul, !Nat2Z.inj_add, inject_Z_mult, inject_Z_plus.
    change (inject_Z (Z.of_nat 1)) with 1%Q. ring. }
  rewrite E, Qfloor_of_nat. apply Nat2Z.id.
Qed.

(** X20: with a whole expansion factor [d] (as the default 2), from any state
    of the index, the context [retrieve] returns holds units of the index with
    pairwise distinct ids, at most [baseK * (1 + d)], the depth of the search
    for a query of HIGH complexity, plus 6 per reflection round; and
    [retrieve] changes neither the objects nor the unit map of the index. *)
Theorem retrieve_context_distinct_indexed_bounded :
  forall (rt : Runtime) (co : Collaborators) (rconfig : RetrievalConfig)
         (query : string) (w w' : World) (ctx : RetrievalContext) (d : nat),
    reachable rt co w ->
    (complexityDelta rconfig == JS.of_nat d)%Q ->
    Retrieval.retrieve rt co rconfig query w = (Ok ctx, w') ->
    NoDup (ids_of (heap w) (ctx_units ctx))
    /\ incl (ctx_units ctx) (all_units w)
    /\ List.length (ctx_units ctx)
       <= baseK rconfig * (1 + d) + 6 * maxReflectionRounds rconfig
    /\ heap w' = heap w /\ units (index w') = units (index w).
Proof.
  intros rt co rconfig query w w' ctx d Hreach Hd Hrun.
  destruct (reachable_wf Hreach) as [Hm _].
  destruct (@retrieve_context_spec rt co rconfig query w w' ctx Hm Hrun)
    as (Hnd & Hin & Hlen & Hh & Hu).
  split; [exact Hnd | split; [exact Hin | split; [| now split]]].
  unfold deepest_search in Hlen.
  rewrite (@computeDynamicK_whole (baseK rconfig) d (complexityDelta rconfig) Hd) in Hlen.
  nia.
Qed.

Lemma retrieve_context_distinct_indexed_bounded_witness :
  let w := Fixtures.world_embedded in
  let cfg := {| baseK := 1; complexityDelta := 2; enablePlanning := true;
                enableReflection := true; maxReflectionRounds := 1 |} in
  exists ctx w',
    Retrieval.retrieve Fixtures.rt0 Fixtures.co_inadequate cfg "What does Bob bring?" w
    = (Ok ctx, w')
    /\ List.length (ctx_units ctx) = 3
    /\ NoDup (ids_of (heap w) (ctx_units ctx))
    /\ incl (ctx_units ctx) (all_units w)
    /\ List.length (ctx_units ctx) <= baseK cfg * (1 + 2) + 6 * maxReflectionRounds cfg
    /\ heap w' = heap w /\ units (index w') = units (index w).
Proof.
  intros w cfg.
  destruct (Retrieval.retrieve Fixtures.rt0 Fixtures.co_inadequate cfg
              "What does Bob bring?" w) as [[ctx | e] w'] eqn:E.
  - exists ctx, w'. split; [reflexivity |]. split.
    + vm_compute in E. injection E as <- _. reflexivity.
    + apply (@retrieve_context_distinct_indexed_bounded Fixtures.rt0 Fixtures.co_inadequate
               cfg "What does Bob bring?" w w' ctx 2 world_embedded_reachable_inadequate);
        [reflexivity | exact E].
  - vm_compute in E. discriminate.
Defined.

(** X21: [retrieve] asks the LLM at most once for the analysis of the query, and
    only when planning is enabled, and at most twice per reflection round, and
    only when reflection is enabled; this holds however the run ends. *)
Theorem retrieve_llm_call_budget :
  forall (rt : Runtime) (co : Collaborators) (rconfig : RetrievalConfig)
         (query : string) (w : World),
    oracle_calls (history (snd (Retrieval.retrieve rt co rconfig query w)))
    <= oracle_calls (history w)
       + ((if enablePlanning rconfig then 1 else 0)
          + (if enableReflection rconfig then 2 * maxReflectionRounds rconfig else 0)).
Proof.
  intros rt co rconfig query.
  change (calls_at_most
            ((if enablePlanning rconfig then 1 else 0)
             + (if enableReflection rconfig then 2 * maxReflectionRounds rconfig else 0))
            (Retrieval.retrieve rt co rconfig query)).
  unfold Retrieval.retrieve. apply calls_bind.
  { destruct (enablePlanning rconfig); [| apply calls_ret].
    apply (@calls_bind _ _ 1 0).
    - unfold Retrieval.analyzeQuery. apply (@calls_try_catch _ 1 0); [| intros e; apply calls_ret].
      apply (@calls_bind _ _ 1 0); [apply calls_llm_completeJSON | intros r; apply calls_ret].
    - intros a. apply calls_ret. }
  intros [analysis filter].
  apply (@calls_bind _ _ 0 _); [apply calls_hybridSearch | intros results].
  replace (if enableReflection rconfig then 2 * maxReflectionRounds rconfig else 0)
    with ((if enableReflection rconfig then 2 * maxReflectionRounds rconfig else 0) + 0)
    by lia.
  apply calls_bind.
  { destruct (enableReflection rconfig); cbn [andb]; [| apply calls_ret].
    match goal with |- context [if ?b then _ else _] => destruct b end;
      [apply calls_reflectionSearch | apply calls_ret]. }
  intros allUnits.
  apply (@calls_bind _ _ 0 0); [apply calls_get_heap | intros h; apply calls_ret].
Qed.

(* ========================================================================= *)
(** * generate: the fallback to a plain completion *)
(* ========================================================================= *)

(** X22: on a context that holds a unit, [generate] first asks for a structured
    answer and returns its [answer] field; if that call fails it asks once more,
    for a plain completion of the same prompt at temperature 0.1, and returns the
    reply as it is; if that fails too, the error of the second call is thrown. No
    other call is made. *)
Theorem generate_falls_back_to_plain_completion :
  forall (co : Collaborators) (query : string) (context : RetrievalContext) (w : World),
    ctx_units context <> [] ->
    let prompt := answer_prompt (heap w) query context in
    let w1 := log_call (CompleteJSONCall prompt) w in
    let w2 := log_call (CompleteCall prompt (1 # 10)) w1 in
    AnswerGenerator.generate co query context w
    = match completeJSON_answer co (history w) prompt with
      | Resolves r => (Ok (answer r), w1)
      | Rejects _ =>
          match complete_reply co (history w1) prompt (1 # 10) with
          | Resolves s => (Ok s, w2)
          | Rejects msg => (Throw (OracleError msg), w2)
          end
      end.
Proof.
  intros co query context w Hne prompt w1 w2.
  unfold AnswerGenerator.generate.
  destruct (ctx_units context) as [| u us] eqn:Eu; [congruence |].
  cbn [List.length Nat.eqb].
  unfold bind at 1, get_heap. unfold try_catch, bind, llm_completeJSON, ret.
  fold (answer_prompt (heap w) query context). fold prompt.
  destruct (completeJSON_answer co (history w) prompt) as [r | msg0]; [reflexivity |].
  fold w1. unfold llm_complete.
  destruct (complete_reply co (history w1) prompt (1 # 10)) as [s | msg]; reflexivity.
Qed.

Lemma generate_falls_back_to_plain_completion_witness :
  let context := {| abstracts := []; ctx_units := [1]; totalTokens := 5;
                    retrievalRationale := None |} in
  let w := Fixtures.world_embedded in
  let prompt := answer_prompt (heap w) "What does Bob bring?" context in
  AnswerGenerator.generate Fixtures.co_embed "What does Bob bring?" context w
  = (Throw (OracleError "llm down"),
     log_call (CompleteCall prompt (1 # 10)) (log_call (CompleteJSONCall prompt) w)).
Proof.
  intros context w prompt.
  apply (@generate_falls_back_to_plain_completion Fixtures.co_embed "What does Bob bring?"
           context w).
  cbn. discriminate.
Defined.

(* ========================================================================= *)
(** * MemoryStorage: export, import and queries *)
(* ========================================================================= *)

Section FiledMaps.

Variable V : Type.
Variable key : V -> string.

Let set_all (vs : list V) (m : JS.Map V) : JS.Map V :=
  fold_left (fun m' v => JS.map_set m' (key v) v) vs m.

Lemma map_set_new (m : JS.Map V) k v :
  ~ In k (JS.map_keys m) -> JS.map_set m k v = m ++ [(k, v)].
Proof.
  induction m as [| [k0 v0] m IH]; cbn [JS.map_set JS.map_keys List.map fst In app];
    [reflexivity |].
  intros Hnot. destruct (String.eqb_spec k0 k) as [-> | _]; [tauto |].
  f_equal. apply IH. tauto.
Qed.

Lemma map_set_again (m : JS.Map V) k v :
  NoDup (JS.map_keys m) -> In (k, v) m -> JS.map_set m k v = m.
Proof.
  induction m as [| [k0 v0] m IH]; cbn [JS.map_set JS.map_keys List.map fst In];
    [tauto |].
  intros Hnd Hin. inversion Hnd as [| ? ? Hnotin Hnd']; subst.
  destruct (String.eqb_spec k0 k) as [-> | Hne].
  - destruct Hin as [[= <-] | Hin]; [reflexivity |].
    exfalso. apply Hnotin. now apply (in_map fst) in Hin.
  - destruct Hin as [[= -> _] | Hin]; [congruence |]. f_equal. now apply IH.
Qed.

Lemma filed_set (m : JS.Map V) v : filed_by key m -> filed_by key (JS.map_set m (key v) v).
Proof.
  intros [Hk Hnd]. split; [| now apply map_set_keeps_nodup].
  clear Hnd. induction Hk as [| [k0 v0] m Hk0 Hk IH]; cbn [JS.map_set].
  - repeat constructor.
  - destruct (String.eqb_spec k0 (key v)) as [-> | _]; constructor; auto.
Qed.

Lemma filed_delete (m : JS.Map V) k : filed_by key m -> filed_by key (JS.map_delete m k).
Proof.
  intros [Hk Hnd]. split; [| now apply map_delete_keeps_nodup].
  clear Hnd. induction Hk as [| [k0 v0] m Hk0 Hk IH]; cbn [JS.map_delete].
  - constructor.
  - destruct (String.eqb k0 k); [exact Hk | constructor; auto].
Qed.

(** Setting the values of a filed map, in their order, after [pre] rebuilds
    the map. *)
Lemma set_all_rebuilds (post pre : JS.Map V) :
  filed_by key (pre ++ post) -> set_all (JS.map_values post) pre = pre ++ post.
Proof.
  unfold set_all, JS.map_values. revert pre.
  induction post as [| [k v] post IH]; intros pre [Hk Hnd]; cbn [List.map fold_left snd].
  - now rewrite app_nil_r.
  - assert (Ekey : key v = k).
    { rewrite Forall_forall in Hk. apply (Hk (k, v)), in_or_app. right. now left. }
    assert (Hnew : ~ In k (JS.map_keys pre)).
    { unfold JS.map_keys in *. rewrite map_app in Hnd. cbn [List.map fst] in Hnd.
      apply NoDup_remove_2 in Hnd. intros Hin. apply Hnd, in_or_app. now left. }
    rewrite Ekey, (@map_set_new pre k v Hnew).
    rewrite IH; rewrite <- app_assoc; [reflexivity |]. now split.
Qed.

(** Setting values that the map already holds under their keys changes
    nothing. *)
Lemma set_all_held vs (m : JS.Map V) :
  NoDup (JS.map_keys m) -> (forall v, In v vs -> In (key v, v) m) -> set_all vs m = m.
Proof.
  unfold set_all. intros Hnd. induction vs as [| v vs IH]; intros Hall; cbn [fold_left];
    [reflexivity |].
  rewrite map_set_again; [| exact Hnd | apply Hall; now left].
  apply IH. intros v' Hv'. apply Hall. now right.
Qed.

Lemma filed_values_held (m : JS.Map V) v :
  filed_by key m -> In v (JS.map_values m) -> In (key v, v) m.
Proof.
  intros [Hk _] Hin. apply in_map_iff in Hin. destruct Hin as ([k v'] & E & Hin).
  cbn [snd] in E. subst v'. rewrite Forall_forall in Hk.
  pose proof (Hk _ Hin) as E. cbn [fst snd] in E. now rewrite E.
Qed.

End FiledMaps.

Lemma storage_reachable_filed h st :
  storage_reachable h st ->
  filed_by (fun u => id (h u)) (Storage.units st)
  /\ filed_by Storage.abstract_id (Storage.abstracts st).
Proof.
  assert (Hsave : forall us st0,
             filed_by (fun u => id (h u)) (Storage.units st0) ->
             filed_by Storage.abstract_id (Storage.abstracts st0) ->
             filed_by (fun u => id (h u))
               (Storage.units (fold_left (fun st' u => Storage.saveUnit h u st') us st0))
             /\ filed_by Storage.abstract_id
                  (Storage.abstracts
                     (fold_left (fun st' u => Storage.saveUnit h u st') us st0))).
  { induction us as [| u us IH]; intros st0 Hu0 Ha0; cbn [fold_left]; [now split |].
    apply IH; [exact (@filed_set _ (fun u => id (h u)) _ u Hu0) | exact Ha0]. }
  induction 1 as [| st c Hr [Hu Ha]].
  - split; split; cbn; constructor.
  - destruct c; cbn [storage_after].
    + split; [exact (@filed_set _ (fun u => id (h u)) _ u Hu) | exact Ha].
    + now apply Hsave.
    + split; [exact (@filed_delete _ _ _ unit_id Hu) | exact Ha].
    + split; [exact Hu | exact (@filed_set _ Storage.abstract_id _ a Ha)].
    + split; split; cbn; constructor.
    + unfold Storage.import.
      destruct (Hsave (Storage.data_units data) st Hu Ha) as [Hu1 Ha1].
      revert Hu1 Ha1.
      generalize (fold_left (fun st' u => Storage.saveUnit h u st') (Storage.data_units data) st).
      induction (Storage.data_abstracts data) as [| a l IH]; intros st1 Hu1 Ha1;
        cbn [fold_left]; [now split |].
      apply IH; [exact Hu1 | exact (@filed_set _ Storage.abstract_id _ a Ha1)].
Qed.

Lemma saveUnits_units h us st :
  Storage.units (Storage.saveUnits h us st) = Indexing.upsert_all h (Storage.units st) us
  /\ Storage.abstracts (Storage.saveUnits h us st) = Storage.abstracts st.
Proof.
  unfold Storage.saveUnits, Indexing.upsert_all. revert st.
  induction us as [| u us IH]; intros st; cbn [fold_left]; [split; reflexivity |].
  destruct (IH (Storage.saveUnit h u st)) as [-> ->]. split; reflexivity.
Qed.

Lemma saveAbstracts_fields l st :
  Storage.units (fold_left (fun st' a => Storage.saveAbstract a st') l st) = Storage.units st
  /\ Storage.abstracts (fold_left (fun st' a => Storage.saveAbstract a st') l st)
     = fold_left (fun m a => JS.map_set m (Storage.abstract_id a) a) l (Storage.abstracts st).
Proof.
  revert st. induction l as [| a l IH]; intros st; cbn [fold_left]; [split; reflexivity |].
  destruct (IH (Storage.saveAbstract a st)) as [-> ->]. split; reflexivity.
Qed.

Lemma import_fields h data st :
  Storage.units (Storage.import h data st)
  = Indexing.upsert_all h (Storage.units st) (Storage.data_units data)
  /\ Storage.abstracts (Storage.import h data st)
     = fold_left (fun m a => JS.map_set m (Storage.abstract_id a) a)
         (Storage.data_abstracts data) (Storage.abstracts st).
Proof.
  unfold Storage.import.
  destruct (saveAbstracts_fields (Storage.data_abstracts data)
              (fold_left (fun st' u => Storage.saveUnit h u st') (Storage.data_units data) st))
    as [-> ->].
  destruct (saveUnits_units h (Storage.data_units data) st) as [Hu Ha].
  unfold Storage.saveUnits in Hu, Ha. now rewrite Hu, Ha.
Qed.

Lemma storage_eq (st st' : Storage.MemoryStorage) :
  Storage.units st = Storage.units st' -> Storage.abstracts st = Storage.abstracts st' ->
  st = st'.
Proof. destruct st, st'. cbn. now intros -> ->. Qed.

(** X23: from any state of a storage, importing what it exports into a new storage
    rebuilds it, units and abstracts in their order; and importing it back into
    the storage itself changes nothing. *)
Theorem export_import_round_trip :
  forall (h : Heap) (now : string) (st : Storage.MemoryStorage),
    storage_reachable h st ->
    Storage.import h (Storage.export now st) Storage.new_MemoryStorage = st
    /\ Storage.import h (Storage.export now st) st = st.
Proof.
  intros h now st Hreach.
  destruct (storage_reachable_filed Hreach) as [Hu Ha].
  split; apply storage_eq.
  - rewrite (proj1 (import_fields h _ _)). cbn [Storage.export Storage.data_units
      Storage.new_MemoryStorage Storage.units]. unfold Indexing.upsert_all.
    exact (@set_all_rebuilds _ (fun u => id (h u)) (Storage.units st) [] Hu).
  - rewrite (proj2 (import_fields h _ _)). cbn [Storage.export Storage.data_abstracts
      Storage.new_MemoryStorage Storage.abstracts].
    exact (@set_all_rebuilds _ Storage.abstract_id (Storage.abstracts st) [] Ha).
  - rewrite (proj1 (import_fields h _ _)). cbn [Storage.export Storage.data_units].
    unfold Indexing.upsert_all.
    apply (@set_all_held _ (fun u => id (h u))); [apply Hu |].
    intros v Hv. exact (@filed_values_held _ (fun u => id (h u)) _ v Hu Hv).
  - rewrite (proj2 (import_fields h _ _)). cbn [Storage.export Storage.data_abstracts].
    apply (@set_all_held _ Storage.abstract_id); [apply Ha |].
    intros v Hv. exact (@filed_values_held _ Storage.abstract_id _ v Ha Hv).
Qed.

Lemma export_import_round_trip_witness :
  let st := Storage.deleteUnit "u1"
              (Storage.saveUnits Fixtures.heap0 [0; 1; 2; 3] Storage.new_MemoryStorage) in
  Storage.getAllUnits st = [0; 3]
  /\ Storage.import Fixtures.heap0 (Storage.export "2025-11-16T14:00:00.000Z" st)
       Storage.new_MemoryStorage = st
  /\ Storage.import Fixtures.heap0 (Storage.export "2025-11-16T14:00:00.000Z" st) st = st.
Proof.
  intros st. split; [reflexivity |].
  apply (@export_import_round_trip Fixtures.heap0 "2025-11-16T14:00:00.000Z" st).
  exact (storage_call_done (DeleteUnit "u1")
           (storage_call_done (SaveUnits [0; 1; 2; 3]) (storage_new Fixtures.heap0))).
Defined.

(** X24: what [queryUnits] returns are the stored units that match the filter, in
    the order of the storage; when the index holds the same unit map,
    [structuredSearch] returns the first [topK] of them, each with score 1. *)
Theorem queryUnits_is_uncapped_structuredSearch :
  forall (rt : Runtime) (filter0 : QueryFilter) (topK : option nat) (w : World)
         (st : Storage.MemoryStorage),
    Storage.units st = units (index w) ->
    let found := Storage.queryUnits rt (heap w) filter0 st in
    let k := match topK with Some k => k | None => structuredTopK (config (index w)) end in
    Indexing.structuredSearch rt filter0 topK w
    = (Ok (List.map (fun u => Indexing.mk_result u 1%Q symbolic) (JS.slice0 k found)), w)
    /\ (forall u, In u found <->
                  In u (Storage.getAllUnits st)
                  /\ Indexing.matchesFilter rt (heap w u) filter0 = true).
Proof.
  intros rt filter0 topK w st Hsame found k. split.
  - unfold Indexing.structuredSearch, bind, get_index, get_heap, ret.
    fold k. unfold found, Storage.queryUnits, JS.slice0. rewrite Hsame, firstn_map.
    reflexivity.
  - intros u. unfold found, Storage.queryUnits, Storage.getAllUnits.
    rewrite filter_In. reflexivity.
Qed.

Lemma queryUnits_is_uncapped_structuredSearch_witness :
  let w := Fixtures.world_embedded in
  let st := Storage.saveUnits (heap w) [0; 1; 2; 4] Storage.new_MemoryStorage in
  Storage.queryUnits Fixtures.rt0 (heap w) Fixtures.range_only st = [1; 2; 4]
  /\ fst (Indexing.structuredSearch Fixtures.rt0 Fixtures.range_only (Some 2) w)
     = Ok (List.map (fun u => Indexing.mk_result u 1%Q symbolic) [1; 2]).
Proof.
  intros w st. split; [reflexivity |].
  rewrite (proj1 (@queryUnits_is_uncapped_structuredSearch Fixtures.rt0 Fixtures.range_only
                    (Some 2) w st eq_refl)).
  reflexivity.
Defined.

(* ========================================================================= *)
(** * SimpleMem: storage and index *)
(* ========================================================================= *)

Lemma initialize_done rt co m :
  SimpleMem.initialized m = true -> SimpleMem.initialize rt co m = (Ok tt, m).
Proof.
  intros Hi. unfold SimpleMem.initialize, SimpleMem.bindS, SimpleMem.get_initialized.
  now rewrite Hi.
Qed.

Lemma initialize_empty rt co m :
  Storage.units (SimpleMem.storage m) = [] ->
  exists m1,
    SimpleMem.initialize rt co m = (Ok tt, m1)
    /\ SimpleMem.world m1 = SimpleMem.world m
    /\ SimpleMem.storage m1 = SimpleMem.storage m.
Proof.
  intros He. destruct (SimpleMem.initialized m) eqn:Hi.
  - exists m. now rewrite initialize_done.
  - unfold SimpleMem.initialize, SimpleMem.bindS, SimpleMem.get_initialized,
      SimpleMem.get_storage, Storage.getAllUnits.
    rewrite Hi, He. cbn. eexists. repeat split.
Qed.

Lemma rebuildLexicalIndex_run rt w :
  exists w',
    Indexing.rebuildLexicalIndex rt w = (Ok tt, w')
    /\ heap w' = heap w /\ units (index w') = units (index w)
    /\ needsRebuild (index w') = false.
Proof.
  unfold Indexing.rebuildLexicalIndex, bind, get_heap, get_index, put_index.
  eexists. repeat split.
Qed.

(** X25: when the embedding provider fails, [saveAndIndexUnits] fails with that
    error after the units were filed in the storage: every id of the batch is
    stored, and the index is as it was. *)
Theorem saveAndIndexUnits_failure_stores_without_indexing :
  forall (co : Collaborators) (batch : list ref) (m : SimpleMem.SimpleMem) (msg : string),
    let h := heap (SimpleMem.world m) in
    needing h batch <> [] ->
    embed_reply co (history (SimpleMem.world m)) (texts_of h (needing h batch)) = Rejects msg ->
    let '(outcome, m') := SimpleMem.saveAndIndexUnits co batch m in
    outcome = Throw (EmbeddingError msg)
    /\ Storage.units (SimpleMem.storage m')
       = Indexing.upsert_all h (Storage.units (SimpleMem.storage m)) batch
    /\ (forall u, In u batch ->
                  In (id (h u)) (JS.map_keys (Storage.units (SimpleMem.storage m'))))
    /\ index (SimpleMem.world m') = index (SimpleMem.world m)
    /\ heap (SimpleMem.world m') = h.
Proof.
  intros co batch m msg h Hne Hrej.
  unfold SimpleMem.saveAndIndexUnits.
  destruct batch as [| u0 batch0] eqn:Eb; [now destruct Hne |]. rewrite <- Eb in *.
  replace (List.length batch =? 0)%nat with false by now rewrite Eb.
  unfold SimpleMem.bindS, SimpleMem.get_storage, SimpleMem.on_index, get_heap,
    SimpleMem.put_storage.
  cbn [SimpleMem.world SimpleMem.storage SimpleMem.initialized].
  rewrite (@addUnits_embed_rejects co batch (SimpleMem.world m) msg Hne Hrej).
  cbn [SimpleMem.world SimpleMem.storage log_call heap index].
  split; [reflexivity |].
  rewrite (proj1 (saveUnits_units _ _ _)).
  split; [reflexivity | split; [| split; reflexivity]].
  intros u Hu. now apply upsert_all_In_key.
Qed.

Lemma saveAndIndexUnits_failure_stores_without_indexing_witness :
  let m := SimpleMem.new_SimpleMem Fixtures.heap0 None DEFAULT_INDEXING_CONFIG in
  let '(outcome, m') := SimpleMem.saveAndIndexUnits Fixtures.co_down [0; 2] m in
  outcome = Throw (EmbeddingError "embeddings down")
  /\ Storage.units (SimpleMem.storage m') = [("u0", 0); ("u2", 2)]
  /\ (forall u, In u [0; 2] ->
                In (id (Fixtures.heap0 u)) (JS.map_keys (Storage.units (SimpleMem.storage m'))))
  /\ index (SimpleMem.world m') = new_HybridIndex DEFAULT_INDEXING_CONFIG
  /\ heap (SimpleMem.world m') = Fixtures.heap0.
Proof.
  intros m.
  apply (@saveAndIndexUnits_failure_stores_without_indexing Fixtures.co_down [0; 2] m
           "embeddings down").
  - discriminate.
  - reflexivity.
Defined.

(** X26: starting with storage and index holding the same unit map, a successful
    [saveAndIndexUnits] and a successful [import] leave them holding the same unit
    map; after [import] the instance counts as initialized and the lexical index
    is rebuilt. *)
Theorem successful_writes_keep_storage_and_index_in_step :
  forall (rt : Runtime) (co : Collaborators) (m : SimpleMem.SimpleMem),
    in_step m ->
    (forall batch m', SimpleMem.saveAndIndexUnits co batch m = (Ok tt, m') -> in_step m')
    /\ (forall data m',
          SimpleMem.import rt co data m = (Ok tt, m') ->
          in_step m'
          /\ SimpleMem.initialized m' = true
          /\ needsRebuild (index (SimpleMem.world m')) = false).
Proof.
  intros rt co m Hstep. unfold in_step in *. split.
  - intros batch m'. unfold SimpleMem.saveAndIndexUnits.
    destruct (List.length batch =? 0)%nat; [now intros [= <-] |].
    unfold SimpleMem.bindS, SimpleMem.get_storage, SimpleMem.on_index, get_heap,
      SimpleMem.put_storage.
    cbn [SimpleMem.world SimpleMem.storage SimpleMem.initialized].
    pose proof (addUnits_cases co batch (SimpleMem.world m)) as Hadd.
    destruct (Indexing.addUnits co batch (SimpleMem.world m)) as [[[] | e] w1];
      [| discriminate].
    intros [= <-]. cbn [SimpleMem.world SimpleMem.storage].
    destruct Hadd as [(_ & Hids & Hu & _) | (msg & Hthrow & _)]; [| discriminate].
    rewrite Hu, (proj1 (saveUnits_units _ _ _)), Hstep.
    symmetry. apply upsert_all_ext. intros r. apply Hids.
  - intros data m'. unfold SimpleMem.import.
    unfold SimpleMem.bindS, SimpleMem.get_storage, SimpleMem.on_index, get_heap,
      SimpleMem.put_storage, SimpleMem.set_initialized.
    cbn [SimpleMem.world SimpleMem.storage SimpleMem.initialized].
    pose proof (addUnits_cases co (Storage.data_units data) (SimpleMem.world m)) as Hadd.
    destruct (Indexing.addUnits co (Storage.data_units data) (SimpleMem.world m))
      as [[[] | e] w1]; [| discriminate].
    cbn [SimpleMem.world SimpleMem.storage SimpleMem.initialized].
    destruct (rebuildLexicalIndex_run rt w1) as (w2 & -> & _ & Hu2 & Hclean).
    intros [= <-]. cbn [SimpleMem.world SimpleMem.storage SimpleMem.initialized].
    destruct Hadd as [(_ & Hids & Hu & _) | (msg & Hthrow & _)]; [| discriminate].
    split; [| split; [reflexivity | exact Hclean]].
    rewrite Hu2, Hu, (proj1 (import_fields _ _ _)), Hstep.
    symmetry. apply upsert_all_ext. intros r. apply Hids.
Qed.

Lemma successful_writes_keep_storage_and_index_in_step_witness :
  let m := SimpleMem.new_SimpleMem Fixtures.heap0 None DEFAULT_INDEXING_CONFIG in
  let data := {| Storage.data_units := [0; 1; 2; 3]; Storage.data_abstracts := [];
                 Storage.version := "1.0.0";
                 Storage.exportedAt := "2025-11-16T14:00:00.000Z" |} in
  exists m',
    SimpleMem.import Fixtures.rt0 Fixtures.co_embed data m = (Ok tt, m')
    /\ units (index (SimpleMem.world m')) = [("u0", 0); ("u1", 1); ("u2", 3)]
    /\ in_step m'
    /\ SimpleMem.initialized m' = true
    /\ needsRebuild (index (SimpleMem.world m')) = false.
Proof.
  intros m data.
  destruct (SimpleMem.import Fixtures.rt0 Fixtures.co_embed data m) as [[[] | e] m'] eqn:E.
  - exists m'. split; [reflexivity |]. split.
    + vm_compute in E. injection E as <-. reflexivity.
    + exact (proj2 (@successful_writes_keep_storage_and_index_in_step Fixtures.rt0
                      Fixtures.co_embed m eq_refl) data m' E).
  - vm_compute in E. discriminate.
Defined.

(** X27: on a memory that holds no unit, in the storage or in the index, every
    answer [ask] returns is the fixed insufficient-information message. *)
Theorem ask_on_empty_memory :
  forall (rt : Runtime) (co : Collaborators) (rconfig : RetrievalConfig)
         (question : string) (m m' : SimpleMem.SimpleMem) (a : string),
    Storage.units (SimpleMem.storage m) = [] ->
    units (index (SimpleMem.world m)) = [] ->
    SimpleMem.ask rt co rconfig question m = (Ok a, m') ->
    a = AnswerGenerator.INSUFFICIENT
    /\ Storage.units (SimpleMem.storage m') = []
    /\ units (index (SimpleMem.world m')) = [].
Proof.
  intros rt co rconfig question m m' a Hst Hidx.
  unfold SimpleMem.ask. unfold SimpleMem.bindS at 1.
  destruct (initialize_empty rt co m Hst) as (m1 & -> & Hw1 & Hs1).
  unfold SimpleMem.bindS, SimpleMem.on_index. rewrite Hw1.
  destruct (Retrieval.retrieve rt co rconfig question (SimpleMem.world m))
    as [[ctx | e] w1] eqn:Er; [| discriminate].
  cbn [SimpleMem.world SimpleMem.storage SimpleMem.initialized].
  assert (Hm : keys_match (heap (SimpleMem.world m)) (units (index (SimpleMem.world m)))).
  { rewrite Hidx. constructor. }
  destruct (@retrieve_context_spec _ _ _ _ _ _ _ Hm Er) as (_ & Hin & _ & _ & Hu).
  assert (Hnone : ctx_units ctx = []).
  { unfold all_units in Hin. rewrite Hidx in Hin. cbn in Hin.
    destruct (ctx_units ctx) as [| u us]; [reflexivity |].
    destruct (Hin u (or_introl eq_refl)). }
  unfold AnswerGenerator.generate. rewrite Hnone. cbn [List.length Nat.eqb ret].
  intros [= <- <-]. cbn [SimpleMem.world SimpleMem.storage].
  split; [reflexivity | split; [congruence | congruence]].
Qed.

Lemma ask_on_empty_memory_witness :
  let m := SimpleMem.new_SimpleMem Fixtures.heap0 None DEFAULT_INDEXING_CONFIG in
  exists m',
    SimpleMem.ask Fixtures.rt0 Fixtures.co_inadequate DEFAULT_RETRIEVAL_CONFIG
      "What does Bob bring?" m
    = (Ok AnswerGenerator.INSUFFICIENT, m')
    /\ Storage.units (SimpleMem.storage m') = []
    /\ units (index (SimpleMem.world m')) = [].
Proof.
  intros m.
  destruct (SimpleMem.ask Fixtures.rt0 Fixtures.co_inadequate DEFAULT_RETRIEVAL_CONFIG
              "What does Bob bring?" m) as [[a | e] m'] eqn:E.
  - exists m'.
    destruct (@ask_on_empty_memory Fixtures.rt0 Fixtures.co_inadequate
                DEFAULT_RETRIEVAL_CONFIG "What does Bob bring?" m m' a eq_refl eq_refl E)
      as (-> & Hs & Hi).
    split; [reflexivity | split; assumption].
  - vm_compute in E. discriminate.
Defined.

(** X28: what [search] returns are copies: unless [includeEmbeddings] is set they
    carry no embedding, there are at most [limit] of them, and on an initialized
    instance the stored objects, their embeddings included, the unit map of the
    index and the storage are as before. *)
Theorem search_returns_copies_without_embeddings :
  forall (rt : Runtime) (co : Collaborators) (query : string)
         (options : option SimpleMem.SearchOptions)
         (m m' : SimpleMem.SimpleMem) (found : list MemoryUnit),
    SimpleMem.search rt co query options m = (Ok found, m') ->
    (match options with
     | Some o => SimpleMem.includeEmbeddings o <> Some true
     | None => True
     end -> Forall (fun u => embedding u = None) found)
    /\ (forall k, match options with Some o => SimpleMem.limit o | None => None end = Some k ->
                  List.length found <= k)
    /\ (SimpleMem.initialized m = true ->
        heap (SimpleMem.world m') = heap (SimpleMem.world m)
        /\ units (index (SimpleMem.world m')) = units (index (SimpleMem.world m))
        /\ SimpleMem.storage m' = SimpleMem.storage m).
Proof.
  intros rt co query options m m' found.
  unfold SimpleMem.search. unfold SimpleMem.bindS at 1.
  destruct (SimpleMem.initialize rt co m) as [[[] | e] m1] eqn:Ei; [| discriminate].
  unfold SimpleMem.bindS, SimpleMem.on_index, get_heap, SimpleMem.retS.
  destruct (keeps_hybridSearch rt co query
              match options with Some o => SimpleMem.options_filter o | None => None end
              match options with Some o => SimpleMem.limit o | None => None end
              (SimpleMem.world m1)) as [Hh Hu].
  destruct (Indexing.hybridSearch rt co query _ _ (SimpleMem.world m1))
    as [[results | e] w1] eqn:Es; [| discriminate].
  cbn [snd] in Hh, Hu. cbn [SimpleMem.world SimpleMem.storage SimpleMem.initialized heap].
  intros [= <- <-]. cbn [SimpleMem.world SimpleMem.storage]. split; [| split].
  - intros Hopt. apply Forall_forall. intros u Hin. apply in_map_iff in Hin.
    destruct Hin as (r & <- & _). unfold SimpleMem.copy_unit.
    destruct options as [o |]; [| reflexivity].
    destruct (SimpleMem.includeEmbeddings o) as [[|] |]; [congruence | |]; reflexivity.
  - intros k Hk. rewrite length_map. rewrite Hk in Es.
    now apply hybridSearch_length in Es.
  - intros Hi. rewrite (@initialize_done rt co m Hi) in Ei. injection Ei as <-.
    split; [exact Hh | split; [exact Hu | reflexivity]].
Qed.

Lemma search_returns_copies_without_embeddings_witness :
  let m := {| SimpleMem.storage := Storage.new_MemoryStorage;
              SimpleMem.initialized := true;
              SimpleMem.world := Fixtures.world_embedded |} in
  let options := Some {| SimpleMem.options_filter := None; SimpleMem.limit := Some 2;
                         SimpleMem.includeEmbeddings := None |} in
  exists found m',
    SimpleMem.search Fixtures.rt0 Fixtures.co_embed "report" options m = (Ok found, m')
    /\ List.map (@id) found = ["u0"; "u2"]
    /\ Forall (fun u => embedding u = None) found
    /\ heap (SimpleMem.world m') = heap Fixtures.world_embedded.
Proof.
  intros m options.
  destruct (SimpleMem.search Fixtures.rt0 Fixtures.co_embed "report" options m)
    as [[found | e] m'] eqn:E.
  - exists found, m'. split; [reflexivity |].
    destruct (@search_returns_copies_without_embeddings Fixtures.rt0 Fixtures.co_embed
                "report" options m m' found E) as (Hhide & _ & Hkeep).
    split; [| split].
    + vm_compute in E. injection E as <- _. reflexivity.
    + apply Hhide. discriminate.
    + now apply Hkeep.
  - vm_compute in E. discriminate.
Defined.

(* ========================================================================= *)
(** * MemoryBuilder: the sliding window over the dialogue buffer *)
(* ========================================================================= *)

Lemma clamp_index_inside len i :
  (0 <= i)%Z -> (i <= Z.of_nat len)%Z -> JS.clamp_index len i = Z.to_nat i.
Proof.
  intros H0 Hle. unfold JS.clamp_index.
  destruct (Z.ltb_spec i 0); [lia |]. lia.
Qed.

Lemma slice_prefix A (l : list A) (i : Z) :
  (0 <= i)%Z -> (i <= Z.of_nat (List.length l))%Z -> JS.slice 0 i l = firstn (Z.to_nat i) l.
Proof.
  intros H0 Hle. unfold JS.slice.
  rewrite (clamp_index_inside _ H0 Hle).
  rewrite (@clamp_index_inside (List.length l) 0) by lia.
  cbn [Z.to_nat skipn]. now rewrite Nat.sub_0_r.
Qed.

Lemma slice_from_inside A (l : list A) (i : Z) :
  (0 <= i)%Z -> (i <= Z.of_nat (List.length l))%Z -> JS.slice_from i l = skipn (Z.to_nat i) l.
Proof.
  intros H0 Hle. unfold JS.slice_from. now rewrite (clamp_index_inside _ H0 Hle).
Qed.

Lemma has_add_all (ds : list Compression.Dialogue) (s : list Z) (x : Z) :
  Compression.has s x = true \/ In x (List.map (@Compression.id) ds) ->
  Compression.has (fold_left (fun s' d => Compression.add s' (Compression.id d)) ds s) x = true.
Proof.
  revert s. induction ds as [| d ds IH]; intros s; cbn [fold_left List.map In].
  - intros [H | []]. exact H.
  - intros H. apply IH.
    unfold Compression.add.
    destruct (Compression.has s (Compression.id d)) eqn:E.
    + destruct H as [H | [<- | H]]; [now left | now left | now right].
    + destruct H as [H | [<- | H]]; [left | left | now right];
        unfold Compression.has in *; rewrite existsb_app; cbn [existsb].
      * now rewrite H.
      * rewrite Z.eqb_refl. now rewrite orb_true_r.
Qed.

(** X29: with [0 <= overlapSize < windowSize] and a full buffer, [extractWindow]
    returns the first [windowSize] dialogues and drops the first [windowSize -
    overlapSize] of them from the buffer, which gets shorter: the last
    [overlapSize] dialogues of the window stay and open the next one. The dropped
    dialogues are marked as processed, so adding one of them again leaves the
    builder as it is. *)
Theorem extractWindow_slides_by_stride :
  forall (b : Compression.MemoryBuilder),
    let size := Compression.windowSize (Compression.config b) in
    let overlap := Compression.overlapSize (Compression.config b) in
    let stride := Z.to_nat (size - overlap) in
    (0 <= overlap)%Z -> (overlap < size)%Z ->
    Compression.hasFullWindow b = true ->
    let '(window, b') := Compression.extractWindow b in
    window = firstn (Z.to_nat size) (Compression.dialogueBuffer b)
    /\ List.length window = Z.to_nat size
    /\ Compression.dialogueBuffer b' = skipn stride (Compression.dialogueBuffer b)
    /\ List.length (Compression.dialogueBuffer b')
       < List.length (Compression.dialogueBuffer b)
    /\ firstn (Z.to_nat overlap) (Compression.dialogueBuffer b') = skipn stride window
    /\ (forall d, In d (firstn stride (Compression.dialogueBuffer b)) ->
                  Compression.addDialogue d b' = b')
    /\ Compression.config b' = Compression.config b.
Proof.
  intros b size overlap stride H0 Hlt Hfull.
  unfold Compression.hasFullWindow in Hfull. fold size in Hfull.
  apply Z.leb_le in Hfull.
  unfold Compression.extractWindow. fold size. fold overlap.
  rewrite (@slice_prefix _ (Compression.dialogueBuffer b) size) by lia.
  rewrite (@slice_prefix _ (Compression.dialogueBuffer b) (size - overlap)) by lia.
  rewrite (@slice_from_inside _ (Compression.dialogueBuffer b) (size - overlap)) by lia.
  fold stride. cbn [Compression.with_buffer Compression.dialogueBuffer Compression.config].
  assert (Hs : stride + Z.to_nat overlap = Z.to_nat size) by (unfold stride; lia).
  split; [reflexivity |]. split; [rewrite length_firstn; lia |].
  split; [reflexivity |]. split; [rewrite length_skipn; unfold stride; lia |].
  split; [rewrite <- Hs; apply firstn_skipn_comm |]. split; [| reflexivity].
  intros d Hd. unfold Compression.addDialogue.
  cbn [Compression.with_buffer Compression.processedDialogueIds].
  rewrite has_add_all; [reflexivity |].
  right. now apply in_map.
Qed.

Lemma extractWindow_slides_by_stride_witness :
  let say := fun i text =>
    {| Compression.id := i; Compression.speaker := "Alice";
       Compression.content := text; Compression.timestamp := None |} in
  let cfg := {| Compression.windowSize := 3; Compression.overlapSize := 1;
                Compression.redundancyThreshold := 3 # 10;
                Compression.entityWeight := 1 # 2 |} in
  let b := Compression.addDialogues
             [say 0%Z "a"; say 1%Z "b"; say 2%Z "c"; say 3%Z "d"]
             (Compression.new_MemoryBuilder cfg) in
  let '(window, b') := Compression.extractWindow b in
  window = firstn 3 (Compression.dialogueBuffer b)
  /\ List.length window = 3
  /\ Compression.dialogueBuffer b' = skipn 2 (Compression.dialogueBuffer b)
  /\ List.length (Compression.dialogueBuffer b') < List.length (Compression.dialogueBuffer b)
  /\ firstn 1 (Compression.dialogueBuffer b') = skipn 2 window
  /\ (forall d, In d (firstn 2 (Compression.dialogueBuffer b)) ->
                Compression.addDialogue d b' = b')
  /\ Compression.config b' = Compression.config b.
Proof.
  intros say cfg b.
  apply (@extractWindow_slides_by_stride b).
  - cbn. lia.
  - cbn. lia.
  - reflexivity.
Defined.

(** X30: with [overlapSize = windowSize], [extractWindow] takes nothing from the
    buffer: after any number of extractions the buffer is as it was and still
    holds a full window. *)
Theorem extractWindow_full_overlap_never_drains :
  forall (b : Compression.MemoryBuilder) (n : nat),
    Compression.overlapSize (Compression.config b)
    = Compression.windowSize (Compression.config b) ->
    Compression.hasFullWindow b = true ->
    Compression.dialogueBuffer (extractions n b) = Compression.dialogueBuffer b
    /\ Compression.hasFullWindow (extractions n b) = true.
Proof.
  intros b n. revert b. induction n as [| n IH]; intros b Hsame Hfull; cbn [extractions].
  - now split.
  - assert (Hstep : Compression.dialogueBuffer (snd (Compression.extractWindow b))
                    = Compression.dialogueBuffer b
                    /\ Compression.config (snd (Compression.extractWindow b))
                       = Compression.config b).
    { unfold Compression.extractWindow. rewrite Hsame, Z.sub_diag.
      cbn [snd Compression.with_buffer Compression.dialogueBuffer Compression.config].
      split; [| reflexivity].
      unfold JS.slice_from, JS.clamp_index. cbn [Z.ltb Z.compare Z.to_nat Nat.min skipn].
      reflexivity. }
    destruct Hstep as [Hbuf Hcfg].
    destruct (IH (snd (Compression.extractWindow b))) as [Hb Hf].
    + now rewrite Hcfg.
    + unfold Compression.hasFullWindow in *. now rewrite Hbuf, Hcfg.
    + split; [now rewrite Hb | exact Hf].
Qed.

Lemma extractWindow_full_overlap_never_drains_witness :
  let say := fun i text =>
    {| Compression.id := i; Compression.speaker := "Alice";
       Compression.content := text; Compression.timestamp := None |} in
  let cfg := {| Compression.windowSize := 2; Compression.overlapSize := 2;
                Compression.redundancyThreshold := 3 # 10;
                Compression.entityWeight := 1 # 2 |} in
  let b := Compression.addDialogues [say 0%Z "a"; say 1%Z "b"; say 2%Z "c"]
             (Compression.new_MemoryBuilder cfg) in
  Compression.dialogueBuffer (extractions 7 b) = Compression.dialogueBuffer b
  /\ Compression.hasFullWindow (extractions 7 b) = true.
Proof.
  intros say cfg b.
  apply (@extractWindow_full_overlap_never_drains b 7); reflexivity.
Defined.

(* ========================================================================= *)
(** * hybridSearch without a filter: the bonus of every candidate, the ranking *)
(* ========================================================================= *)

Lemma find_last A (f : A -> bool) (l : list A) (x : A) :
  find f (l ++ [x])
  = match find f l with
    | Some y => Some y
    | None => if f x then Some x else None
    end.
Proof.
  induction l as [| y l IH]; cbn [app find]; [reflexivity |].
  destruct (f y); [reflexivity | exact IH].
Qed.

Lemma map_get_recorded V (entries : list (string * V)) (m0 : JS.Map V) uid :
  JS.map_get (fold_left (fun m p => JS.map_set m (fst p) (snd p)) entries m0) uid
  = match find (fun p => String.eqb (fst p) uid) (rev entries) with
    | Some p => Some (snd p)
    | None => JS.map_get m0 uid
    end.
Proof.
  revert m0. induction entries as [| [k v] entries IH]; intros m0; cbn [fold_left rev];
    [reflexivity |].
  rewrite IH, find_last. cbn [fst snd].
  destruct (find (fun p => String.eqb (fst p) uid) (rev entries)); [reflexivity |].
  rewrite map_get_set. destruct (String.eqb k uid); reflexivity.
Qed.

Lemma get_recorded V (zero : V) (entries : list (string * V)) uid :
  match JS.map_get (fold_left (fun m p => JS.map_set m (fst p) (snd p)) entries []) uid with
  | Some x => x
  | None => zero
  end = recorded zero entries uid.
Proof.
  rewrite map_get_recorded. unfold recorded.
  destruct (find (fun p => String.eqb (fst p) uid) (rev entries)); reflexivity.
Qed.

Lemma fold_set_map A V (g : A -> string * V) (l : list A) (m0 : JS.Map V) :
  fold_left (fun m r => JS.map_set m (fst (g r)) (snd (g r))) l m0
  = fold_left (fun m p => JS.map_set m (fst p) (snd p)) (List.map g l) m0.
Proof.
  revert m0. induction l as [| r l IH]; intros m0; cbn [fold_left List.map];
    [reflexivity | apply IH].
Qed.

Lemma lexical_scores_entries h maxBM25 kw m lex :
  Indexing.lexical_scores h maxBM25 kw m = Ok lex ->
  lex = fold_left (fun m' p => JS.map_set m' (fst p) (snd p))
          (flat_map
             (fun r => match unit r with
                       | Some u => [(id (h u), (score r / maxBM25)%Q)]
                       | None => []
                       end)
             kw)
          m.
Proof.
  revert m. induction kw as [| r kw IH]; intros m; cbn [Indexing.lexical_scores flat_map].
  - now intros [= <-].
  - destruct (unit r) as [u |]; [| discriminate].
    intros H. apply IH in H. exact H.
Qed.

Lemma lexical_scores64_entries h maxBM25 kw m lex :
  Binary64.lexical_scores h maxBM25 kw m = Ok lex ->
  lex = fold_left (fun m' p => JS.map_set m' (fst p) (snd p))
          (flat_map
             (fun r => match Binary64.unit r with
                       | Some u => [(id (h u), (Binary64.score r / maxBM25)%float)]
                       | None => []
                       end)
             kw)
          m.
Proof.
  revert m. induction kw as [| r kw IH]; intros m; cbn [Binary64.lexical_scores flat_map].
  - now intros [= <-].
  - destruct (Binary64.unit r) as [u |]; [| discriminate].
    intros H. apply IH in H. exact H.
Qed.

Lemma sort64_In A (cmp : A -> A -> float) (l : list A) (z : A) :
  In z (Binary64.sort cmp l) -> In z l.
Proof.
  assert (Hins : forall x m, In z (Binary64.sort_insert cmp x m) -> z = x \/ In z m).
  { intros x m. induction m as [| y m IH]; cbn [Binary64.sort_insert In].
    - intros [<- | []]. now left.
    - destruct (0 <? cmp x y)%float; cbn [In].
      + intros [<- | H]; [right; now left |].
        destruct (IH H) as [-> | H']; [now left | right; now right].
      + intros [<- | H]; [now left | now right]. }
  unfold Binary64.sort. induction l as [| x l IH]; cbn [fold_right In]; [tauto |].
  intros H. destruct (Hins _ _ H) as [-> | H']; [now left | right; now apply IH].
Qed.

(** In exact arithmetic: the score of every result of a merge without filter. *)
Lemma hybrid_merge_scores rt h i k sem kw res :
  Indexing.hybrid_merge rt h i None k sem kw = Ok res ->
  Forall
    (fun r =>
       exists uid,
         JS.map_get (units i) uid = Some (unit r)
         /\ score r
            = (semanticWeight (config i) * recorded 0%Q (semantic_entries h sem) uid
               + lexicalWeight (config i) * recorded 0%Q (lexical_entries h kw) uid
               + symbolicWeight (config i))%Q)
    res.
Proof.
  unfold Indexing.hybrid_merge.
  destruct (Indexing.lexical_scores h _ kw []) as [lex | e] eqn:El; [| discriminate].
  intros [= <-]. apply lexical_scores_entries in El.
  apply Forall_forall. intros r Hr.
  apply slice0_In in Hr. apply (Permutation_in _ (sort_perm _ _)) in Hr.
  apply in_flat_map in Hr. destruct Hr as (uid & _ & Hr).
  rewrite hybrid_entry_no_filter in Hr.
  destruct (JS.map_get (units i) uid) as [u |] eqn:Eu; [| destruct Hr].
  destruct Hr as [<- | []]. exists uid. cbn [unit score Indexing.mk_result].
  split; [exact Eu |].
  change (fold_left (fun m r => JS.map_set m (id (h (unit r))) (score r)) sem [])
    with (fold_left
            (fun m r => JS.map_set m (fst ((fun r0 : SearchResult ref => (id (h (unit r0)), score r0)) r))
                          (snd ((fun r0 : SearchResult ref => (id (h (unit r0)), score r0)) r)))
            sem ([] : JS.Map Q)).
  rewrite fold_set_map. fold (semantic_entries h sem).
  rewrite (get_recorded 0%Q (semantic_entries h sem) uid).
  rewrite El. fold (lexical_entries h kw).
  rewrite (get_recorded 0%Q (lexical_entries h kw) uid).
  reflexivity.
Qed.

(** In binary64: the score of every result of a merge without filter. *)
Lemma hybrid_merge64_scores rt h us weights k sem kw res :
  Binary64.hybrid_merge rt h us weights None k sem kw = Ok res ->
  Forall
    (fun r =>
       exists uid,
         JS.map_get us uid = Some (Binary64.unit r)
         /\ Binary64.score r
            = (Binary64.semanticWeight weights * recorded 0%float (semantic_entries64 h sem) uid
               + Binary64.lexicalWeight weights * recorded 0%float (lexical_entries64 h kw) uid
               + Binary64.symbolicWeight weights)%float)
    res.
Proof.
  unfold Binary64.hybrid_merge.
  destruct (Binary64.lexical_scores h _ kw []) as [lex | e] eqn:El; [| discriminate].
  intros [= <-]. apply lexical_scores64_entries in El.
  apply Forall_forall. intros r Hr.
  apply slice0_In in Hr. apply sort64_In in Hr.
  apply in_flat_map in Hr. destruct Hr as (uid & _ & Hr).
  unfold Binary64.hybrid_entry, Binary64.computeHybridScore in Hr.
  destruct (JS.map_get us uid) as [u |] eqn:Eu; [| destruct Hr].
  destruct Hr as [<- | []]. exists uid. cbn [Binary64.unit Binary64.score].
  split; [exact Eu |].
  change (fold_left (fun m r => JS.map_set m (id (h (Binary64.unit r))) (Binary64.score r))
            sem [])
    with (fold_left
            (fun m r =>
               JS.map_set m
                 (fst ((fun r0 : Binary64.SearchResult ref =>
                          (id (h (Binary64.unit r0)), Binary64.score r0)) r))
                 (snd ((fun r0 : Binary64.SearchResult ref =>
                          (id (h (Binary64.unit r0)), Binary64.score r0)) r)))
            sem ([] : JS.Map float)).
  rewrite fold_set_map. fold (semantic_entries64 h sem).
  rewrite (get_recorded 0%float (semantic_entries64 h sem) uid).
  rewrite El. fold (lexical_entries64 h kw).
  rewrite (get_recorded 0%float (lexical_entries64 h kw) uid).
  reflexivity.
Qed.

Lemma hybridSearch_layers rt co query filter topK w res w' :
  Indexing.hybridSearch rt co query filter topK w = (Ok res, w') ->
  let k := match topK with Some k => k | None => semanticTopK (config (index w)) end in
  exists sem w1 kw,
    Indexing.semanticSearch rt co query (Some (k * 2)) w = (Ok sem, w1)
    /\ Indexing.keywordSearch rt query (Some (k * 2)) w1 = (Ok kw, w')
    /\ Indexing.hybrid_merge rt (heap w') (index w') filter k sem kw = Ok res.
Proof.
  unfold Indexing.hybridSearch, bind, get_index, get_heap, lift, Indexing.promise_all2.
  destruct (Indexing.semanticSearch rt co query _ w) as [[sem | e] w1] eqn:Es;
    destruct (Indexing.keywordSearch rt query _ w1) as [[kw | e'] w2] eqn:Ek;
    try discriminate.
  intros [= Hm <-]. cbv zeta. exists sem, w1, kw.
  split; [reflexivity | split; [exact Ek | exact Hm]].
Qed.

(** C4, as stated, does not hold of the numbers the code computes: at the
    default weights, two candidates whose scores without the symbolic term
    are 0.3428571428571428 and 0.34285714285714286 both get
    0.44285714285714284 once 0.1 is added.  Without the term the second is
    ranked first; with it they tie and the stable sort keeps the order of
    insertion, the first before the second. *)
Lemma bonus_changes_ranking_in_binary64 :
  let ranking := fun weights =>
    match Binary64.hybrid_merge Fixtures.rt0 Fixtures.heap0 Fixtures.close_units weights
            None 2 Fixtures.close_semantic Fixtures.close_keyword with
    | Ok res => List.map (fun r => (Binary64.unit r, Binary64.score r)) res
    | Throw _ => []
    end in
  ranking Binary64.DEFAULT_WEIGHTS
  = [(0, 0.44285714285714284%float); (1, 0.44285714285714284%float)]
  /\ ranking (without_bonus Binary64.DEFAULT_WEIGHTS)
     = [(1, 0.34285714285714286%float); (0, 0.3428571428571428%float)]
  /\ ~ (forall (rt : Runtime) (h : Heap) (us : JS.Map ref) (weights : Binary64.Weights)
               (k : nat) (sem : list (Binary64.SearchResult ref))
               (kw : list (Binary64.SearchResult (option ref)))
               (res res0 : list (Binary64.SearchResult ref)),
           Binary64.hybrid_merge rt h us weights None k sem kw = Ok res ->
           Binary64.hybrid_merge rt h us (without_bonus weights) None k sem kw = Ok res0 ->
           List.map (@Binary64.unit _) res = List.map (@Binary64.unit _) res0).
Proof.
  intros ranking. split; [| split].
  - vm_compute. reflexivity.
  - vm_compute. reflexivity.
  - intros H.
    pose proof (H Fixtures.rt0 Fixtures.heap0 Fixtures.close_units Binary64.DEFAULT_WEIGHTS 2
                  Fixtures.close_semantic Fixtures.close_keyword) as H1.
    vm_compute in H1. specialize (H1 _ _ eq_refl eq_refl). discriminate.
Qed.

(** C4 (amended): when [hybridSearch] is called with no filter, the symbolic
    term is a bonus that every candidate receives alike: in the binary64
    numbers of the code, the score of every result is
    [semanticWeight * semanticScore + lexicalWeight * lexicalScore + symbolicWeight],
    the two scores being those the layers recorded for the unit, 0 where a
    layer recorded none.  In exact arithmetic the scores have the same form,
    and the search returns the units that the same search without the
    symbolic term (weight 0) returns, in the same order, each score greater by
    exactly [symbolicWeight]; the two searches fail together, with the same
    error.  (In binary64 the ranking is not always kept: the sums are
    rounded.) *)
Theorem no_filter_bonus_on_every_candidate :
  (forall (rt : Runtime) (h : Heap) (us : JS.Map ref) (weights : Binary64.Weights)
          (k : nat) (sem : list (Binary64.SearchResult ref))
          (kw : list (Binary64.SearchResult (option ref))),
      match Binary64.hybrid_merge rt h us weights None k sem kw with
      | Ok res =>
          Forall
            (fun r =>
               exists uid,
                 JS.map_get us uid = Some (Binary64.unit r)
                 /\ Binary64.score r
                    = (Binary64.semanticWeight weights
                         * recorded 0%float (semantic_entries64 h sem) uid
                       + Binary64.lexicalWeight weights
                         * recorded 0%float (lexical_entries64 h kw) uid
                       + Binary64.symbolicWeight weights)%float)
            res
      | Throw _ => True
      end)
  /\ (forall (rt : Runtime) (co : Collaborators) (query : string)
             (topK : option nat) (w : World),
         let k := match topK with Some k => k | None => semanticTopK (config (index w)) end in
         match Indexing.hybridSearch rt co query None topK w,
               fst (Indexing.hybridSearch rt co query None topK (without_symbolic_term w)) with
         | (Ok res, w'), Ok res0 =>
             same_ranking_shifted (symbolicWeight (config (index w))) res res0
             /\ exists sem w1 kw,
                  Indexing.semanticSearch rt co query (Some (k * 2)) w = (Ok sem, w1)
                  /\ Indexing.keywordSearch rt query (Some (k * 2)) w1 = (Ok kw, w')
                  /\ Forall
                       (fun r =>
                          exists uid,
                            JS.map_get (units (index w')) uid = Some (unit r)
                            /\ score r
                               = (semanticWeight (config (index w'))
                                    * recorded 0%Q (semantic_entries (heap w') sem) uid
                                  + lexicalWeight (config (index w'))
                                    * recorded 0%Q (lexical_entries (heap w') kw) uid
                                  + symbolicWeight (config (index w')))%Q)
                       res
         | (Throw e, _), Throw e0 => e = e0
         | _, _ => False
         end).
Proof.
  split.
  - intros rt h us weights k sem kw.
    destruct (Binary64.hybrid_merge rt h us weights None k sem kw) as [res | e] eqn:E;
      [| exact I].
    exact (@hybrid_merge64_scores rt h us weights k sem kw res E).
  - intros rt co query topK w k.
    pose proof (hybridSearch_shift rt co query topK w) as Hshift.
    destruct (Indexing.hybridSearch rt co query None topK w) as [[res | e] w'] eqn:E;
      cbn [fst] in Hshift;
      destruct (fst (Indexing.hybridSearch rt co query None topK (without_symbolic_term w)))
        as [res0 | e0]; try exact Hshift.
    split; [exact Hshift |].
    destruct (@hybridSearch_layers rt co query None topK w res w' E)
      as (sem & w1 & kw & Hs & Hk & Hm).
    exists sem, w1, kw. split; [exact Hs | split; [exact Hk |]].
    exact (@hybrid_merge_scores rt _ _ _ sem kw res Hm).
Qed.
